(** * canvas: the 2D vector-path engine of path.go

    A shallow embedding of [Path] (path.go) and of its builders, its
    algebra ([Append], [Translate], [Split], [Reverse], [FlattenBeziers])
    and of the SVG path-data codec ([ParseSVGPath], [ToSVGPath]).

    - Coordinates are Go [float64] values: they are Rocq's primitive
      binary64 floats, so every arithmetic step and comparison is the
      IEEE-754 one the program performs.
    - What one call computes is stated on [Path] values: a slice is the
      list of its elements, and a method with a pointer receiver returns the
      receiver's new value.
    - What a call does to the other paths is stated on a heap of arrays:
      there a slice is an array, an offset, a length and a capacity, the
      fragments of [Split] are slices of the arrays of the path that was
      split, and [append] writes in place within the capacity.
    - A run-time panic (index or slice bound out of range) and a loop that
      has not finished are explicit outcomes of a call.
    - [Equal], [ftos], [Point.Interpolate] and [strconv.ParseFloat] are not
      in path.go and are modelled from the spec; the cubic flattener is a
      parameter. *)

From Stdlib Require Import String Ascii.
From Stdlib Require Import ZArith List Bool Lia Arith.
From Stdlib Require Import Floats.PrimFloat Floats.FloatOps Floats.SpecFloat.
From Stdlib Require Import DecimalString.
Import ListNotations.

(** ** Outcomes of a Go call *)

Inductive outcome (A : Type) : Type :=
| Ret (a : A)      (* the call returns [a] *)
| Panic            (* run-time panic: index or slice bound out of range *)
| Timeout.         (* the loop has not finished within the given fuel *)

Arguments Ret {A} a.
Arguments Panic {A}.
Arguments Timeout {A}.

Definition bind {A B : Type} (m : outcome A) (k : A -> outcome B) : outcome B :=
  match m with
  | Ret a => k a
  | Panic => Panic
  | Timeout => Timeout
  end.

Declare Scope go_scope.
Delimit Scope go_scope with go.
Notation "x <- m ;; k" := (bind m (fun x => k))
  (at level 61, m at next level, right associativity) : go_scope.
Notation "' pat <- m ;; k" := (bind m (fun x => match x with pat => k end))
  (at level 61, pat pattern, m at next level, right associativity) : go_scope.

(** [s[i]] on a slice: panics out of range. *)
Definition idx {A : Type} (s : list A) (i : nat) : outcome A :=
  match nth_error s i with
  | Some a => Ret a
  | None => Panic
  end.

(** [s[i]] with a signed Go [int] index. *)
Definition idxZ {A : Type} (s : list A) (i : Z) : outcome A :=
  if (i <? 0)%Z then Panic else idx s (Z.to_nat i).

(** [s[a:b]]; the model takes the capacity of a slice to be its length. *)
Definition slice {A : Type} (s : list A) (a b : nat) : outcome (list A) :=
  if (a <=? b) && (b <=? length s) then Ret (firstn (b - a) (skipn a s)) else Panic.

(** [s[:i]] with a signed Go [int] bound. *)
Definition sliceToZ {A : Type} (s : list A) (i : Z) : outcome (list A) :=
  if (i <? 0)%Z then Panic else slice s 0 (Z.to_nat i).

(** ** float64 *)

Definition float64 := float.

Definition Z2F (z : Z) : float64 := SF2Prim (binary_normalize prec emax z 0 false).

(** Modelled from the spec: [Equal] (the repository's numeric helper, not in
    path.go) is near-equality with the epsilon 1e-10 that the spec prescribes
    for every "Equal" comparison.  The literal is the binary64 value that Go
    uses for the constant 1e-10. *)
Definition epsilon : float64 := 0x1.b7cdfd9d7bdbbp-34%float.

Definition Equal (a b : float64) : bool := (abs (a - b) <? epsilon)%float.

(** ** PathCmd *)

Inductive PathCmd : Type :=
| MoveToCmd | LineToCmd | QuadToCmd | CubeToCmd | ArcToCmd | CloseCmd.

Definition PathCmd_eqb (a b : PathCmd) : bool :=
  match a, b with
  | MoveToCmd, MoveToCmd | LineToCmd, LineToCmd | QuadToCmd, QuadToCmd
  | CubeToCmd, CubeToCmd | ArcToCmd, ArcToCmd | CloseCmd, CloseCmd => true
  | _, _ => false
  end.

Definition Len (cmd : PathCmd) : nat :=
  match cmd with
  | MoveToCmd | LineToCmd | CloseCmd => 2
  | QuadToCmd => 4
  | CubeToCmd => 6
  | ArcToCmd => 7
  end.

Definition PathCmd_String (cmd : PathCmd) : string :=
  match cmd with
  | MoveToCmd => "M"
  | LineToCmd => "L"
  | QuadToCmd => "Q"
  | CubeToCmd => "C"
  | ArcToCmd => "A"
  | CloseCmd => "z"
  end.

(** ** Path *)

Record Path : Type := mkPath {
  cmds : list PathCmd;
  d : list float64;
  x0 : float64;   (* coords of last MoveTo *)
  y0 : float64
}.

(** [&Path{}] *)
Definition emptyPath : Path := mkPath [] [] 0%float 0%float.

Definition IsEmpty (p : Path) : bool := Nat.eqb (length (cmds p)) 0.

Definition Copy (p : Path) : Path :=
  mkPath ([] ++ cmds p) ([] ++ d p) (x0 p) (y0 p).

(** The last two numbers of a coordinate buffer, (0,0) when it has fewer
    than two: the body shared by [Pos] and [prevEnd]. *)
Definition prevEnd (d : list float64) : float64 * float64 :=
  if 1 <? length d
  then (nth (length d - 2) d 0%float, nth (length d - 1) d 0%float)
  else (0%float, 0%float).

Definition Pos (p : Path) : float64 * float64 := prevEnd (d p).

Definition Start (p : Path) : float64 * float64 := (x0 p, y0 p).

(** *** Builders *)

Definition MoveTo (p : Path) (x y : float64) : Path :=
  mkPath (cmds p ++ [MoveToCmd]) (d p ++ [x; y]) x y.

Definition LineTo (p : Path) (x y : float64) : Path :=
  mkPath (cmds p ++ [LineToCmd]) (d p ++ [x; y]) (x0 p) (y0 p).

Definition QuadTo (p : Path) (x1 y1 x y : float64) : Path :=
  mkPath (cmds p ++ [QuadToCmd]) (d p ++ [x1; y1; x; y]) (x0 p) (y0 p).

Definition CubeTo (p : Path) (x1 y1 x2 y2 x y : float64) : Path :=
  mkPath (cmds p ++ [CubeToCmd]) (d p ++ [x1; y1; x2; y2; x; y]) (x0 p) (y0 p).

Definition ArcTo (p : Path) (rx ry rot : float64) (large sweep : bool)
    (x y : float64) : Path :=
  let flarge := if large then 1%float else 0%float in
  let fsweep := if sweep then 1%float else 0%float in
  mkPath (cmds p ++ [ArcToCmd]) (d p ++ [rx; ry; rot; flarge; fsweep; x; y])
         (x0 p) (y0 p).

Definition Close (p : Path) : Path :=
  mkPath (cmds p ++ [CloseCmd]) (d p ++ [x0 p; y0 p]) (x0 p) (y0 p).

Definition Rect (p : Path) (x y w h : float64) : Path :=
  let p := MoveTo p x y in
  let p := LineTo p (x + w)%float y in
  let p := LineTo p (x + w)%float (y + h)%float in
  let p := LineTo p x (y + h)%float in
  Close p.

Definition Ellipse (p : Path) (x y rx ry : float64) : Path :=
  let p := MoveTo p (x + rx)%float y in
  let p := ArcTo p rx ry 0%float false false (x - rx)%float y in
  let p := ArcTo p rx ry 0%float false false (x + rx)%float y in
  Close p.

(** ** Serialization to SVG path data *)

Definition pow10 (k : nat) : Z := Z.pow 10 (Z.of_nat k).

(** [m * 2^e * 10^k] rounded to the nearest integer, ties to even. *)
Definition scaled (m : positive) (e : Z) (k : nat) : Z :=
  let num := (Zpos m * pow10 k)%Z in
  if (0 <=? e)%Z then (num * 2 ^ e)%Z
  else
    let den := (2 ^ (- e))%Z in
    let q := (num / den)%Z in
    let r := (num mod den)%Z in
    if (2 * r <? den)%Z then q
    else if (den <? 2 * r)%Z then (q + 1)%Z
    else if Z.even q then q else (q + 1)%Z.

Definition string_of_Z (z : Z) : string := NilZero.string_of_int (Z.to_int z).

Fixpoint zeros (n : nat) : string :=
  match n with
  | O => EmptyString
  | S n' => String "0" (zeros n')
  end.

(** The decimal numeral of [n / 10^k] with [k] fractional digits. *)
Definition decimal (n : Z) (k : nat) : string :=
  let ip := string_of_Z (n / pow10 k) in
  match k with
  | O => ip
  | S _ =>
    let fp := string_of_Z (n mod pow10 k) in
    (ip ++ "." ++ zeros (k - String.length fp) ++ fp)%string
  end.

Fixpoint shortest (fuel k : nat) (m : positive) (e : Z) (a : float64) : string :=
  let n := scaled m e k in
  match fuel with
  | O => decimal n k
  | S fuel' =>
    if (Z2F n / Z2F (pow10 k) =? a)%float then decimal n k
    else shortest fuel' (S k) m e a
  end.

(** Modelled from the spec: [ftos] (the repository's number formatter, not
    in path.go) gives "the shortest decimal form sufficient to reconstruct
    the same coordinate": the decimal numeral with the fewest fractional
    digits (at most 17) that reads back as the same float64. *)
Definition ftos (f : float64) : string :=
  match Prim2SF f with
  | S754_nan => "NaN"
  | S754_infinity s => if s then "-Inf" else "+Inf"
  | S754_zero s => if s then "-0" else "0"
  | S754_finite s m e =>
    ((if s then "-" else "") ++ shortest 17 0 m e (abs f))%string
  end.

Definition svg_state : Type := string * nat * float64 * float64.

(** One iteration of the [for _, cmd := range p.cmds] loop of [ToSVGPath]:
    the builder [svg], the buffer offset [i] and the pen position [x], [y]. *)
Definition svgStep (p : Path) (st : svg_state) (cmd : PathCmd) : outcome svg_state :=
  let '(svg, i, x, y) := st in
  (match cmd with
   | MoveToCmd =>
     x <- idx (d p) (i + 0) ;; y <- idx (d p) (i + 1) ;;
     Ret ((svg ++ "M" ++ ftos x ++ " " ++ ftos y)%string, i + 2, x, y)
   | LineToCmd =>
     let xStart := x in
     let yStart := y in
     x <- idx (d p) (i + 0) ;; y <- idx (d p) (i + 1) ;;
     let svg :=
       if Equal x xStart && Equal y yStart then svg
       else if Equal x xStart then (svg ++ "V" ++ ftos y)%string
       else if Equal y yStart then (svg ++ "H" ++ ftos x)%string
       else (svg ++ "L" ++ ftos x ++ " " ++ ftos y)%string in
     Ret (svg, i + 2, x, y)
   | QuadToCmd =>
     x <- idx (d p) (i + 2) ;; y <- idx (d p) (i + 3) ;;
     a <- idx (d p) (i + 0) ;; b <- idx (d p) (i + 1) ;;
     Ret ((svg ++ "Q" ++ ftos a ++ " " ++ ftos b ++ " " ++ ftos x ++ " "
               ++ ftos y)%string, i + 4, x, y)
   | CubeToCmd =>
     x <- idx (d p) (i + 4) ;; y <- idx (d p) (i + 5) ;;
     a <- idx (d p) (i + 0) ;; b <- idx (d p) (i + 1) ;;
     c <- idx (d p) (i + 2) ;; e <- idx (d p) (i + 3) ;;
     Ret ((svg ++ "C" ++ ftos a ++ " " ++ ftos b ++ " " ++ ftos c ++ " "
               ++ ftos e ++ " " ++ ftos x ++ " " ++ ftos y)%string, i + 6, x, y)
   | ArcToCmd =>
     x <- idx (d p) (i + 5) ;; y <- idx (d p) (i + 6) ;;
     a <- idx (d p) (i + 0) ;; b <- idx (d p) (i + 1) ;;
     c <- idx (d p) (i + 2) ;; e <- idx (d p) (i + 3) ;;
     f <- idx (d p) (i + 4) ;;
     Ret ((svg ++ "A" ++ ftos a ++ " " ++ ftos b ++ " " ++ ftos c ++ " "
               ++ ftos e ++ " " ++ ftos f ++ " " ++ ftos x ++ " "
               ++ ftos y)%string, i + 7, x, y)
   | CloseCmd =>
     x <- idx (d p) (i + 0) ;; y <- idx (d p) (i + 1) ;;
     Ret ((svg ++ "z")%string, i + 2, x, y)
   end)%go.

Fixpoint svgLoop (p : Path) (st : svg_state) (cs : list PathCmd) : outcome svg_state :=
  match cs with
  | [] => Ret st
  | cmd :: cs' => (st' <- svgStep p st cmd ;; svgLoop p st' cs')%go
  end.

Definition ToSVGPath (p : Path) : outcome string :=
  let svg :=
    match cmds p with
    | c :: _ => if negb (PathCmd_eqb c MoveToCmd) then "M0 0"%string else EmptyString
    | [] => EmptyString
    end in
  ('(svg, _, _, _) <- svgLoop p (svg, 0, 0%float, 0%float) (cmds p) ;; Ret svg)%go.

(** ** Path algebra *)

(** [p.Append(q)]: the receiver's new value and the value [q] is left with
    (Append re-slices [q] when it drops the leading MoveTo). *)
Definition Append (p q : Path) : outcome (Path * Path) :=
  (if Nat.eqb (length (cmds q)) 0 then Ret (p, q)
   else
     q <- (if (0 <? length (cmds p))
              && match cmds q with c :: _ => PathCmd_eqb c MoveToCmd | [] => false end
           then
             px <- idxZ (d p) (Z.of_nat (length (d p)) - 2) ;;
             py <- idxZ (d p) (Z.of_nat (length (d p)) - 1) ;;
             x1 <- idx (d q) 0 ;;
             y1 <- idx (d q) 1 ;;
             if Equal px x1 && Equal py y1 then
               qc <- slice (cmds q) 1 (length (cmds q)) ;;
               qd <- slice (d q) 2 (length (d q)) ;;
               Ret (mkPath qc qd (x0 q) (y0 q))
             else Ret q
           else Ret q) ;;
     Ret (mkPath (cmds p ++ cmds q) (d p ++ d q) (x0 q) (y0 q), q))%go.

(** The [for ; jcmd < len(p.cmds); jcmd++] loop of [Split] and the code
    after it; [rest] is [p.cmds[jcmd:]]. *)
Fixpoint splitLoop (p : Path) (rest : list PathCmd) (ps : list Path)
    (closed : bool) (i j icmd jcmd : nat) (x0 y0 : float64)
    : outcome (list Path) :=
  match rest with
  | [] =>
    (if i <? j then
       c <- slice (cmds p) icmd jcmd ;;
       f <- slice (d p) i j ;;
       Ret (ps ++ [mkPath c f x0 y0])
     else Ret ps)%go
  | cmd :: rest' =>
    ('(ps, icmd, i, closed) <-
       (if (i <? j) && PathCmd_eqb cmd MoveToCmd || closed then
          c <- slice (cmds p) icmd jcmd ;;
          f <- slice (d p) i j ;;
          Ret (ps ++ [mkPath c f x0 y0], jcmd, j, false)
        else Ret (ps, icmd, i, closed)) ;;
     match cmd with
     | MoveToCmd =>
       x0 <- idx (d p) (j + 0) ;;
       y0 <- idx (d p) (j + 1) ;;
       splitLoop p rest' ps closed i (j + 2) icmd (jcmd + 1) x0 y0
     | LineToCmd => splitLoop p rest' ps closed i (j + 2) icmd (jcmd + 1) x0 y0
     | QuadToCmd => splitLoop p rest' ps closed i (j + 4) icmd (jcmd + 1) x0 y0
     | CubeToCmd => splitLoop p rest' ps closed i (j + 6) icmd (jcmd + 1) x0 y0
     | ArcToCmd => splitLoop p rest' ps closed i (j + 7) icmd (jcmd + 1) x0 y0
     | CloseCmd => splitLoop p rest' ps true i (j + 2) icmd (jcmd + 1) x0 y0
     end)%go
  end.

Definition Split (p : Path) : outcome (list Path) :=
  splitLoop p (cmds p) [] false 0 0 0 0 0%float 0%float.

(** [d[i] += x] *)
Definition addAt (d : list float64) (i : nat) (x : float64) : outcome (list float64) :=
  match nth_error d i with
  | Some a => Ret (firstn i d ++ (a + x)%float :: skipn (S i) d)
  | None => Panic
  end.

(** The [for _, cmd := range p.cmds] loop of [Translate], on the buffer [d]. *)
Fixpoint translateLoop (cs : list PathCmd) (d : list float64) (i : nat)
    (x y : float64) : outcome (list float64) :=
  match cs with
  | [] => Ret d
  | cmd :: cs' =>
    (match cmd with
     | MoveToCmd | LineToCmd | CloseCmd =>
       d <- addAt d (i + 0) x ;; d <- addAt d (i + 1) y ;;
       translateLoop cs' d (i + 2) x y
     | QuadToCmd =>
       d <- addAt d (i + 0) x ;; d <- addAt d (i + 1) y ;;
       d <- addAt d (i + 2) x ;; d <- addAt d (i + 3) y ;;
       translateLoop cs' d (i + 4) x y
     | CubeToCmd =>
       d <- addAt d (i + 0) x ;; d <- addAt d (i + 1) y ;;
       d <- addAt d (i + 2) x ;; d <- addAt d (i + 3) y ;;
       d <- addAt d (i + 4) x ;; d <- addAt d (i + 5) y ;;
       translateLoop cs' d (i + 6) x y
     | ArcToCmd =>
       d <- addAt d (i + 5) x ;; d <- addAt d (i + 6) y ;;
       translateLoop cs' d (i + 7) x y
     end)%go
  end.

Definition Translate (p : Path) (x y : float64) : outcome Path :=
  let p := Copy p in
  let p :=
    match cmds p with
    | c :: _ =>
      if negb (PathCmd_eqb c MoveToCmd)
      then mkPath ([MoveToCmd] ++ cmds p) ([0%float; 0%float] ++ d p) (x0 p) (y0 p)
      else p
    | [] => p
    end in
  (d' <- translateLoop (cmds p) (d p) 0 x y ;;
   Ret (mkPath (cmds p) d' (x0 p) (y0 p)))%go.

(** [prevEnd(p.d[:i])] *)
Definition prevEndTo (d : list float64) (i : Z) : outcome (float64 * float64) :=
  (s <- sliceToZ d i ;; Ret (prevEnd s))%go.

Record rev_state : Type := mkRev {
  rv_i : Z;
  rv_xEnd : float64; rv_yEnd : float64;
  rv_xStart : float64; rv_yStart : float64;
  rv_closed : bool;
  rv_ip : Path
}.

(** The body of the [for icmd := len(p.cmds) - 1; icmd >= 0; icmd--] loop of
    [Reverse], with the assignment [xStart, yStart = xEnd, yEnd] that ends it. *)
Definition reverseStep (p : Path) (icmd : nat) (st : rev_state) : outcome rev_state :=
  let '(mkRev i xEnd yEnd xStart yStart closed ip) := st in
  (cmd <- idx (cmds p) icmd ;;
   '(i, xEnd, yEnd, closed, ip) <-
     match cmd with
     | CloseCmd =>
       let i := (i - 2)%Z in
       '(xEnd, yEnd) <- prevEndTo (d p) i ;;
       let ip := if negb (Equal xStart xEnd) || negb (Equal yStart yEnd)
                 then LineTo ip xEnd yEnd else ip in
       Ret (i, xEnd, yEnd, true, ip)
     | MoveToCmd =>
       let i := (i - 2)%Z in
       let '(ip, closed) := if closed then (Close ip, false) else (ip, closed) in
       '(xEnd, yEnd) <- prevEndTo (d p) i ;;
       let ip := if negb (Equal xEnd 0%float) || negb (Equal yEnd 0%float)
                 then MoveTo ip xEnd yEnd else ip in
       Ret (i, xEnd, yEnd, closed, ip)
     | LineToCmd =>
       let i := (i - 2)%Z in
       if closed && (Nat.eqb icmd 0
                     || match nth_error (cmds p) (icmd - 1) with
                        | Some c => PathCmd_eqb c MoveToCmd
                        | None => false
                        end)
       then Ret (i, xEnd, yEnd, false, Close ip)
       else
         '(xEnd, yEnd) <- prevEndTo (d p) i ;;
         Ret (i, xEnd, yEnd, closed, LineTo ip xEnd yEnd)
     | QuadToCmd =>
       let i := (i - 4)%Z in
       x1 <- idxZ (d p) (i + 0) ;; y1 <- idxZ (d p) (i + 1) ;;
       '(xEnd, yEnd) <- prevEndTo (d p) i ;;
       Ret (i, xEnd, yEnd, closed, QuadTo ip x1 y1 xEnd yEnd)
     | CubeToCmd =>
       let i := (i - 6)%Z in
       x1 <- idxZ (d p) (i + 2) ;; y1 <- idxZ (d p) (i + 3) ;;
       x2 <- idxZ (d p) (i + 0) ;; y2 <- idxZ (d p) (i + 1) ;;
       '(xEnd, yEnd) <- prevEndTo (d p) i ;;
       Ret (i, xEnd, yEnd, closed, CubeTo ip x1 y1 x2 y2 xEnd yEnd)
     | ArcToCmd =>
       let i := (i - 7)%Z in
       rx <- idxZ (d p) (i + 0) ;; ry <- idxZ (d p) (i + 1) ;;
       rot <- idxZ (d p) (i + 2) ;; largeArc <- idxZ (d p) (i + 3) ;;
       sweep <- idxZ (d p) (i + 4) ;;
       let sweep := if (sweep =? 0)%float then 1%float else 0%float in
       '(xEnd, yEnd) <- prevEndTo (d p) i ;;
       Ret (i, xEnd, yEnd, closed,
            ArcTo ip rx ry rot (largeArc =? 1)%float (sweep =? 1)%float xEnd yEnd)
     end ;;
   Ret (mkRev i xEnd yEnd xEnd yEnd closed ip))%go.

(** The loop itself: [n] is [icmd + 1]; after the loop a pending [closed]
    is discharged. *)
Fixpoint reverseLoop (p : Path) (n : nat) (st : rev_state) : outcome Path :=
  match n with
  | O => Ret (if rv_closed st then Close (rv_ip st) else rv_ip st)
  | S icmd => (st' <- reverseStep p icmd st ;; reverseLoop p icmd st')%go
  end.

Definition Reverse (p : Path) : outcome Path :=
  let ip := emptyPath in
  if Nat.eqb (length (cmds p)) 0 then Ret ip
  else
    let '(xEnd, yEnd) := prevEnd (d p) in
    let ip := if negb (Equal xEnd 0%float) || negb (Equal yEnd 0%float)
              then MoveTo ip xEnd yEnd else ip in
    reverseLoop p (length (cmds p))
      (mkRev (Z.of_nat (length (d p))) xEnd yEnd xEnd yEnd false ip).

(** ** Curve flattening *)

Record Point : Type := mkPoint { X : float64; Y : float64 }.

(** Modelled from the spec: [Point.Interpolate] (the repository's point
    helper, not in path.go) follows the spec's control-point rule
    [start + t * (ctrl - start)], computed in float64. *)
Definition Interpolate (p q : Point) (t : float64) : Point :=
  mkPoint (X p + t * (X q - X p))%float (Y p + t * (Y q - Y p))%float.

(** [p.replaceCmd(&icmd, &i, q)]: the new path and the new values of
    [*icmd] and [*i]. *)
Definition replaceCmd (p : Path) (icmd : Z) (i : nat) (q : Path)
    : outcome (Path * Z * nat) :=
  (c <- idxZ (cmds p) icmd ;;
   let n := Len c in
   tc <- slice (cmds p) (Z.to_nat icmd + 1) (length (cmds p)) ;;
   hc <- slice (cmds p) 0 (Z.to_nat icmd) ;;
   td <- slice (d p) (i + n) (length (d p)) ;;
   hd <- slice (d p) 0 i ;;
   Ret (mkPath (hc ++ (cmds q ++ tc)) (hd ++ (d q ++ td)) (x0 p) (y0 p),
        (icmd + (Z.of_nat (length (cmds q)) - 1))%Z,
        i + length (d q)))%go.

Record flat_state : Type := mkFlat {
  fs_p : Path;
  fs_icmd : Z;
  fs_i : nat;
  fs_start : Point
}.

Section Flatten.

(** The cubic flattener is the repository's curve primitive, not in
    path.go: it is a parameter, [flattenCubicBezier start c1 c2 end t
    tolerance]. *)
Variable flattenCubicBezier : Point -> Point -> Point -> Point -> float64 -> float64 -> Path.

Variable tolerance : float64.

(** [start = Point{p.d[i-2], p.d[i-1]}], then [icmd++]. *)
Definition flattenNext (p : Path) (icmd : Z) (i : nat) : outcome flat_state :=
  (sx <- idxZ (d p) (Z.of_nat i - 2) ;;
   sy <- idxZ (d p) (Z.of_nat i - 1) ;;
   Ret (mkFlat p (icmd + 1) i (mkPoint sx sy)))%go.

(** One iteration of the loop of [FlattenBeziers], with its [icmd++]. *)
Definition flattenStep (st : flat_state) : outcome flat_state :=
  let '(mkFlat p icmd i start) := st in
  (cmd <- idxZ (cmds p) icmd ;;
   match cmd with
   | QuadToCmd =>
     cx <- idx (d p) (i + 0) ;; cy <- idx (d p) (i + 1) ;;
     ex <- idx (d p) (i + 2) ;; ey <- idx (d p) (i + 3) ;;
     let c := mkPoint cx cy in
     let e := mkPoint ex ey in
     let c1 := Interpolate start c (2 / 3)%float in
     let c2 := Interpolate e c (2 / 3)%float in
     let q := flattenCubicBezier start c1 c2 e 0%float tolerance in
     '(p, icmd, i) <- replaceCmd p icmd i q ;;
     if Nat.eqb (length (d q)) 0 then Ret (mkFlat p (icmd + 1) i start)
     else flattenNext p icmd i
   | CubeToCmd =>
     c1x <- idx (d p) (i + 0) ;; c1y <- idx (d p) (i + 1) ;;
     c2x <- idx (d p) (i + 2) ;; c2y <- idx (d p) (i + 3) ;;
     ex <- idx (d p) (i + 4) ;; ey <- idx (d p) (i + 5) ;;
     let q := flattenCubicBezier start (mkPoint c1x c1y) (mkPoint c2x c2y)
                (mkPoint ex ey) 0%float tolerance in
     '(p, icmd, i) <- replaceCmd p icmd i q ;;
     if Nat.eqb (length (d q)) 0 then Ret (mkFlat p (icmd + 1) i start)
     else flattenNext p icmd i
   | _ => flattenNext p icmd (i + Len cmd)
   end)%go.

(** [for icmd := 0; icmd < len(p.cmds); icmd++]. *)
Fixpoint flattenLoop (fuel : nat) (st : flat_state) : outcome Path :=
  if (fs_icmd st <? Z.of_nat (length (cmds (fs_p st))))%Z then
    match fuel with
    | O => Timeout
    | S fuel' => (st' <- flattenStep st ;; flattenLoop fuel' st')%go
    end
  else Ret (fs_p st).

Definition flattenInit (p : Path) : flat_state :=
  mkFlat (Copy p) 0%Z 0 (mkPoint 0%float 0%float).

(** Every iteration consumes one command of the copy, so its length is
    fuel enough ([FlattenBeziers_no_timeout]). *)
Definition FlattenBeziers (p : Path) : outcome Path :=
  flattenLoop (length (cmds p)) (flattenInit p).

End Flatten.

(** ** Parsing SVG path data *)

Definition byte := ascii.
Bind Scope char_scope with byte.

Definition byte_val (c : byte) : nat := nat_of_ascii c.

Definition isSpace (c : byte) : bool :=
  Ascii.eqb c " " || Ascii.eqb c "," || Ascii.eqb c "010" || Ascii.eqb c "013"
  || Ascii.eqb c "009".

Fixpoint skipCommaWhitespace (path : list byte) : nat :=
  match path with
  | c :: path' => if isSpace c then S (skipCommaWhitespace path') else 0
  | [] => 0
  end.

Definition isDigit (c : byte) : bool :=
  (48 <=? byte_val c) && (byte_val c <=? 57).

(** The decimal digits at the head of [b]: the number they extend [acc] to,
    and how many there are. *)
Fixpoint scanDigits (b : list byte) (acc : Z) : Z * nat :=
  match b with
  | c :: b' =>
    if isDigit c then
      let '(v, n) := scanDigits b' (acc * 10 + Z.of_nat (byte_val c - 48))%Z in
      (v, S n)
    else (acc, 0)
  | [] => (acc, 0)
  end.

Definition scanSign (b : list byte) : bool * nat :=
  match b with
  | c :: _ =>
    if Ascii.eqb c "-" then (true, 1)
    else if Ascii.eqb c "+" then (false, 1) else (false, 0)
  | [] => (false, 0)
  end.

(** Modelled from the spec: [strconv.ParseFloat] of the parse library (not
    in path.go) is the "tolerant float scanner": it reads the longest prefix
    [sign digits . digits e sign digits] and returns its float64 value and
    the number of bytes read, and [(0, 0)] when the text does not start with
    a number. *)
Definition ParseFloat (b : list byte) : float64 * nat :=
  let '(neg, ns) := scanSign b in
  let b1 := skipn ns b in
  let '(ip, ni) := scanDigits b1 0%Z in
  let b2 := skipn ni b1 in
  let '(mant, nf, nd) :=
    match b2 with
    | c :: b3 =>
      if Ascii.eqb c "." then let '(v, k) := scanDigits b3 ip in (v, k, 1)
      else (ip, 0, 0)
    | [] => (ip, 0, 0)
    end in
  if Nat.eqb (ni + nf) 0 then (0%float, 0)
  else
    let b4 := skipn (nd + nf) b2 in
    let '(ex, ne) :=
      match b4 with
      | c :: b5 =>
        if Ascii.eqb c "e" || Ascii.eqb c "E" then
          let '(eneg, es) := scanSign b5 in
          let '(ev, en) := scanDigits (skipn es b5) 0%Z in
          if Nat.eqb en 0 then (0%Z, 0)
          else ((if eneg then - ev else ev)%Z, 1 + es + en)
        else (0%Z, 0)
      | [] => (0%Z, 0)
      end in
    let f := Z2F mant in
    let f := if neg then (- f)%float else f in
    let exp := (ex - Z.of_nat nf)%Z in
    let f :=
      if (exp =? 0)%Z then f
      else if (0 <? exp)%Z then (f * Z2F (10 ^ exp))%float
      else (f / Z2F (10 ^ (- exp)))%float in
    (f, ns + ni + nd + nf + ne).

Definition parseNum (path : list byte) : float64 * nat :=
  let i := skipCommaWhitespace path in
  let '(f, n) := ParseFloat (skipn i path) in
  (f, i + n).

(** [a, n := parseNum(path[i:]); i += n]: the number and the new [i]. *)
Definition num (path : list byte) (i : nat) : float64 * nat :=
  let '(f, n) := parseNum (skipn i path) in (f, i + n).

Record parse_state : Type := mkParse {
  ps_i : nat;
  ps_prevCmd : byte;
  ps_cpx : float64;
  ps_cpy : float64;
  ps_p : Path
}.

Definition is2 (cmd a b : byte) : bool := Ascii.eqb cmd a || Ascii.eqb cmd b.

Definition is4 (cmd a b c e : byte) : bool := is2 cmd a b || is2 cmd c e.

(** One iteration of the [for i < len(path)] loop of [ParseSVGPath]. *)
Definition parseStep (path : list byte) (st : parse_state) : outcome parse_state :=
  let '(mkParse i prevCmd cpx cpy p) := st in
  let i := i + skipCommaWhitespace (skipn i path) in
  (c <- idx path i ;;
   let '(cmd, i) := if 65 <=? byte_val c then (c, i + 1) else (prevCmd, i) in
   let '(x, y) := Pos p in
   let '(i, cpx, cpy, p) :=
     if is2 cmd "M" "m" then
       let '(a, i) := num path i in
       let '(b, i) := num path i in
       let '(a, b) := if Ascii.eqb cmd "m" then (a + x, b + y)%float else (a, b) in
       (i, cpx, cpy, MoveTo p a b)
     else if is2 cmd "Z" "z" then
       (i, cpx, cpy, Close p)
     else if is2 cmd "L" "l" then
       let '(a, i) := num path i in
       let '(b, i) := num path i in
       let '(a, b) := if Ascii.eqb cmd "l" then (a + x, b + y)%float else (a, b) in
       (i, cpx, cpy, LineTo p a b)
     else if is2 cmd "H" "h" then
       let '(a, i) := num path i in
       let a := if Ascii.eqb cmd "h" then (a + x)%float else a in
       (i, cpx, cpy, LineTo p a y)
     else if is2 cmd "V" "v" then
       let '(b, i) := num path i in
       let b := if Ascii.eqb cmd "v" then (b + y)%float else b in
       (i, cpx, cpy, LineTo p x b)
     else if is2 cmd "C" "c" then
       let '(a, i) := num path i in
       let '(b, i) := num path i in
       let '(c, i) := num path i in
       let '(d, i) := num path i in
       let '(e, i) := num path i in
       let '(f, i) := num path i in
       let '(a, b, c, d, e, f) :=
         if Ascii.eqb cmd "c"
         then (a + x, b + y, c + x, d + y, e + x, f + y)%float
         else (a, b, c, d, e, f) in
       (i, c, d, CubeTo p a b c d e f)
     else if is2 cmd "S" "s" then
       let '(c, i) := num path i in
       let '(d, i) := num path i in
       let '(e, i) := num path i in
       let '(f, i) := num path i in
       let '(c, d, e, f) :=
         if Ascii.eqb cmd "s" then (c + x, d + y, e + x, f + y)%float
         else (c, d, e, f) in
       let '(a, b) :=
         if is4 prevCmd "C" "c" "S" "s" then (2 * x - cpx, 2 * y - cpy)%float
         else (x, y) in
       (i, c, d, CubeTo p a b c d e f)
     else if is2 cmd "Q" "q" then
       let '(a, i) := num path i in
       let '(b, i) := num path i in
       let '(c, i) := num path i in
       let '(d, i) := num path i in
       let '(a, b, c, d) :=
         if Ascii.eqb cmd "q" then (a + x, b + y, c + x, d + y)%float
         else (a, b, c, d) in
       (i, a, b, QuadTo p a b c d)
     else if is2 cmd "T" "t" then
       let '(c, i) := num path i in
       let '(d, i) := num path i in
       let '(c, d) := if Ascii.eqb cmd "t" then (c + x, d + y)%float else (c, d) in
       let '(a, b) :=
         if is4 prevCmd "Q" "q" "T" "t" then (2 * x - cpx, 2 * y - cpy)%float
         else (x, y) in
       (i, a, b, QuadTo p a b c d)
     else if is2 cmd "A" "a" then
       let '(a, i) := num path i in
       let '(b, i) := num path i in
       let '(c, i) := num path i in
       let '(d, i) := num path i in
       let '(e, i) := num path i in
       let '(f, i) := num path i in
       let '(g, i) := num path i in
       let '(f, g) := if Ascii.eqb cmd "a" then (f + x, g + y)%float else (f, g) in
       let large := (abs (d - 1) <? epsilon)%float in
       let sweep := (abs (e - 1) <? epsilon)%float in
       (i, cpx, cpy, ArcTo p a b c large sweep f g)
     else (i, cpx, cpy, p) in
   Ret (mkParse i cmd cpx cpy p))%go.

(** The loop: an iteration is run only while [i < len(path)]; [fuel]
    bounds the number of iterations the model follows. *)
Fixpoint parseLoop (fuel : nat) (path : list byte) (st : parse_state) : outcome Path :=
  if ps_i st <? length path then
    match fuel with
    | O => Timeout
    | S fuel' => (st' <- parseStep path st ;; parseLoop fuel' path st')%go
    end
  else Ret (ps_p st).

Definition parseInit : parse_state :=
  mkParse 0 Ascii.zero 0%float 0%float emptyPath.

Definition ParseSVGPath (fuel : nat) (sPath : string) : outcome Path :=
  parseLoop fuel (list_ascii_of_string sPath) parseInit.

(** ** Specification vocabulary *)

(** [sum(arity(cmd) for cmd in commands)] *)
Fixpoint arity (cs : list PathCmd) : nat :=
  match cs with
  | [] => 0
  | c :: cs' => Len c + arity cs'
  end.

(** The buffer invariant of a [Path]. *)
Definition arityInv (p : Path) : Prop := arity (cmds p) = length (d p).

(** The coordinates of the last MoveTo of a command sequence read against
    its coordinate buffer; [acc] when there is none. *)
Fixpoint lastMoveTo (cs : list PathCmd) (ds : list float64)
    (acc : float64 * float64) : float64 * float64 :=
  match cs with
  | [] => acc
  | c :: cs' =>
    lastMoveTo cs' (skipn (Len c) ds)
      (match c with
       | MoveToCmd => (nth 0 ds 0%float, nth 1 ds 0%float)
       | _ => acc
       end)
  end.

Definition lastMoveToOf (p : Path) : float64 * float64 :=
  lastMoveTo (cmds p) (d p) (0%float, 0%float).

(** What a path draws: one segment per drawing command, with the pen
    position it starts from, the command and the command's numbers (control
    points, arc parameters, end point).  MoveTo draws nothing. *)
Record segment : Type := mkSeg {
  seg_from : float64 * float64;
  seg_cmd : PathCmd;
  seg_args : list float64
}.

Fixpoint drawn (cs : list PathCmd) (ds : list float64)
    (pos : float64 * float64) : list segment :=
  match cs with
  | [] => []
  | c :: cs' =>
    let args := firstn (Len c) ds in
    let pos' := prevEnd args in
    match c with
    | MoveToCmd => drawn cs' (skipn (Len c) ds) pos'
    | _ => mkSeg pos c args :: drawn cs' (skipn (Len c) ds) pos'
    end
  end.

Definition segments (p : Path) : list segment :=
  drawn (cmds p) (d p) (0%float, 0%float).

(** A segment that is a LineTo or Close edge of length zero. *)
Definition zeroEdge (s : segment) : bool :=
  match seg_cmd s with
  | LineToCmd | CloseCmd =>
    let '(x, y) := seg_from s in
    let '(x', y') := prevEnd (seg_args s) in
    Equal x x' && Equal y y'
  | _ => false
  end.

Definition noZeroEdges (p : Path) : bool :=
  forallb (fun s => negb (zeroEdge s)) (segments p).

Definition isMove (c : PathCmd) : bool := PathCmd_eqb c MoveToCmd.

Definition isClose (c : PathCmd) : bool := PathCmd_eqb c CloseCmd.

Definition isCurve (c : PathCmd) : bool :=
  PathCmd_eqb c QuadToCmd || PathCmd_eqb c CubeToCmd.

(** No QuadTo and no CubeTo. *)
Definition curveFree (cs : list PathCmd) : bool :=
  forallb (fun c => negb (isCurve c)) cs.

(** A fragment of [Split] is cut where it has to be: it is not empty, it
    has no MoveTo after its first command and no Close before its last. *)
Definition cutAtBoundaries (f : Path) : bool :=
  negb (Nat.eqb (length (cmds f)) 0)
  && forallb (fun c => negb (isMove c)) (tl (cmds f))
  && forallb (fun c => negb (isClose c)) (removelast (cmds f)).

(** The last point of a non-empty coordinate run. *)
Definition lastPoint (ds : list float64) : Point :=
  mkPoint (nth (length ds - 2) ds 0%float) (nth (length ds - 1) ds 0%float).

Section FlattenSpec.

Variable flattenCubicBezier : Point -> Point -> Point -> Point -> float64 -> float64 -> Path.

Variable tolerance : float64.

(** The spec's rule for a quadratic segment from [start] with control
    point [c] and end point [e]: elevate to the cubic with
    [c1 = start + 2/3 (c - start)], [c2 = e + 2/3 (c - e)] and flatten
    that. *)
Definition elevated (start c e : Point) : Path :=
  let c1 := mkPoint (X start + 2 / 3 * (X c - X start))%float
                    (Y start + 2 / 3 * (Y c - Y start))%float in
  let c2 := mkPoint (X e + 2 / 3 * (X c - X e))%float
                    (Y e + 2 / 3 * (Y c - Y e))%float in
  flattenCubicBezier start c1 c2 e 0%float tolerance.

(** Flattening as the spec words it, command by command: a curve is
    replaced by its polyline, every other command is kept; [start] is the
    pen position, which a degenerate curve (empty polyline) leaves where
    it was. *)
Fixpoint flattenSpec (cs : list PathCmd) (ds : list float64) (start : Point)
    : list PathCmd * list float64 :=
  match cs with
  | [] => ([], [])
  | c :: cs' =>
    let args := firstn (Len c) ds in
    let ds' := skipn (Len c) ds in
    match c with
    | QuadToCmd =>
      let q := elevated start (mkPoint (nth 0 ds 0%float) (nth 1 ds 0%float))
                 (mkPoint (nth 2 ds 0%float) (nth 3 ds 0%float)) in
      let start' := if Nat.eqb (length (d q)) 0 then start else lastPoint (d q) in
      let '(rc, rd) := flattenSpec cs' ds' start' in
      (cmds q ++ rc, d q ++ rd)
    | CubeToCmd =>
      let q := flattenCubicBezier start
                 (mkPoint (nth 0 ds 0%float) (nth 1 ds 0%float))
                 (mkPoint (nth 2 ds 0%float) (nth 3 ds 0%float))
                 (mkPoint (nth 4 ds 0%float) (nth 5 ds 0%float))
                 0%float tolerance in
      let start' := if Nat.eqb (length (d q)) 0 then start else lastPoint (d q) in
      let '(rc, rd) := flattenSpec cs' ds' start' in
      (cmds q ++ rc, d q ++ rd)
    | _ =>
      let '(rc, rd) := flattenSpec cs' ds' (lastPoint args) in
      (c :: rc, args ++ rd)
    end
  end.

Definition flattened (p : Path) : Path :=
  let '(cs, ds) := flattenSpec (cmds p) (d p) (mkPoint 0%float 0%float) in
  mkPath cs ds (x0 p) (y0 p).

(** A loop state of [FlattenBeziers] reached from [st] by whole
    iterations: the intermediate states of the splicing. *)
Inductive flattenReach (st : flat_state) : flat_state -> Prop :=
| reach_here : flattenReach st st
| reach_step st1 st2 :
    flattenReach st st1 ->
    (fs_icmd st1 <? Z.of_nat (length (cmds (fs_p st1))))%Z = true ->
    flattenStep flattenCubicBezier tolerance st1 = Ret st2 ->
    flattenReach st st2.

End FlattenSpec.

(** The coarsest flattener, which replaces a curve by its chord and a
    zero-length curve by nothing: an instance of the flattener's contract
    for tolerances that allow it. *)
Definition chordFlattener (start c1 c2 e : Point) (t tolerance : float64) : Path :=
  if Equal (X start) (X e) && Equal (Y start) (Y e) then emptyPath
  else LineTo emptyPath (X e) (Y e).

(** What the loop of [Split] knows about the fragment it is collecting. *)
Definition openFragment (closed : bool) (cur : list PathCmd) : Prop :=
  forallb (fun c => negb (isMove c)) (tl cur) = true /\
  if closed
  then exists c', cur = c' ++ [CloseCmd] /\ forallb (fun c => negb (isClose c)) c' = true
  else forallb (fun c => negb (isClose c)) cur = true.

(** ** Slices that share an array *)

(** The value-level [Path] above describes one path at a time.  Two paths
    whose slices point into the same array are described here: a slice is
    the array it points into, the offset of its first element there, its
    length and its capacity, as in Go. *)
Record sliceH : Type := mkSlice {
  s_arr : nat;   (* address of the array *)
  s_off : nat;
  s_len : nat;
  s_cap : nat
}.

(** The nil slice of the zero value [Path{}]. *)
Definition nilSlice : sliceH := mkSlice 0 0 0 0.

(** [s[i:j]]: the bound is the capacity, and the result keeps the array and
    all of the capacity that follows [i]. *)
Definition reslice (s : sliceH) (i j : nat) : outcome sliceH :=
  if (i <=? j) && (j <=? s_cap s)
  then Ret (mkSlice (s_arr s) (s_off s + i) (j - i) (s_cap s - i))
  else Panic.

Section Arrays.

Variable T : Type.
Variable zero : T.

(** The arrays allocated so far, by address. *)
Definition memory : Type := list (list T).

Definition array (m : memory) (a : nat) : list T := nth a m [].

(** The elements of a slice. *)
Definition view (m : memory) (s : sliceH) : list T :=
  firstn (s_len s) (skipn (s_off s) (array m (s_arr s))).

(** [a] with [xs] written from position [k] on. *)
Definition overwrite (a : list T) (k : nat) (xs : list T) : list T :=
  firstn k a ++ xs ++ skipn (k + length xs) a.

Fixpoint setArray (m : memory) (a : nat) (v : list T) : memory :=
  match m, a with
  | [], _ => []
  | _ :: m', O => v :: m'
  | x :: m', S a' => x :: setArray m' a' v
  end.

(** How much more than it needs [append] allocates when it has to grow:
    the language leaves it to the run time. *)
Variable slack : nat -> nat -> nat.

(** [append(s, xs...)]: within the capacity of [s] the elements are written
    into its array, after its last element; otherwise they go, after a
    copy of the elements of [s], into a new array. *)
Definition appendH (m : memory) (s : sliceH) (xs : list T) : memory * sliceH :=
  let n := s_len s + length xs in
  if n <=? s_cap s then
    (setArray m (s_arr s) (overwrite (array m (s_arr s)) (s_off s + s_len s) xs),
     mkSlice (s_arr s) (s_off s) n (s_cap s))
  else
    let c := n + slack (s_cap s) n in
    (m ++ [view m s ++ xs ++ repeat zero (c - n)], mkSlice (length m) 0 n c).

End Arrays.

Arguments array {T} m a.
Arguments view {T} m s.
Arguments overwrite {T} a k xs.
Arguments setArray {T} m a v.
Arguments appendH {T} zero slack m s xs.

(** The [Path] struct, with slices into shared memory. *)
Record PathH : Type := mkPathH {
  hcmds : sliceH;
  hd : sliceH;
  hx0 : float64;
  hy0 : float64
}.

(** The arrays of commands, the arrays of numbers and the [Path] structs
    allocated so far; a [*Path] is an index into [objs]. *)
Record heap : Type := mkHeap {
  cmdMem : memory PathCmd;
  numMem : memory float64;
  objs : list PathH
}.

Definition emptyHeap : heap := mkHeap [] [] [].

(** The value of the path at [p]: what its two slices show. *)
Definition pathValue (h : heap) (p : nat) : option Path :=
  match nth_error (objs h) p with
  | Some P =>
    Some (mkPath (view (cmdMem h) (hcmds P)) (view (numMem h) (hd P)) (hx0 P) (hy0 P))
  | None => None
  end.

(** A call that reads and updates the heap. *)
Definition heapM (A : Type) : Type := heap -> outcome (A * heap).

Definition retH {A : Type} (a : A) : heapM A := fun h => Ret (a, h).

Definition bindH {A B : Type} (m : heapM A) (k : A -> heapM B) : heapM B :=
  fun h => match m h with
           | Ret (a, h') => k a h'
           | Panic => Panic
           | Timeout => Timeout
           end.

Definition liftH {A : Type} (m : outcome A) : heapM A :=
  fun h => match m with
           | Ret a => Ret (a, h)
           | Panic => Panic
           | Timeout => Timeout
           end.

Declare Scope heap_scope.
Delimit Scope heap_scope with heap.
Notation "x <- m ;; k" := (bindH m (fun x => k))
  (at level 61, m at next level, right associativity) : heap_scope.
Notation "m ;; k" := (bindH m (fun _ => k))
  (at level 61, right associativity) : heap_scope.

(** [*p], a nil pointer dereference panics. *)
Definition getPath (p : nat) : heapM PathH :=
  fun h => match nth_error (objs h) p with
           | Some P => Ret (P, h)
           | None => Panic
           end.

Fixpoint setNth {A : Type} (l : list A) (n : nat) (a : A) : list A :=
  match l, n with
  | [], _ => []
  | _ :: l', O => a :: l'
  | x :: l', S n' => x :: setNth l' n' a
  end.

Definition setPath (p : nat) (P : PathH) : heapM unit :=
  fun h => Ret (tt, mkHeap (cmdMem h) (numMem h) (setNth (objs h) p P)).

(** [&Path{...}] *)
Definition newPath (P : PathH) : heapM nat :=
  fun h => Ret (length (objs h), mkHeap (cmdMem h) (numMem h) (objs h ++ [P])).

Section HeapPaths.

Variable slackCmd slackNum : nat -> nat -> nat.

Definition appendCmds (s : sliceH) (xs : list PathCmd) : heapM sliceH :=
  fun h => let '(m, s') := appendH MoveToCmd slackCmd (cmdMem h) s xs in
           Ret (s', mkHeap m (numMem h) (objs h)).

Definition appendNums (s : sliceH) (xs : list float64) : heapM sliceH :=
  fun h => let '(m, s') := appendH 0%float slackNum (numMem h) s xs in
           Ret (s', mkHeap (cmdMem h) m (objs h)).

(** The builders, on the path that the receiver points to. *)
Definition MoveToH (p : nat) (x y : float64) : heapM unit :=
  (P <- getPath p ;;
   c <- appendCmds (hcmds P) [MoveToCmd] ;;
   f <- appendNums (hd P) [x; y] ;;
   setPath p (mkPathH c f x y))%heap.

Definition LineToH (p : nat) (x y : float64) : heapM unit :=
  (P <- getPath p ;;
   c <- appendCmds (hcmds P) [LineToCmd] ;;
   f <- appendNums (hd P) [x; y] ;;
   setPath p (mkPathH c f (hx0 P) (hy0 P)))%heap.

Definition QuadToH (p : nat) (x1 y1 x y : float64) : heapM unit :=
  (P <- getPath p ;;
   c <- appendCmds (hcmds P) [QuadToCmd] ;;
   f <- appendNums (hd P) [x1; y1; x; y] ;;
   setPath p (mkPathH c f (hx0 P) (hy0 P)))%heap.

Definition CubeToH (p : nat) (x1 y1 x2 y2 x y : float64) : heapM unit :=
  (P <- getPath p ;;
   c <- appendCmds (hcmds P) [CubeToCmd] ;;
   f <- appendNums (hd P) [x1; y1; x2; y2; x; y] ;;
   setPath p (mkPathH c f (hx0 P) (hy0 P)))%heap.

Definition ArcToH (p : nat) (rx ry rot : float64) (large sweep : bool)
    (x y : float64) : heapM unit :=
  (P <- getPath p ;;
   c <- appendCmds (hcmds P) [ArcToCmd] ;;
   let flarge := if large then 1%float else 0%float in
   let fsweep := if sweep then 1%float else 0%float in
   f <- appendNums (hd P) [rx; ry; rot; flarge; fsweep; x; y] ;;
   setPath p (mkPathH c f (hx0 P) (hy0 P)))%heap.

Definition CloseH (p : nat) : heapM unit :=
  (P <- getPath p ;;
   c <- appendCmds (hcmds P) [CloseCmd] ;;
   f <- appendNums (hd P) [hx0 P; hy0 P] ;;
   setPath p (mkPathH c f (hx0 P) (hy0 P)))%heap.

(** [Copy]: both appends start from a nil slice, so the copy has arrays
    of its own. *)
Definition CopyH (p : nat) : heapM nat :=
  (P <- getPath p ;;
   cs <- (fun h => Ret (view (cmdMem h) (hcmds P), h)) ;;
   c <- appendCmds nilSlice cs ;;
   ds <- (fun h => Ret (view (numMem h) (hd P), h)) ;;
   f <- appendNums nilSlice ds ;;
   newPath (mkPathH c f (hx0 P) (hy0 P)))%heap.

(** The loop of [Split] and the code after it, as [splitLoop], with the
    fragments as the program makes them: [p.cmds[icmd:jcmd]] and [p.d[i:j]]
    are slices into the arrays of [p].  [ds] is what [p.d] shows; [rest] is
    what [p.cmds] shows from [jcmd] on. *)
Fixpoint splitLoopH (P : PathH) (ds : list float64) (rest : list PathCmd)
    (ps : list PathH) (closed : bool) (i j icmd jcmd : nat) (x0 y0 : float64)
    : outcome (list PathH) :=
  match rest with
  | [] =>
    (if i <? j then
       c <- reslice (hcmds P) icmd jcmd ;;
       f <- reslice (hd P) i j ;;
       Ret (ps ++ [mkPathH c f x0 y0])
     else Ret ps)%go
  | cmd :: rest' =>
    ('(ps, icmd, i, closed) <-
       (if (i <? j) && PathCmd_eqb cmd MoveToCmd || closed then
          c <- reslice (hcmds P) icmd jcmd ;;
          f <- reslice (hd P) i j ;;
          Ret (ps ++ [mkPathH c f x0 y0], jcmd, j, false)
        else Ret (ps, icmd, i, closed)) ;;
     match cmd with
     | MoveToCmd =>
       x0 <- idx ds (j + 0) ;;
       y0 <- idx ds (j + 1) ;;
       splitLoopH P ds rest' ps closed i (j + 2) icmd (jcmd + 1) x0 y0
     | LineToCmd => splitLoopH P ds rest' ps closed i (j + 2) icmd (jcmd + 1) x0 y0
     | QuadToCmd => splitLoopH P ds rest' ps closed i (j + 4) icmd (jcmd + 1) x0 y0
     | CubeToCmd => splitLoopH P ds rest' ps closed i (j + 6) icmd (jcmd + 1) x0 y0
     | ArcToCmd => splitLoopH P ds rest' ps closed i (j + 7) icmd (jcmd + 1) x0 y0
     | CloseCmd => splitLoopH P ds rest' ps true i (j + 2) icmd (jcmd + 1) x0 y0
     end)%go
  end.

(** [Split]: it only reads the arrays of [p], so its loop runs on what the
    two slices show at the call; each fragment is a new [Path] struct. *)
Definition SplitH (p : nat) : heapM (list nat) :=
  (P <- getPath p ;;
   frags <- (fun h =>
               liftH (splitLoopH P (view (numMem h) (hd P)) (view (cmdMem h) (hcmds P))
                        [] false 0 0 0 0 0%float 0%float) h) ;;
   (fun h => Ret (seq (length (objs h)) (length frags),
                  mkHeap (cmdMem h) (numMem h) (objs h ++ frags))))%heap.

(** [p := &Path{}; p.MoveTo(0, 0); p.LineTo(1, 1); p.MoveTo(2, 2);
    p.LineTo(3, 3); ps := p.Split(); ps[0].QuadTo(9, 9, 9, 9)] *)
Definition splitThenDraw : heapM (nat * list nat) :=
  (p <- newPath (mkPathH nilSlice nilSlice 0%float 0%float) ;;
   MoveToH p 0%float 0%float ;;
   LineToH p 1%float 1%float ;;
   MoveToH p 2%float 2%float ;;
   LineToH p 3%float 3%float ;;
   ps <- SplitH p ;;
   f <- liftH (idx ps 0) ;;
   QuadToH f 9%float 9%float 9%float 9%float ;;
   retH (p, ps))%heap.

End HeapPaths.

(** A slice that lies within its array. *)
Definition wfSlice {T : Type} (m : memory T) (s : sliceH) : Prop :=
  s_len s <= s_cap s /\ s_off s + s_cap s <= length (array m (s_arr s)).

(** The path at [p] has the value [v], and its slices lie within their
    arrays. *)
Definition holds (h : heap) (p : nat) (v : Path) : Prop :=
  exists P, nth_error (objs h) p = Some P /\
            wfSlice (cmdMem h) (hcmds P) /\ wfSlice (numMem h) (hd P) /\
            mkPath (view (cmdMem h) (hcmds P)) (view (numMem h) (hd P))
                   (hx0 P) (hy0 P) = v.

(** ** Vocabulary of the further properties *)

(** The start cache is right: the path satisfies the buffer invariant and
    [x0, y0] are the coordinates of its last MoveTo, (0,0) without one. *)
Definition cacheInv (p : Path) : Prop :=
  arityInv p /\ Start p = lastMoveToOf p.

(** [x] added to the first, [y] to the second number of every pair. *)
Fixpoint shiftPairs (ds : list float64) (x y : float64) : list float64 :=
  match ds with
  | a :: b :: ds' => (a + x)%float :: (b + y)%float :: shiftPairs ds' x y
  | _ => ds
  end.

(** The numbers of one command moved by [(x, y)]: every point of it, and
    for an arc its end point only. *)
Definition shiftArgs (c : PathCmd) (args : list float64) (x y : float64)
    : list float64 :=
  match c with
  | ArcToCmd => firstn 5 args ++ shiftPairs (skipn 5 args) x y
  | _ => shiftPairs args x y
  end.

(** A coordinate buffer moved by [(x, y)], command by command. *)
Fixpoint shifted (cs : list PathCmd) (ds : list float64) (x y : float64)
    : list float64 :=
  match cs with
  | [] => ds
  | c :: cs' =>
    shiftArgs c (firstn (Len c) ds) x y ++ shifted cs' (skipn (Len c) ds) x y
  end.

(** A path made to start with a MoveTo: a non-empty path that does not is
    given a leading [MoveTo(0,0)]. *)
Definition anchored (p : Path) : Path :=
  match cmds p with
  | c :: _ =>
    if isMove c then p
    else mkPath (MoveToCmd :: cmds p) (0%float :: 0%float :: d p) (x0 p) (y0 p)
  | [] => p
  end.

(** A drawing command with its numbers, as a builder call gives them. *)
Inductive stroke : Type :=
| SLine (x y : float64)
| SQuad (x1 y1 x y : float64)
| SCube (x1 y1 x2 y2 x y : float64)
| SArc (rx ry rot : float64) (large sweep : bool) (x y : float64).

(** The builder call of a segment. *)
Definition draw (p : Path) (s : stroke) : Path :=
  match s with
  | SLine x y => LineTo p x y
  | SQuad x1 y1 x y => QuadTo p x1 y1 x y
  | SCube x1 y1 x2 y2 x y => CubeTo p x1 y1 x2 y2 x y
  | SArc rx ry rot large sweep x y => ArcTo p rx ry rot large sweep x y
  end.

(** The open subpath that starts at [a] and draws [segs]:
    [MoveTo(a)] and then one builder call per segment. *)
Definition subpath (a : float64 * float64) (segs : list stroke) : Path :=
  fold_left draw segs (MoveTo emptyPath (fst a) (snd a)).

Definition stroke_end (s : stroke) : float64 * float64 :=
  match s with
  | SLine x y | SQuad _ _ x y | SCube _ _ _ _ x y | SArc _ _ _ _ _ x y => (x, y)
  end.

(** Where the pen is after drawing [segs] from [a]. *)
Definition endAfter (a : float64 * float64) (segs : list stroke) : float64 * float64 :=
  fold_left (fun _ s => stroke_end s) segs a.

(** A segment drawn the other way, back to the point [from] it started
    at: a quadratic keeps its control point, a cubic swaps its two, an arc
    keeps radii, rotation and large-arc flag and flips its sweep flag. *)
Definition backwards (from : float64 * float64) (s : stroke) : stroke :=
  match s with
  | SLine _ _ => SLine (fst from) (snd from)
  | SQuad x1 y1 _ _ => SQuad x1 y1 (fst from) (snd from)
  | SCube x1 y1 x2 y2 _ _ => SCube x2 y2 x1 y1 (fst from) (snd from)
  | SArc rx ry rot large sweep _ _ =>
    SArc rx ry rot large (negb sweep) (fst from) (snd from)
  end.

(** The segments drawn from [a], last first and each backwards. *)
Fixpoint reversed (a : float64 * float64) (segs : list stroke) : list stroke :=
  match segs with
  | [] => []
  | s :: segs' => reversed (stroke_end s) segs' ++ [backwards a s]
  end.

Definition stroke_cmd (s : stroke) : PathCmd :=
  match s with
  | SLine _ _ => LineToCmd
  | SQuad _ _ _ _ => QuadToCmd
  | SCube _ _ _ _ _ _ => CubeToCmd
  | SArc _ _ _ _ _ _ _ => ArcToCmd
  end.

Definition stroke_coords (s : stroke) : list float64 :=
  match s with
  | SLine x y => [x; y]
  | SQuad x1 y1 x y => [x1; y1; x; y]
  | SCube x1 y1 x2 y2 x y => [x1; y1; x2; y2; x; y]
  | SArc rx ry rot large sweep x y =>
    [rx; ry; rot; if large then 1%float else 0%float;
     if sweep then 1%float else 0%float; x; y]
  end.

(** [Reverse]'s test for a point it takes to be the origin. *)
Definition atOrigin (pt : float64 * float64) : bool :=
  Equal (fst pt) 0%float && Equal (snd pt) 0%float.

(** The offset in the coordinate buffer of the numbers that follow the
    segments [front] of a subpath. *)
Definition offsetAfter (front : list stroke) : nat :=
  2 + length (flat_map stroke_coords front).

(** The edge a [Close] draws, from the end [e] of the subpath back to its
    start [a], as [Reverse] retraces it: nothing when it takes the two
    points to coincide. *)
Definition closingEdge (a e : float64 * float64) : list stroke :=
  if Equal (fst a) (fst e) && Equal (snd a) (snd e) then []
  else [SLine (fst e) (snd e)].

(** The segments of a closed subpath drawn from [a], last first and each
    backwards; a first segment that is a line comes back as the closing edge
    of the reversed subpath and is left to its [Close]. *)
Definition closedBody (a : float64 * float64) (segs : list stroke) : list stroke :=
  match segs with
  | SLine x y :: segs' => reversed (x, y) segs'
  | _ => reversed a segs
  end.

(** The value of a [Path] struct in given memories. *)
Definition valueOf (cm : memory PathCmd) (nm : memory float64) (P : PathH) : Path :=
  mkPath (view cm (hcmds P)) (view nm (hd P)) (hx0 P) (hy0 P).

(** A drawing call on the heap. *)
Definition drawH (slackCmd slackNum : nat -> nat -> nat) (q : nat) (s : stroke)
    : heapM unit :=
  match s with
  | SLine x y => LineToH slackCmd slackNum q x y
  | SQuad x1 y1 x y => QuadToH slackCmd slackNum q x1 y1 x y
  | SCube x1 y1 x2 y2 x y => CubeToH slackCmd slackNum q x1 y1 x2 y2 x y
  | SArc rx ry rot large sweep x y =>
    ArcToH slackCmd slackNum q rx ry rot large sweep x y
  end.

(** One drawing call after the other. *)
Fixpoint drawAllH (slackCmd slackNum : nat -> nat -> nat) (q : nat)
    (ss : list stroke) : heapM unit :=
  match ss with
  | [] => retH tt
  | s :: ss' => (drawH slackCmd slackNum q s ;; drawAllH slackCmd slackNum q ss')%heap
  end.

(** The slices of [P] point into no array of [h] that they could write to. *)
Definition privateTo (h : heap) (P : PathH) : Prop :=
  (length (cmdMem h) <= s_arr (hcmds P) \/ s_cap (hcmds P) = 0) /\
  (length (numMem h) <= s_arr (hd P) \/ s_cap (hd P) = 0).

(** [h'] has the arrays and the structs of [h] as they are in [h]. *)
Definition stable (h h' : heap) : Prop :=
  (length (cmdMem h) <= length (cmdMem h') /\
   forall a, a < length (cmdMem h) -> array (cmdMem h') a = array (cmdMem h) a) /\
  (length (numMem h) <= length (numMem h') /\
   forall a, a < length (numMem h) -> array (numMem h') a = array (numMem h) a) /\
  (forall r, r < length (objs h) -> nth_error (objs h') r = nth_error (objs h) r).

(** The path at [q] has the value [v] in [h'], in arrays that [h] does not
    have. *)
Definition holdsApart (h h' : heap) (q : nat) (v : Path) : Prop :=
  length (objs h) <= q /\
  exists P, nth_error (objs h') q = Some P /\ privateTo h P /\
            wfSlice (cmdMem h') (hcmds P) /\ wfSlice (numMem h') (hd P) /\
            valueOf (cmdMem h') (numMem h') P = v.

(** * Theorems *)

(** ** Basic facts *)

Lemma float_neq (a b : float64) :
  (b =? b)%float = true -> (a =? b)%float = false -> a <> b.
Proof. intros Hb Hab E. subst a. congruence. Qed.

Lemma arity_app (a b : list PathCmd) : arity (a ++ b) = arity a + arity b.
Proof. induction a as [|c a IH]; simpl; [reflexivity | rewrite IH; lia]. Qed.

Lemma Len_ge_2 (c : PathCmd) : 2 <= Len c.
Proof. destruct c; simpl; lia. Qed.

(** ** Scenarios of the codec *)

(** C7. Starting from the empty path, [Rect(0,0,10,20)] serializes to
    exactly [M0 0H10V20H0z]: the axis-aligned edges become H and V tokens
    and Close is a bare [z]. *)
Theorem Rect_ToSVGPath :
  ToSVGPath (Rect emptyPath 0 0 10 20)%float = Ret "M0 0H10V20H0z"%string.
Proof. vm_compute. reflexivity. Qed.

(** An outcome other than [Timeout] is kept when more iterations are
    followed. *)
Lemma parseLoop_more_fuel (path : list byte) (k fuel : nat) (st : parse_state) :
  parseLoop fuel path st <> Timeout ->
  parseLoop (fuel + k) path st = parseLoop fuel path st.
Proof.
  revert st. induction fuel as [|fuel IH]; intros st H; simpl in *.
  - destruct (ps_i st <? length path) eqn:E; [congruence|].
    destruct k; simpl; rewrite E; reflexivity.
  - destruct (ps_i st <? length path); [|reflexivity].
    destruct (parseStep path st) as [st'| |]; simpl in *; try reflexivity.
    apply IH, H.
Qed.

Lemma ParseSVGPath_more_fuel (s : string) (fuel k : nat) (r : outcome Path) :
  ParseSVGPath fuel s = r -> r <> Timeout -> ParseSVGPath (fuel + k) s = r.
Proof.
  unfold ParseSVGPath. intros H Hr. subst r. apply parseLoop_more_fuel, Hr.
Qed.

Lemma ParseSVGPath_triangle (fuel : nat) :
  ParseSVGPath (4 + fuel) "M0 0L10 0L10 10z"
  = Ret (mkPath [MoveToCmd; LineToCmd; LineToCmd; CloseCmd]
           [0; 0; 10; 0; 10; 10; 0; 0]%float 0%float 0%float).
Proof.
  apply ParseSVGPath_more_fuel; [vm_compute; reflexivity | discriminate].
Qed.

(** C1 as stated does not hold: whatever the number of loop iterations
    followed, parsing [M0 0L10 0L10 10z], reversing and serializing never
    gives [M10 10L10 0L0 0z]. *)
Lemma Reverse_triangle_not_as_claimed :
  ~ exists fuel,
      (p <- ParseSVGPath fuel "M0 0L10 0L10 10z" ;; q <- Reverse p ;; ToSVGPath q)%go
      = Ret "M10 10L10 0L0 0z"%string.
Proof.
  intros [fuel H].
  do 4 (destruct fuel as [|fuel]; [vm_compute in H; discriminate|]).
  change (S (S (S (S fuel)))) with (4 + fuel) in H.
  rewrite ParseSVGPath_triangle in H.
  vm_compute in H. discriminate.
Qed.

(** C1, amended. Parsing [M0 0L10 0L10 10z] takes four iterations; the
    reversed path keeps the start point of the closed subpath (it has no
    MoveTo, the start being the origin) and serializes to exactly
    [M0 0L10 10V0z]. *)
Theorem Reverse_triangle_ToSVGPath (fuel : nat) :
  (p <- ParseSVGPath (4 + fuel) "M0 0L10 0L10 10z" ;; q <- Reverse p ;; ToSVGPath q)%go
  = Ret "M0 0L10 10V0z"%string.
Proof. rewrite ParseSVGPath_triangle. vm_compute. reflexivity. Qed.

(** C8. Parsing [C10 10 20 10 20 20 S30 30 40 20] takes two iterations and
    gives two CubeTo commands; the first control point of the second is the
    reflection [(2*20-20, 2*20-10) = (20,30)] of the control point (20,10)
    through the current point (20,20). *)
Theorem ParseSVGPath_shorthand_reflection (fuel : nat) :
  ParseSVGPath (2 + fuel) "C10 10 20 10 20 20 S30 30 40 20"
  = Ret (mkPath [CubeToCmd; CubeToCmd]
           [10; 10; 20; 10; 20; 20;
            2 * 20 - 20; 2 * 20 - 10; 30; 30; 40; 20]%float 0%float 0%float)
  /\ (2 * 20 - 20 = 20 /\ 2 * 20 - 10 = 30)%float.
Proof.
  split; [|split; reflexivity].
  apply ParseSVGPath_more_fuel; [vm_compute; reflexivity | discriminate].
Qed.

(** Without a preceding cubic the first control point of [S] is the
    current point itself. *)
Lemma ParseSVGPath_shorthand_after_move (fuel : nat) :
  ParseSVGPath (2 + fuel) "M20 20S30 30 40 20"
  = Ret (mkPath [MoveToCmd; CubeToCmd]
           [20; 20; 20; 20; 30; 30; 40; 20]%float 20%float 20%float).
Proof.
  apply ParseSVGPath_more_fuel; [vm_compute; reflexivity | discriminate].
Qed.

(** C10. [Reverse] of a path with zero commands is the empty path: zero
    commands, an empty coordinate buffer and the start cache (0,0). *)
Theorem Reverse_empty (p : Path) :
  cmds p = [] ->
  exists r, Reverse p = Ret r /\ cmds r = [] /\ d r = [] /\ Start r = (0, 0)%float.
Proof.
  intros H. exists emptyPath. unfold Reverse. rewrite H. simpl.
  repeat split; reflexivity.
Qed.

Lemma Reverse_empty_witness :
  cmds emptyPath = [] /\
  exists r, Reverse emptyPath = Ret r /\ cmds r = [] /\ d r = [] /\ Start r = (0, 0)%float.
Proof. split; [reflexivity | apply (Reverse_empty emptyPath); reflexivity]. Defined.

(** ** Where the code departs from its documentation *)

(** C2. After [MoveTo(1,1)] the start cache is the last MoveTo, as the
    field's comment says.  [Translate(5,5)] moves that MoveTo to (6,6) and
    leaves the cache at (1,1): the translated path breaks the invariant. *)
Theorem Translate_leaves_start_cache_behind :
  let p := MoveTo emptyPath 1%float 1%float in
  Start p = lastMoveToOf p /\
  exists p',
    Translate p 5%float 5%float = Ret p' /\
    lastMoveToOf p' = (6, 6)%float /\
    Start p' = (1, 1)%float /\
    Start p' <> lastMoveToOf p'.
Proof.
  split; [reflexivity|].
  eexists. split; [vm_compute; reflexivity|].
  repeat split; try reflexivity.
  intros H. apply (f_equal fst) in H. revert H.
  apply float_neq; reflexivity.
Qed.

(** The same invariant is broken by [Append] when the appended path has no
    MoveTo of its own: the result takes over the argument's cache. *)
Lemma Append_takes_argument_start_cache :
  let p := MoveTo emptyPath 3%float 3%float in
  let q := LineTo emptyPath 5%float 5%float in
  exists p' q',
    Append p q = Ret (p', q') /\
    lastMoveToOf p' = (3, 3)%float /\
    Start p' = (0, 0)%float.
Proof. do 2 eexists. split; [vm_compute; reflexivity|]. split; reflexivity. Qed.

Lemma parseStep_stuck_on_digit :
  parseStep (list_ascii_of_string "1") parseInit = Ret parseInit.
Proof. vm_compute. reflexivity. Qed.

(** C3. [ParseSVGPath] does not return on every text.  On [M0 0 ] (valid
    path data followed by a space) the second iteration skips the space
    and indexes [path[i]] with [i = len(path)]: a run-time panic.  On [1]
    (a number before any command letter) no iteration consumes anything:
    the loop never ends, whatever the number of iterations followed. *)
Theorem ParseSVGPath_panics_or_diverges :
  (forall fuel, ParseSVGPath (2 + fuel) "M0 0 " = Panic)
  /\ (forall fuel, ParseSVGPath fuel "1" = Timeout).
Proof.
  split.
  - intros fuel.
    apply ParseSVGPath_more_fuel; [vm_compute; reflexivity | discriminate].
  - intros fuel. unfold ParseSVGPath.
    induction fuel as [|fuel IH]; [reflexivity|].
    change (parseLoop (S fuel) (list_ascii_of_string "1") parseInit)
      with (st' <- parseStep (list_ascii_of_string "1") parseInit ;;
            parseLoop fuel (list_ascii_of_string "1") st')%go.
    rewrite parseStep_stuck_on_digit. exact IH.
Qed.

(** C5. The path [M1 1L0 0M3 3L4 4] has no zero-length edge and draws
    (1,1)-(0,0) and (3,3)-(4,4).  [Reverse] drops the MoveTo that should
    open the second reversed subpath, because the first subpath ends at the
    origin; reversing twice gives [M1 1L3 3L4 4], which draws (1,1)-(3,3)
    and (3,3)-(4,4): not the segments of the original. *)
Theorem Reverse_twice_changes_segments :
  let p := (LineTo (MoveTo (LineTo (MoveTo emptyPath 1 1) 0 0) 3 3) 4 4)%float in
  noZeroEdges p = true /\
  exists r rr,
    Reverse p = Ret r /\
    r = (mkPath [MoveToCmd; LineToCmd; LineToCmd] [4; 4; 3; 3; 1; 1] 4 4)%float /\
    Reverse r = Ret rr /\
    rr = (mkPath [MoveToCmd; LineToCmd; LineToCmd] [1; 1; 3; 3; 4; 4] 1 1)%float /\
    segments p
    = [mkSeg (1, 1) LineToCmd [0; 0]; mkSeg (3, 3) LineToCmd [4; 4]]%float /\
    segments rr
    = [mkSeg (1, 1) LineToCmd [3; 3]; mkSeg (3, 3) LineToCmd [4; 4]]%float /\
    segments rr <> segments p.
Proof.
  split; [vm_compute; reflexivity|].
  do 2 eexists.
  split; [vm_compute; reflexivity|]. split; [reflexivity|].
  split; [vm_compute; reflexivity|]. split; [reflexivity|].
  split; [reflexivity|]. split; [reflexivity|].
  intros H.
  apply (f_equal (fun l => match l with
                           | s :: _ => nth 0 (seg_args s) 0%float
                           | [] => 0%float
                           end)) in H.
  revert H. apply float_neq; reflexivity.
Qed.

(** ** Slices and indices *)

Lemma slice_app3 {A : Type} (a b c : list A) :
  slice (a ++ b ++ c) (length a) (length a + length b) = Ret b.
Proof.
  unfold slice.
  replace (length a <=? length a + length b) with true
    by (symmetry; apply Nat.leb_le; lia).
  replace (length a + length b <=? length (a ++ b ++ c)) with true
    by (symmetry; apply Nat.leb_le; rewrite !length_app; lia).
  simpl. f_equal.
  rewrite skipn_app, skipn_all, Nat.sub_diag. simpl.
  replace (length a + length b - length a) with (length b + 0) by lia.
  rewrite firstn_app_2. simpl. apply app_nil_r.
Qed.

Lemma slice_length {A : Type} (s r : list A) (a b : nat) :
  slice s a b = Ret r -> length r = b - a /\ a <= b <= length s.
Proof.
  unfold slice.
  destruct (a <=? b) eqn:E1; simpl; [|discriminate].
  destruct (b <=? length s) eqn:E2; [|discriminate].
  apply Nat.leb_le in E1, E2. intros H. injection H as <-.
  rewrite length_firstn, length_skipn. lia.
Qed.

Lemma idx_app3 {A : Type} (a b c : list A) (k : nat) (x : A) :
  nth_error c k = Some x ->
  idx (a ++ b ++ c) (length a + length b + k) = Ret x.
Proof.
  intros H. unfold idx.
  rewrite nth_error_app2 by lia.
  rewrite nth_error_app2 by lia.
  replace (length a + length b + k - length a - length b) with k by lia.
  rewrite H. reflexivity.
Qed.

Lemma arity_nil (cs : list PathCmd) : arity cs = 0 -> cs = [].
Proof.
  destruct cs as [|c cs]; [reflexivity|].
  simpl. pose proof (Len_ge_2 c). lia.
Qed.

Lemma forallb_removelast {A : Type} (f : A -> bool) (l : list A) :
  forallb f l = true -> forallb f (removelast l) = true.
Proof.
  induction l as [|a l IH]; [reflexivity|].
  simpl. intros H. apply andb_true_iff in H as [Ha Hl].
  destruct l; [reflexivity|].
  simpl. rewrite Ha. apply IH, Hl.
Qed.

Lemma forallb_tl_snoc {A : Type} (f : A -> bool) (l : list A) (a : A) :
  forallb f (tl l) = true -> (l <> [] -> f a = true) ->
  forallb f (tl (l ++ [a])) = true.
Proof.
  destruct l as [|b l]; [reflexivity|].
  simpl. intros H Ha. rewrite forallb_app, H. simpl.
  rewrite Ha; [reflexivity | discriminate].
Qed.

(** ** Split *)

Lemma openFragment_cut (closed : bool) (cur : list PathCmd) (ds : list float64)
    (x y : float64) :
  openFragment closed cur -> cur <> [] ->
  cutAtBoundaries (mkPath cur ds x y) = true.
Proof.
  intros [Hm Hc] Hne.
  assert (Hr : forallb (fun c => negb (isClose c)) (removelast cur) = true).
  { destruct closed.
    - destruct Hc as (c' & -> & Hc'). rewrite removelast_last. exact Hc'.
    - apply forallb_removelast, Hc. }
  unfold cutAtBoundaries. simpl. rewrite Hm, Hr.
  destruct cur; [congruence | reflexivity].
Qed.

Lemma openFragment_snoc (closed : bool) (cur : list PathCmd) (cmd : PathCmd) :
  openFragment false cur -> (isMove cmd = true -> cur = []) ->
  openFragment (isClose cmd) (cur ++ [cmd]).
Proof.
  intros [Hm Hc] Hmove. split.
  - apply forallb_tl_snoc; [exact Hm|].
    intros Hne. destruct (isMove cmd) eqn:E; [|reflexivity].
    elim Hne. apply Hmove. reflexivity.
  - destruct (isClose cmd) eqn:E.
    + exists cur. split; [|exact Hc]. destruct cmd; try discriminate. reflexivity.
    + rewrite forallb_app, Hc. simpl. rewrite E. reflexivity.
Qed.

Lemma firstn_skipn_args (cmd : PathCmd) (rest : list PathCmd) (ds : list float64) :
  arity (cmd :: rest) = length ds ->
  ds = firstn (Len cmd) ds ++ skipn (Len cmd) ds /\
  length (firstn (Len cmd) ds) = Len cmd /\
  arity rest = length (skipn (Len cmd) ds).
Proof.
  simpl. intros H. split; [symmetry; apply firstn_skipn|].
  rewrite length_firstn, length_skipn. lia.
Qed.

Lemma splitLoop_spec (p : Path) (rest : list PathCmd) :
  forall (done cur : list PathCmd) (ddone dcur drest : list float64)
         (ps : list Path) (closed : bool) (x0 y0 : float64),
    cmds p = done ++ cur ++ rest ->
    d p = ddone ++ dcur ++ drest ->
    arity cur = length dcur ->
    arity rest = length drest ->
    openFragment closed cur ->
    exists frags,
      splitLoop p rest ps closed (length ddone) (length ddone + length dcur)
        (length done) (length done + length cur) x0 y0 = Ret (ps ++ frags) /\
      concat (map cmds frags) = cur ++ rest /\
      concat (map d frags) = dcur ++ drest /\
      Forall arityInv frags /\
      forallb cutAtBoundaries frags = true.
Proof.
  induction rest as [|cmd rest IH];
    intros done cur ddone dcur drest ps closed x0 y0 Hc Hd Hcur Hrest Hopen;
    assert (Hs1 : slice (cmds p) (length done) (length done + length cur) = Ret cur)
      by (rewrite Hc; apply slice_app3);
    assert (Hs2 : slice (d p) (length ddone) (length ddone + length dcur) = Ret dcur)
      by (rewrite Hd; apply slice_app3).
  - simpl in Hrest. symmetry in Hrest. apply length_zero_iff_nil in Hrest. subst drest.
    simpl.
    destruct (length ddone <? length ddone + length dcur) eqn:E.
    + rewrite Hs1, Hs2. simpl.
      exists [mkPath cur dcur x0 y0]. simpl. rewrite !app_nil_r.
      repeat split; trivial.
      * constructor; [exact Hcur | constructor].
      * rewrite openFragment_cut with (closed := closed); trivial.
        intros ->. simpl in Hcur. apply Nat.ltb_lt in E. lia.
    + apply Nat.ltb_ge in E.
      assert (dcur = []) by (apply length_zero_iff_nil; lia). subst dcur.
      simpl in Hcur. apply arity_nil in Hcur. subst cur.
      exists []. simpl. rewrite app_nil_r. repeat split; trivial.
  - destruct (firstn_skipn_args cmd rest drest Hrest) as (Esplit & Hargs & Hrest').
    set (args := firstn (Len cmd) drest) in *.
    set (drest' := skipn (Len cmd) drest) in *.
    clearbody args drest'. subst drest. clear Hrest.
    (* the two numbers a MoveTo reads *)
    assert (Hidx : forall k, k < Len cmd ->
              idx (d p) (length ddone + length dcur + k) = Ret (nth k args 0%float)).
    { intros k Hk. rewrite Hd. apply idx_app3.
      rewrite nth_error_app1 by lia. apply nth_error_nth'. lia. }
    cbn [splitLoop].
    destruct ((length ddone <? length ddone + length dcur) && PathCmd_eqb cmd MoveToCmd
              || closed) eqn:Econd.
    + (* the fragment collected so far is cut off here *)
      assert (Hne : cur <> []).
      { destruct closed.
        - destruct Hopen as [_ (c' & -> & _)]. destruct c'; discriminate.
        - rewrite orb_false_r in Econd. apply andb_true_iff in Econd as [E _].
          apply Nat.ltb_lt in E. intros ->. simpl in Hcur. lia. }
      rewrite Hs1, Hs2. cbn [bind].
      destruct (IH (done ++ cur) [cmd] (ddone ++ dcur) args drest'
                  (ps ++ [mkPath cur dcur x0 y0]) (isClose cmd)
                  (if isMove cmd then nth 0 args 0%float else x0)
                  (if isMove cmd then nth 1 args 0%float else y0))
        as (frags & Hrun & Hcs & Hds & Hinv & Hcut).
      { rewrite Hc, <- !app_assoc. reflexivity. }
      { rewrite Hd, <- !app_assoc. reflexivity. }
      { simpl. lia. }
      { exact Hrest'. }
      { split; [reflexivity|]. destruct cmd; simpl; trivial.
        exists []. split; reflexivity. }
      exists (mkPath cur dcur x0 y0 :: frags).
      split; [|split; [|split; [|split]]].
      * rewrite !length_app, Hargs in Hrun. simpl length in Hrun.
        rewrite <- app_assoc in Hrun. simpl app in Hrun. rewrite <- Hrun.
        pose proof (Hidx 0) as H0. pose proof (Hidx 1) as H1.
        rewrite Nat.add_0_r in H0.
        destruct cmd; simpl Len in *; simpl isMove; simpl isClose; cbv iota;
          try rewrite Nat.add_0_r;
          try (rewrite H0, H1 by lia; cbn [bind]);
          reflexivity.
      * simpl. rewrite Hcs. reflexivity.
      * simpl. rewrite Hds. reflexivity.
      * constructor; [exact Hcur | exact Hinv].
      * simpl. rewrite Hcut, openFragment_cut with (closed := closed); trivial.
    + (* the command joins the fragment being collected *)
      apply orb_false_iff in Econd as [Econd ->].
      cbn [bind].
      destruct (IH done (cur ++ [cmd]) ddone (dcur ++ args) drest' ps (isClose cmd)
                  (if isMove cmd then nth 0 args 0%float else x0)
                  (if isMove cmd then nth 1 args 0%float else y0))
        as (frags & Hrun & Hcs & Hds & Hinv & Hcut).
      { rewrite Hc, <- !app_assoc. reflexivity. }
      { rewrite Hd, <- !app_assoc. reflexivity. }
      { rewrite arity_app, length_app. simpl. lia. }
      { exact Hrest'. }
      { apply openFragment_snoc; [exact false | exact Hopen |].
        intros Hm. unfold isMove in Hm. rewrite Hm, andb_true_r in Econd.
        apply Nat.ltb_ge in Econd.
        assert (dcur = []) by (apply length_zero_iff_nil; lia). subst dcur.
        simpl in Hcur. apply arity_nil in Hcur. exact Hcur. }
      exists frags.
      split; [|split; [|split; [|split]]]; trivial.
      * rewrite !length_app, Hargs in Hrun. simpl length in Hrun.
        rewrite !Nat.add_assoc in Hrun. rewrite <- Hrun.
        pose proof (Hidx 0) as H0. pose proof (Hidx 1) as H1.
        rewrite Nat.add_0_r in H0.
        destruct cmd; simpl Len in *; simpl isMove; simpl isClose; cbv iota;
          try rewrite Nat.add_0_r;
          try (rewrite H0, H1 by lia; cbn [bind]);
          reflexivity.
      * rewrite Hcs, <- app_assoc. reflexivity.
      * rewrite Hds, <- app_assoc. reflexivity.
Qed.

(** ** The buffer invariant *)

Create HintDb arity.

Ltac builder_arity :=
  unfold arityInv; simpl; intros; rewrite arity_app, length_app; simpl; lia.

Lemma emptyPath_arityInv : arityInv emptyPath.
Proof. reflexivity. Qed.

Lemma MoveTo_arityInv p x y : arityInv p -> arityInv (MoveTo p x y).
Proof. builder_arity. Qed.

Lemma LineTo_arityInv p x y : arityInv p -> arityInv (LineTo p x y).
Proof. builder_arity. Qed.

Lemma QuadTo_arityInv p x1 y1 x y : arityInv p -> arityInv (QuadTo p x1 y1 x y).
Proof. builder_arity. Qed.

Lemma CubeTo_arityInv p x1 y1 x2 y2 x y :
  arityInv p -> arityInv (CubeTo p x1 y1 x2 y2 x y).
Proof. builder_arity. Qed.

Lemma ArcTo_arityInv p rx ry rot large sweep x y :
  arityInv p -> arityInv (ArcTo p rx ry rot large sweep x y).
Proof. builder_arity. Qed.

Lemma Close_arityInv p : arityInv p -> arityInv (Close p).
Proof. builder_arity. Qed.

#[local] Hint Resolve emptyPath_arityInv MoveTo_arityInv LineTo_arityInv
  QuadTo_arityInv CubeTo_arityInv ArcTo_arityInv Close_arityInv : arity.

Lemma Rect_arityInv p x y w h : arityInv p -> arityInv (Rect p x y w h).
Proof. unfold Rect. auto 10 with arity. Qed.

Lemma Ellipse_arityInv p x y rx ry : arityInv p -> arityInv (Ellipse p x y rx ry).
Proof. unfold Ellipse. auto 10 with arity. Qed.

Lemma Copy_arityInv p : arityInv p -> arityInv (Copy p).
Proof. intros H. exact H. Qed.

(** Case analysis on the calls a monadic hypothesis goes through. *)
Ltac run_binds H :=
  repeat (match type of H with
          | context [bind ?m _] =>
            let E := fresh "E" in
            destruct m eqn:E; cbn [bind] in H; try discriminate H
          | context [let '(_, _) := ?x in _] => destruct x
          | context [if ?b then _ else _] => destruct b eqn:?
          end).

Lemma slice_tail {A : Type} (s r : list A) (a : nat) :
  slice s a (length s) = Ret r -> r = skipn a s.
Proof.
  unfold slice. destruct ((a <=? length s) && (length s <=? length s)); [|discriminate].
  intros H. injection H as <-. apply firstn_all2. rewrite length_skipn. lia.
Qed.

Lemma Append_arityInv p q p' q' :
  arityInv p -> arityInv q -> Append p q = Ret (p', q') ->
  arityInv p' /\ arityInv q'.
Proof.
  unfold Append, arityInv. intros Hp Hq H.
  destruct (Nat.eqb (length (cmds q)) 0).
  { injection H as <- <-. split; assumption. }
  assert (Hcat : forall q1, arity (cmds q1) = length (d q1) ->
            Ret (mkPath (cmds p ++ cmds q1) (d p ++ d q1) (x0 q1) (y0 q1), q1)
            = Ret (p', q') ->
            arity (cmds p') = length (d p') /\ arity (cmds q') = length (d q')).
  { intros q1 Hq1 E. injection E as <- <-. simpl.
    rewrite arity_app, length_app. lia. }
  destruct ((0 <? length (cmds p))
            && match cmds q with c :: _ => PathCmd_eqb c MoveToCmd | [] => false end)
    eqn:Econd; cbn [bind] in H; [|apply (Hcat q); assumption].
  match type of H with
  | bind ?m _ = _ => destruct m as [q1| |] eqn:E; cbn [bind] in H; try discriminate H
  end.
  apply (Hcat q1); [|exact H]. clear H Hcat.
  run_binds E; try discriminate E; injection E as <-; try assumption. simpl.
  repeat match goal with
         | E : slice _ _ (length _) = Ret _ |- _ => apply slice_tail in E; subst
         | E : idx (d q) _ = Ret _ |- _ => unfold idx in E
         end.
  apply andb_true_iff in Econd as [_ Ehd].
  destruct (cmds q) as [|c cs]; [discriminate|].
  destruct c; try discriminate. simpl in Hq |- *.
  destruct (d q) as [|? [|? ?]]; simpl in *; try discriminate. lia.
Qed.

Lemma addAt_length ds i x ds' : addAt ds i x = Ret ds' -> length ds' = length ds.
Proof.
  unfold addAt. destruct (nth_error ds i) eqn:E; [|discriminate].
  intros H. injection H as <-.
  assert (i < length ds) by (apply nth_error_Some; congruence).
  pose proof (length_skipn (S i) ds) as Hs. cbn [skipn] in Hs.
  rewrite length_app, length_firstn. cbn [length]. lia.
Qed.

Lemma translateLoop_length cs : forall ds i x y ds',
  translateLoop cs ds i x y = Ret ds' -> length ds' = length ds.
Proof.
  induction cs as [|c cs IH]; intros ds i x y ds' H; simpl in H.
  - injection H as <-. reflexivity.
  - destruct c; run_binds H; apply IH in H;
      repeat match goal with
             | E : addAt _ _ _ = Ret _ |- _ => apply addAt_length in E
             end; lia.
Qed.

Lemma Translate_arityInv p x y p' :
  arityInv p -> Translate p x y = Ret p' -> arityInv p'.
Proof.
  unfold Translate, arityInv. intros Hp H. cbv zeta in H.
  match type of H with
  | bind (translateLoop (cmds ?P) _ _ _ _) _ = _ =>
    assert (HP : arity (cmds P) = length (d P));
      [|generalize dependent P; intros P' H HP]
  end.
  { unfold Copy. simpl. destruct (cmds p) as [|c cs] eqn:Ec; [exact Hp|].
    destruct (negb (PathCmd_eqb c MoveToCmd)); simpl in *; lia. }
  destruct (translateLoop (cmds P') (d P') 0 x y) as [ds| |] eqn:E;
    cbn [bind] in H; try discriminate H.
  injection H as <-. simpl. apply translateLoop_length in E. lia.
Qed.

#[local] Hint Resolve Rect_arityInv Ellipse_arityInv Copy_arityInv : arity.

Ltac run_branches H :=
  repeat (match type of H with
          | context [if ?b then _ else _] => destruct b eqn:?
          | context [bind ?m _] =>
            let E := fresh "E" in
            destruct m eqn:E; cbn [bind] in H; try discriminate H
          | context [let '(_, _) := ?x in _] => destruct x
          end).

Lemma reverseStep_arityInv p icmd st st' :
  arityInv (rv_ip st) -> reverseStep p icmd st = Ret st' -> arityInv (rv_ip st').
Proof.
  unfold reverseStep. destruct st as [i xEnd yEnd xStart yStart closed ip].
  cbn [rv_ip]. intros Hip H.
  destruct (idx (cmds p) icmd) as [cmd| |]; cbn [bind] in H; try discriminate H.
  match type of H with
  | bind ?m _ = _ =>
    destruct m as [[[[[i' xe] ye] cl] ip']| |] eqn:E;
      cbn [bind] in H; try discriminate H
  end.
  injection H as <-. cbn [rv_ip].
  destruct cmd; run_branches E; try discriminate E;
    inversion E; subst; auto with arity.
Qed.

Lemma reverseLoop_arityInv p n : forall st r,
  arityInv (rv_ip st) -> reverseLoop p n st = Ret r -> arityInv r.
Proof.
  induction n as [|n IH]; intros st r Hip H; simpl in H.
  - injection H as <-. destruct (rv_closed st); auto with arity.
  - destruct (reverseStep p n st) as [st'| |] eqn:E; cbn [bind] in H;
      try discriminate H.
    eapply IH; [|exact H]. eapply reverseStep_arityInv; eassumption.
Qed.

Lemma Reverse_arityInv p r : Reverse p = Ret r -> arityInv r.
Proof.
  unfold Reverse. destruct (Nat.eqb (length (cmds p)) 0).
  - intros H. injection H as <-. reflexivity.
  - destruct (prevEnd (d p)) as [xEnd yEnd]. apply reverseLoop_arityInv.
    cbn [rv_ip].
    match goal with |- context [if ?b then _ else _] => destruct b end;
      auto with arity.
Qed.

Lemma arity_nth_split (cs : list PathCmd) (k : nat) (c : PathCmd) :
  nth_error cs k = Some c ->
  arity cs = arity (firstn k cs) + Len c + arity (skipn (S k) cs).
Proof.
  revert k. induction cs as [|a cs IH]; intros [|k] H; simpl in *; try discriminate.
  - injection H as ->. lia.
  - rewrite (IH k H). lia.
Qed.

Lemma slice_head {A : Type} (s r : list A) (b : nat) :
  slice s 0 b = Ret r -> r = firstn b s.
Proof.
  unfold slice. destruct ((0 <=? b) && (b <=? length s)); [|discriminate].
  intros H. injection H as <-. rewrite Nat.sub_0_r. reflexivity.
Qed.

Lemma replaceCmd_arityInv p icmd i q p' icmd' i' :
  arityInv p -> arityInv q -> replaceCmd p icmd i q = Ret (p', icmd', i') ->
  arityInv p'.
Proof.
  unfold replaceCmd, arityInv, idxZ. intros Hp Hq H.
  destruct (icmd <? 0)%Z; cbn [bind] in H; [discriminate H|].
  unfold idx in H. destruct (nth_error (cmds p) (Z.to_nat icmd)) as [c|] eqn:Ec;
    cbn [bind] in H; [|discriminate H].
  run_binds H. injection H as <- _ _. simpl.
  repeat match goal with
         | E : slice _ _ _ = Ret _ |- _ =>
           let L := fresh "L" in
           pose proof (slice_length _ _ _ _ E) as L;
           first [apply slice_head in E | apply slice_tail in E]; subst
         end.
  rewrite (arity_nth_split _ _ _ Ec) in Hp.
  rewrite !arity_app, !length_app in *.
  rewrite Nat.add_1_r. lia.
Qed.

Section FlattenInvariant.

Variable flat : Point -> Point -> Point -> Point -> float64 -> float64 -> Path.

Variable tol : float64.

Hypothesis flat_arity :
  forall s c1 c2 e t tl, arityInv (flat s c1 c2 e t tl).

Lemma flattenNext_path p icmd i st :
  flattenNext p icmd i = Ret st -> fs_p st = p /\ fs_icmd st = (icmd + 1)%Z.
Proof.
  unfold flattenNext. intros H. run_binds H. injection H as <-. split; reflexivity.
Qed.

Lemma flattenStep_arityInv st st' :
  arityInv (fs_p st) -> flattenStep flat tol st = Ret st' -> arityInv (fs_p st').
Proof.
  unfold flattenStep. destruct st as [p icmd i start]. cbn [fs_p]. intros Hp H.
  destruct (idxZ (cmds p) icmd) as [cmd| |]; cbn [bind] in H; try discriminate H.
  destruct cmd;
    try (apply flattenNext_path in H as [-> _]; exact Hp);
    run_binds H;
    match goal with
    | E : replaceCmd _ _ _ _ = Ret _ |- _ =>
      apply replaceCmd_arityInv in E; [|exact Hp | apply flat_arity]
    end;
    try (apply flattenNext_path in H as [-> _]; assumption);
    injection H as <-; assumption.
Qed.

Lemma flattenReach_arityInv st st' :
  arityInv (fs_p st) -> flattenReach flat tol st st' -> arityInv (fs_p st').
Proof.
  intros Hp H. induction H as [|st1 st2 _ IH _ Hstep]; [exact Hp|].
  eapply flattenStep_arityInv; eassumption.
Qed.

Lemma flattenLoop_arityInv fuel : forall st r,
  arityInv (fs_p st) -> flattenLoop flat tol fuel st = Ret r -> arityInv r.
Proof.
  induction fuel as [|fuel IH]; intros st r Hp H; simpl in H;
    destruct (fs_icmd st <? Z.of_nat (length (cmds (fs_p st))))%Z;
    try discriminate H; try (injection H as <-; exact Hp).
  destruct (flattenStep flat tol st) as [st'| |] eqn:E; cbn [bind] in H;
    try discriminate H.
  eapply IH; [|exact H]. eapply flattenStep_arityInv; eassumption.
Qed.

End FlattenInvariant.

Lemma bind_no_timeout {A B : Type} (m : outcome A) (k : A -> outcome B) :
  m <> Timeout -> (forall a, k a <> Timeout) -> bind m k <> Timeout.
Proof. destruct m; simpl; auto; discriminate. Qed.

Lemma idx_no_timeout {A : Type} (s : list A) (i : nat) : idx s i <> Timeout.
Proof. unfold idx. destruct (nth_error s i); discriminate. Qed.

Lemma idxZ_no_timeout {A : Type} (s : list A) (i : Z) : idxZ s i <> Timeout.
Proof. unfold idxZ. destruct (i <? 0)%Z; [discriminate | apply idx_no_timeout]. Qed.

Lemma slice_no_timeout {A : Type} (s : list A) (a b : nat) : slice s a b <> Timeout.
Proof. unfold slice. destruct ((a <=? b) && (b <=? length s)); discriminate. Qed.

Create HintDb no_timeout.

#[local] Hint Resolve idx_no_timeout idxZ_no_timeout slice_no_timeout : no_timeout.

Ltac no_timeout :=
  repeat first
    [ discriminate
    | solve [auto with no_timeout]
    | apply bind_no_timeout; [|intros]
    | match goal with
      | |- (if ?b then _ else _) <> _ => destruct b
      | |- (let '(_, _) := ?x in _) <> _ => destruct x
      | |- match ?c with _ => _ end <> _ => destruct c
      end ].

Lemma replaceCmd_no_timeout p icmd i q : replaceCmd p icmd i q <> Timeout.
Proof. unfold replaceCmd. no_timeout. Qed.

Lemma flattenNext_no_timeout p icmd i : flattenNext p icmd i <> Timeout.
Proof. unfold flattenNext. no_timeout. Qed.

#[local] Hint Resolve replaceCmd_no_timeout flattenNext_no_timeout : no_timeout.

Section FlattenTermination.

Variable flat : Point -> Point -> Point -> Point -> float64 -> float64 -> Path.

Variable tol : float64.

Lemma replaceCmd_remaining p icmd i q p' icmd' i' :
  replaceCmd p icmd i q = Ret (p', icmd', i') ->
  (0 <= icmd)%Z /\
  (Z.of_nat (length (cmds p')) - (icmd' + 1)
   = Z.of_nat (length (cmds p)) - icmd - 1)%Z.
Proof.
  unfold replaceCmd, idxZ. intros H.
  destruct (icmd <? 0)%Z eqn:Ei; cbn [bind] in H; [discriminate H|].
  apply Z.ltb_ge in Ei.
  run_binds H. injection H as <- <- _. simpl.
  repeat match goal with
         | E : slice _ _ _ = Ret _ |- _ => apply slice_length in E
         end.
  rewrite !length_app. lia.
Qed.

(** Every iteration leaves one command fewer to look at, whatever the
    flattener returns. *)
Lemma flattenStep_remaining st st' :
  flattenStep flat tol st = Ret st' ->
  (0 <= fs_icmd st)%Z /\
  (Z.of_nat (length (cmds (fs_p st'))) - fs_icmd st'
   = Z.of_nat (length (cmds (fs_p st))) - fs_icmd st - 1)%Z.
Proof.
  unfold flattenStep. destruct st as [p icmd i start]. cbn [fs_p fs_icmd]. intros H.
  assert (Hi : (0 <= icmd)%Z).
  { unfold idxZ in H. destruct (icmd <? 0)%Z eqn:Ei; [discriminate H|].
    apply Z.ltb_ge in Ei. exact Ei. }
  split; [exact Hi|].
  destruct (idxZ (cmds p) icmd) as [cmd| |]; cbn [bind] in H; try discriminate H.
  destruct cmd;
    try (apply flattenNext_path in H as [-> ->]; lia);
    run_binds H;
    match goal with
    | E : replaceCmd _ _ _ _ = Ret _ |- _ =>
      apply replaceCmd_remaining in E; destruct E as [_ E]
    end;
    try (apply flattenNext_path in H as [-> ->]; lia);
    injection H as <-; cbn [fs_p fs_icmd]; lia.
Qed.

Lemma flattenStep_returns_or_panics st : flattenStep flat tol st <> Timeout.
Proof.
  unfold flattenStep. destruct st as [p icmd i start]. no_timeout.
Qed.

Lemma flattenLoop_no_timeout fuel : forall st,
  (Z.of_nat (length (cmds (fs_p st))) - fs_icmd st <= Z.of_nat fuel)%Z ->
  flattenLoop flat tol fuel st <> Timeout.
Proof.
  induction fuel as [|fuel IH]; intros st Hm; simpl;
    destruct (fs_icmd st <? Z.of_nat (length (cmds (fs_p st))))%Z eqn:Ec;
    try discriminate.
  - apply Z.ltb_lt in Ec. lia.
  - pose proof (flattenStep_returns_or_panics st) as Hnt.
    destruct (flattenStep flat tol st) as [st'| |] eqn:E; cbn [bind];
      try discriminate; try congruence.
    apply IH. apply flattenStep_remaining in E. lia.
Qed.

Lemma FlattenBeziers_no_timeout p : FlattenBeziers flat tol p <> Timeout.
Proof.
  unfold FlattenBeziers. apply flattenLoop_no_timeout. simpl. lia.
Qed.

End FlattenTermination.

(** ** Flattening *)

Lemma slice_prefix {A : Type} (a b : list A) : slice (a ++ b) 0 (length a) = Ret a.
Proof. apply (slice_app3 [] a b). Qed.

Lemma slice_suffix {A : Type} (a b : list A) :
  slice (a ++ b) (length a) (length (a ++ b)) = Ret b.
Proof.
  rewrite length_app. rewrite <- (app_nil_r b) at 1. apply slice_app3.
Qed.

Lemma idxZ_of_nat {A : Type} (s : list A) (i : nat) :
  idxZ s (Z.of_nat i) = idx s i.
Proof.
  unfold idxZ. replace (Z.of_nat i <? 0)%Z with false by (symmetry; apply Z.ltb_ge; lia).
  rewrite Nat2Z.id. reflexivity.
Qed.

Lemma idx_app_mid {A : Type} (a b : list A) (x : A) :
  idx (a ++ x :: b) (length a) = Ret x.
Proof.
  unfold idx. rewrite nth_error_app2 by lia. rewrite Nat.sub_diag. reflexivity.
Qed.

Lemma idx_app_args {A : Type} (a args b : list A) (k : nat) (dflt : A) :
  k < length args ->
  idx (a ++ args ++ b) (length a + k) = Ret (nth k args dflt).
Proof.
  intros H. unfold idx. rewrite nth_error_app2 by lia.
  replace (length a + k - length a) with k by lia.
  rewrite nth_error_app1 by lia.
  rewrite (nth_error_nth' args dflt H). reflexivity.
Qed.

(** The last two numbers before offset [length a + length args] are the last
    point of [args]. *)
Lemma flattenNext_args (p : Path) (a args b : list float64) (icmd : Z) :
  d p = a ++ args ++ b -> 2 <= length args ->
  flattenNext p icmd (length a + length args)
  = Ret (mkFlat p (icmd + 1) (length a + length args) (lastPoint args)).
Proof.
  intros Hd Hlen. unfold flattenNext.
  replace (Z.of_nat (length a + length args) - 2)%Z
    with (Z.of_nat (length a + (length args - 2))) by lia.
  replace (Z.of_nat (length a + length args) - 1)%Z
    with (Z.of_nat (length a + (length args - 1))) by lia.
  rewrite !idxZ_of_nat, Hd.
  rewrite !(idx_app_args a args b _ 0%float) by lia.
  reflexivity.
Qed.

Lemma replaceCmd_spec (p q : Path) (done rest : list PathCmd) (c : PathCmd)
    (ddone args drest : list float64) :
  cmds p = done ++ c :: rest ->
  d p = ddone ++ args ++ drest ->
  length args = Len c ->
  replaceCmd p (Z.of_nat (length done)) (length ddone) q
  = Ret (mkPath (done ++ cmds q ++ rest) (ddone ++ d q ++ drest) (x0 p) (y0 p),
         (Z.of_nat (length done) + (Z.of_nat (length (cmds q)) - 1))%Z,
         length ddone + length (d q)).
Proof.
  intros Hc Hd Hargs. unfold replaceCmd.
  rewrite idxZ_of_nat, Nat2Z.id, Hc, idx_app_mid. cbn [bind].
  replace (done ++ c :: rest) with ((done ++ [c]) ++ rest)
    by (rewrite <- app_assoc; reflexivity).
  replace (length done + 1) with (length (done ++ [c]))
    by (rewrite length_app; reflexivity).
  rewrite slice_suffix. cbn [bind].
  rewrite <- app_assoc. rewrite slice_prefix. cbn [bind].
  rewrite Hd, <- Hargs.
  replace (ddone ++ args ++ drest) with ((ddone ++ args) ++ drest)
    by (rewrite <- app_assoc; reflexivity).
  replace (length ddone + length args) with (length (ddone ++ args))
    by (rewrite length_app; reflexivity).
  rewrite slice_suffix. cbn [bind].
  rewrite <- app_assoc. rewrite slice_prefix. cbn [bind].
  reflexivity.
Qed.

Lemma arityInv_d_length (q : Path) :
  arityInv q -> length (d q) <> 0 -> 2 <= length (d q).
Proof.
  unfold arityInv. destruct (cmds q) as [|c cs]; simpl; [lia|].
  pose proof (Len_ge_2 c). lia.
Qed.

Lemma lastPoint_app (a b : list float64) :
  2 <= length b -> lastPoint (a ++ b) = lastPoint b.
Proof.
  intros H. unfold lastPoint. rewrite length_app.
  rewrite !app_nth2 by lia. f_equal; f_equal; lia.
Qed.

Lemma firstn_args (n : nat) (args ds : list float64) :
  length args = n -> firstn n (args ++ ds) = args /\ skipn n (args ++ ds) = ds.
Proof.
  intros <-. split.
  - rewrite firstn_app, firstn_all, Nat.sub_diag. simpl. apply app_nil_r.
  - rewrite skipn_app, skipn_all, Nat.sub_diag. reflexivity.
Qed.

Lemma split_args (c : PathCmd) (rest : list PathCmd) (ds : list float64) :
  arity (c :: rest) = length ds ->
  exists args ds', ds = args ++ ds' /\ length args = Len c /\ arity rest = length ds'.
Proof.
  simpl. intros H. exists (firstn (Len c) ds), (skipn (Len c) ds).
  split; [symmetry; apply firstn_skipn|].
  rewrite length_firstn, length_skipn. lia.
Qed.

Section FlattenProofs.

Variable flat : Point -> Point -> Point -> Point -> float64 -> float64 -> Path.

Variable tol : float64.

Lemma flattenLoop_done (fuel : nat) (st : flat_state) :
  (Z.of_nat (length (cmds (fs_p st))) <= fs_icmd st)%Z ->
  flattenLoop flat tol fuel st = Ret (fs_p st).
Proof.
  intros H. apply Z.ltb_ge in H. destruct fuel; simpl; rewrite H; reflexivity.
Qed.

Lemma flattenLoop_step (fuel : nat) (st : flat_state) :
  (fs_icmd st < Z.of_nat (length (cmds (fs_p st))))%Z ->
  flattenLoop flat tol (S fuel) st
  = bind (flattenStep flat tol st) (flattenLoop flat tol fuel).
Proof. intros H. apply Z.ltb_lt in H. simpl. rewrite H. reflexivity. Qed.

Lemma flattenSpec_keep (c : PathCmd) (rest : list PathCmd) (args ds : list float64)
    (start : Point) :
  isCurve c = false -> length args = Len c ->
  flattenSpec flat tol (c :: rest) (args ++ ds) start
  = (c :: fst (flattenSpec flat tol rest ds (lastPoint args)),
     args ++ snd (flattenSpec flat tol rest ds (lastPoint args))).
Proof.
  intros Hc Hargs. destruct (firstn_args (Len c) args ds Hargs) as [E1 E2].
  cbn [flattenSpec]. rewrite E1, E2.
  destruct (flattenSpec flat tol rest ds (lastPoint args)) as [rc rd].
  destruct c; try discriminate; reflexivity.
Qed.

Lemma flattenStep_keep (c : PathCmd) (done rest : list PathCmd)
    (ddone args drest : list float64) (x y : float64) (start : Point) :
  isCurve c = false -> length args = Len c ->
  flattenStep flat tol
    (mkFlat (mkPath (done ++ c :: rest) (ddone ++ args ++ drest) x y)
       (Z.of_nat (length done)) (length ddone) start)
  = Ret (mkFlat (mkPath ((done ++ [c]) ++ rest) ((ddone ++ args) ++ drest) x y)
           (Z.of_nat (length (done ++ [c]))) (length (ddone ++ args))
           (lastPoint args)).
Proof.
  intros Hc Hargs. unfold flattenStep.
  rewrite idxZ_of_nat. cbn [cmds d]. rewrite idx_app_mid. cbn [bind].
  rewrite <- !app_assoc. cbn [app].
  rewrite !length_app. cbn [length].
  replace (Z.of_nat (length done + 1)) with (Z.of_nat (length done) + 1)%Z by lia.
  pose proof (Len_ge_2 c).
  destruct c; try discriminate; rewrite <- Hargs;
    apply flattenNext_args with (b := drest); try reflexivity; lia.
Qed.

Hypothesis flat_arity :
  forall s c1 c2 e t tl, arityInv (flat s c1 c2 e t tl).

(** A spliced-in polyline [q] and the pen position after it. *)
Lemma flatten_after_splice (q : Path) (done rest : list PathCmd)
    (ddone drest : list float64) (x y : float64) (start : Point) :
  arityInv q ->
  (if Nat.eqb (length (d q)) 0
   then Ret (mkFlat (mkPath (done ++ cmds q ++ rest) (ddone ++ d q ++ drest) x y)
               (Z.of_nat (length done) + (Z.of_nat (length (cmds q)) - 1) + 1)
               (length ddone + length (d q)) start)
   else flattenNext (mkPath (done ++ cmds q ++ rest) (ddone ++ d q ++ drest) x y)
          (Z.of_nat (length done) + (Z.of_nat (length (cmds q)) - 1))
          (length ddone + length (d q)))
  = Ret (mkFlat (mkPath ((done ++ cmds q) ++ rest) ((ddone ++ d q) ++ drest) x y)
           (Z.of_nat (length (done ++ cmds q))) (length (ddone ++ d q))
           (if Nat.eqb (length (d q)) 0 then start else lastPoint (d q))).
Proof.
  intros Hq. rewrite <- !app_assoc, !length_app.
  replace (Z.of_nat (length done) + (Z.of_nat (length (cmds q)) - 1) + 1)%Z
    with (Z.of_nat (length done + length (cmds q))) by lia.
  destruct (Nat.eqb (length (d q)) 0) eqn:E; [reflexivity|].
  apply Nat.eqb_neq in E.
  rewrite flattenNext_args with (a := ddone) (args := d q) (b := drest);
    [|reflexivity | apply arityInv_d_length; assumption].
  do 2 f_equal. lia.
Qed.

Lemma flattenLoop_spec (rest : list PathCmd) :
  forall (done : list PathCmd) (ddone drest : list float64) (start : Point)
         (x y : float64) (fuel : nat),
    arity rest = length drest -> length rest <= fuel ->
    flattenLoop flat tol fuel
      (mkFlat (mkPath (done ++ rest) (ddone ++ drest) x y)
         (Z.of_nat (length done)) (length ddone) start)
    = Ret (mkPath (done ++ fst (flattenSpec flat tol rest drest start))
             (ddone ++ snd (flattenSpec flat tol rest drest start)) x y).
Proof.
  induction rest as [|c rest IH]; intros done ddone drest start x y fuel Har Hfuel.
  - simpl in Har. symmetry in Har. apply length_zero_iff_nil in Har. subst drest.
    apply flattenLoop_done. simpl. rewrite app_nil_r. lia.
  - destruct fuel as [|fuel]; [simpl in Hfuel; lia|].
    simpl in Hfuel.
    rewrite flattenLoop_step by (simpl; rewrite length_app; simpl; lia).
    destruct (split_args c rest drest Har) as (args & ds' & -> & Hargs & Har').
    destruct (isCurve c) eqn:Ec.
    + (* a curve is spliced out *)
      unfold flattenStep. rewrite idxZ_of_nat. cbn [cmds d].
      rewrite idx_app_mid. cbn [bind].
      destruct c; try discriminate; cbv iota;
        rewrite !(idx_app_args ddone args ds' _ 0%float) by (simpl in Hargs; lia);
        cbn [bind].
      * (* QuadTo *)
        rewrite replaceCmd_spec
          with (done := done) (rest := rest) (c := QuadToCmd)
               (ddone := ddone) (args := args) (drest := ds');
          [|reflexivity | reflexivity | exact Hargs].
        cbn [bind x0 y0].
        rewrite flatten_after_splice by apply flat_arity.
        cbn [bind]. rewrite IH by (trivial; lia).
        destruct (firstn_args 4 args ds' Hargs) as [E1 E2].
        cbn [flattenSpec]. cbn [Len]. rewrite E2.
        rewrite !(app_nth1 args ds') by (simpl in Hargs; lia).
        unfold elevated, Interpolate. cbn [X Y].
        match goal with
        | |- context [flattenSpec flat tol rest ds' ?s] =>
          destruct (flattenSpec flat tol rest ds' s) as [rc rd]
        end.
        cbn [fst snd]. rewrite <- !app_assoc. reflexivity.
      * (* CubeTo *)
        rewrite replaceCmd_spec
          with (done := done) (rest := rest) (c := CubeToCmd)
               (ddone := ddone) (args := args) (drest := ds');
          [|reflexivity | reflexivity | exact Hargs].
        cbn [bind x0 y0].
        rewrite flatten_after_splice by apply flat_arity.
        cbn [bind]. rewrite IH by (trivial; lia).
        destruct (firstn_args 6 args ds' Hargs) as [E1 E2].
        cbn [flattenSpec]. cbn [Len]. rewrite E2.
        rewrite !(app_nth1 args ds') by (simpl in Hargs; lia).
        match goal with
        | |- context [flattenSpec flat tol rest ds' ?s] =>
          destruct (flattenSpec flat tol rest ds' s) as [rc rd]
        end.
        cbn [fst snd]. rewrite <- !app_assoc. reflexivity.
    + (* any other command is stepped over *)
      rewrite flattenStep_keep by assumption. cbn [bind].
      rewrite IH by (trivial; lia).
      rewrite flattenSpec_keep by assumption. cbn [fst snd].
      rewrite <- !app_assoc. reflexivity.
Qed.

End FlattenProofs.

(** ** The operations return on paths that satisfy the invariant *)

Lemma addAt_returns (ds : list float64) (i : nat) (x : float64) :
  i < length ds -> exists ds', addAt ds i x = Ret ds' /\ length ds' = length ds.
Proof.
  intros H. unfold addAt.
  destruct (nth_error ds i) as [a|] eqn:E.
  - eexists. split; [reflexivity|].
    apply (addAt_length ds i x). unfold addAt. rewrite E. reflexivity.
  - apply nth_error_None in E. lia.
Qed.

Ltac step_addAt :=
  match goal with
  | |- context [addAt ?ds ?i ?x] =>
    let ds' := fresh "ds" in
    let E := fresh "E" in
    let L := fresh "L" in
    destruct (addAt_returns ds i x) as (ds' & E & L); [lia|];
    rewrite E; cbn [bind]
  end.

Lemma translateLoop_returns (x y : float64) (cs : list PathCmd) :
  forall (ds : list float64) (i : nat),
    i + arity cs <= length ds -> exists ds', translateLoop cs ds i x y = Ret ds'.
Proof.
  induction cs as [|c cs IH]; intros ds i H; simpl in *.
  - eexists; reflexivity.
  - destruct c; simpl in H; repeat step_addAt; apply IH; lia.
Qed.

Lemma Translate_returns (p : Path) (x y : float64) :
  arityInv p -> exists p', Translate p x y = Ret p'.
Proof.
  unfold Translate, arityInv. intros Hp. cbv zeta.
  match goal with
  | |- exists _, bind (translateLoop (cmds ?P) _ _ _ _) _ = _ =>
    assert (HP : arity (cmds P) = length (d P));
      [|generalize dependent P; intros P' HP]
  end.
  { unfold Copy. simpl. destruct (cmds p) as [|c cs] eqn:Ec; [exact Hp|].
    destruct (negb (PathCmd_eqb c MoveToCmd)); simpl in *; lia. }
  destruct (translateLoop_returns x y (cmds P') (d P') 0) as [ds' E]; [lia|].
  rewrite E. eexists; reflexivity.
Qed.

Lemma arity_firstn_S (cs : list PathCmd) (k : nat) (c : PathCmd) :
  nth_error cs k = Some c ->
  arity (firstn (S k) cs) = arity (firstn k cs) + Len c.
Proof.
  revert k. induction cs as [|a cs IH]; intros [|k] H; simpl in *; try discriminate.
  - injection H as ->. lia.
  - rewrite (IH k H). lia.
Qed.

Lemma arity_firstn_le (cs : list PathCmd) (k : nat) :
  arity (firstn k cs) <= arity cs.
Proof.
  rewrite <- (firstn_skipn k cs) at 2. rewrite arity_app. lia.
Qed.

Lemma prevEndTo_returns (ds : list float64) (i : Z) :
  (0 <= i <= Z.of_nat (length ds))%Z -> exists xy, prevEndTo ds i = Ret xy.
Proof.
  intros H. unfold prevEndTo, sliceToZ, slice.
  replace (i <? 0)%Z with false by (symmetry; apply Z.ltb_ge; lia).
  replace (Z.to_nat i <=? length ds) with true by (symmetry; apply Nat.leb_le; lia).
  simpl. eexists; reflexivity.
Qed.

Lemma idxZ_returns {A : Type} (s : list A) (i : Z) :
  (0 <= i < Z.of_nat (length s))%Z -> exists a, idxZ s i = Ret a.
Proof.
  intros H. unfold idxZ, idx.
  replace (i <? 0)%Z with false by (symmetry; apply Z.ltb_ge; lia).
  destruct (nth_error s (Z.to_nat i)) as [a|] eqn:E; [eexists; reflexivity|].
  apply nth_error_None in E. lia.
Qed.

Ltac step_read :=
  match goal with
  | |- context [prevEndTo ?ds ?i] =>
    let xy := fresh "xy" in
    let E := fresh "E" in
    destruct (prevEndTo_returns ds i) as ([? ?] & E); [lia|];
    rewrite E; cbn [bind]
  | |- context [idxZ ?ds ?i] =>
    let E := fresh "E" in
    destruct (idxZ_returns ds i) as (? & E); [lia|];
    rewrite E; cbn [bind]
  end.

Lemma reverseStep_returns (p : Path) (icmd : nat) (c : PathCmd) (st : rev_state) :
  arityInv p ->
  nth_error (cmds p) icmd = Some c ->
  rv_i st = Z.of_nat (arity (firstn (S icmd) (cmds p))) ->
  exists st',
    reverseStep p icmd st = Ret st' /\
    rv_i st' = Z.of_nat (arity (firstn icmd (cmds p))).
Proof.
  unfold arityInv. intros Hp Hc Hi.
  destruct st as [i xEnd yEnd xStart yStart closed ip]. cbn [rv_i] in Hi.
  rewrite (arity_firstn_S _ _ _ Hc) in Hi.
  pose proof (arity_firstn_le (cmds p) (S icmd)) as Hle.
  rewrite (arity_firstn_S _ _ _ Hc) in Hle.
  unfold reverseStep, idx. rewrite Hc. cbn [bind].
  destruct c; simpl Len in *; repeat step_read;
    repeat match goal with
           | |- context [if ?b then _ else _] => destruct b
           end;
    cbn [bind]; repeat step_read; eexists; (split; [reflexivity|]);
    cbn [rv_i]; lia.
Qed.

Lemma reverseLoop_returns (p : Path) (n : nat) :
  forall st,
    arityInv p -> n <= length (cmds p) ->
    rv_i st = Z.of_nat (arity (firstn n (cmds p))) ->
    exists r, reverseLoop p n st = Ret r.
Proof.
  induction n as [|n IH]; intros st Hp Hn Hi; simpl.
  - eexists; reflexivity.
  - destruct (nth_error (cmds p) n) as [c|] eqn:Ec;
      [|apply nth_error_None in Ec; lia].
    destruct (reverseStep_returns p n c st Hp Ec Hi) as (st' & E & Hi').
    rewrite E. cbn [bind]. apply IH; [assumption | lia | assumption].
Qed.

Lemma Reverse_returns (p : Path) : arityInv p -> exists r, Reverse p = Ret r.
Proof.
  intros Hp. unfold Reverse.
  destruct (Nat.eqb (length (cmds p)) 0); [eexists; reflexivity|].
  destruct (prevEnd (d p)) as [xEnd yEnd].
  apply reverseLoop_returns; [assumption | lia |].
  cbn [rv_i]. rewrite firstn_all. rewrite Hp. reflexivity.
Qed.

Lemma Append_returns (p q : Path) :
  arityInv p -> arityInv q -> exists r, Append p q = Ret r.
Proof.
  unfold arityInv, Append. intros Hp Hq.
  destruct (Nat.eqb (length (cmds q)) 0); [eexists; reflexivity|].
  destruct ((0 <? length (cmds p))
            && match cmds q with c :: _ => PathCmd_eqb c MoveToCmd | [] => false end)
    eqn:Econd; cbn [bind]; [|eexists; reflexivity].
  apply andb_true_iff in Econd as [Ep Eq]. apply Nat.ltb_lt in Ep.
  destruct (cmds p) as [|cp csp]; [simpl in Ep; lia|].
  pose proof (Len_ge_2 cp). simpl in Hp.
  destruct (cmds q) as [|cq csq]; [discriminate|].
  destruct cq; try discriminate. simpl in Hq.
  repeat step_read.
  destruct (d q) as [|a [|b dq]]; simpl in Hq; try lia.
  unfold idx. simpl nth_error. cbn [bind].
  destruct (Equal _ _ && Equal _ _); [|eexists; reflexivity].
  unfold slice. simpl length.
  replace (1 <=? S (length csq)) with true by reflexivity.
  replace (2 <=? S (S (length dq))) with true by reflexivity.
  rewrite !Nat.leb_refl. simpl. eexists; reflexivity.
Qed.

Section FlattenTheorems.

Variable flat : Point -> Point -> Point -> Point -> float64 -> float64 -> Path.

Variable tol : float64.

Lemma flattenSpec_curveFree (cs : list PathCmd) :
  forall (ds : list float64) (start : Point),
    curveFree cs = true -> arity cs = length ds ->
    flattenSpec flat tol cs ds start = (cs, ds).
Proof.
  induction cs as [|c cs IH]; intros ds start Hfree Har.
  - simpl in Har. symmetry in Har. apply length_zero_iff_nil in Har. subst ds.
    reflexivity.
  - simpl in Hfree. apply andb_true_iff in Hfree as [Hc Hfree].
    apply negb_true_iff in Hc.
    destruct (split_args c cs ds Har) as (args & ds' & -> & Hargs & Har').
    rewrite flattenSpec_keep by assumption.
    rewrite IH by assumption. reflexivity.
Qed.

Lemma flattenSpec_prefix (pre : list PathCmd) :
  forall (cs : list PathCmd) (dpre ds : list float64) (start : Point),
    curveFree pre = true -> arity pre = length dpre ->
    flattenSpec flat tol (pre ++ cs) (dpre ++ ds) start
    = (pre ++ fst (flattenSpec flat tol cs ds
                     (if Nat.eqb (length dpre) 0 then start else lastPoint dpre)),
       dpre ++ snd (flattenSpec flat tol cs ds
                      (if Nat.eqb (length dpre) 0 then start else lastPoint dpre))).
Proof.
  induction pre as [|c pre IH]; intros cs dpre ds start Hfree Har.
  - simpl in Har. symmetry in Har. apply length_zero_iff_nil in Har. subst dpre.
    simpl. destruct (flattenSpec flat tol cs ds start). reflexivity.
  - simpl in Hfree. apply andb_true_iff in Hfree as [Hc Hfree].
    apply negb_true_iff in Hc.
    destruct (split_args c pre dpre Har) as (args & dpre' & -> & Hargs & Har').
    pose proof (Len_ge_2 c) as Hlen.
    rewrite <- !app_assoc. cbn [app].
    rewrite flattenSpec_keep by assumption.
    rewrite IH by assumption. cbn [fst snd].
    replace (Nat.eqb (length (args ++ dpre')) 0) with false
      by (symmetry; apply Nat.eqb_neq; rewrite length_app; lia).
    destruct (Nat.eqb (length dpre') 0) eqn:E.
    + apply Nat.eqb_eq, length_zero_iff_nil in E. subst dpre'.
      rewrite app_nil_r. reflexivity.
    + apply Nat.eqb_neq in E.
      rewrite lastPoint_app; [reflexivity|].
      destruct pre as [|c' pre]; simpl in Har'; [lia|].
      pose proof (Len_ge_2 c'). lia.
Qed.

Lemma prevEnd_lastPoint (pre : list PathCmd) (dpre : list float64) :
  arity pre = length dpre ->
  mkPoint (fst (prevEnd dpre)) (snd (prevEnd dpre))
  = if Nat.eqb (length dpre) 0 then mkPoint 0%float 0%float else lastPoint dpre.
Proof.
  intros Har. unfold prevEnd.
  destruct pre as [|c pre]; simpl in Har.
  - symmetry in Har. apply length_zero_iff_nil in Har. subst dpre. reflexivity.
  - pose proof (Len_ge_2 c).
    replace (1 <? length dpre) with true by (symmetry; apply Nat.ltb_lt; lia).
    replace (Nat.eqb (length dpre) 0) with false by (symmetry; apply Nat.eqb_neq; lia).
    reflexivity.
Qed.

Hypothesis flat_arity :
  forall s c1 c2 e t tl, arityInv (flat s c1 c2 e t tl).

(** [FlattenBeziers] computes what the spec describes, on every path that
    satisfies the buffer invariant. *)
Lemma FlattenBeziers_flattened (p : Path) :
  arityInv p -> FlattenBeziers flat tol p = Ret (flattened flat tol p).
Proof.
  intros Hp. unfold FlattenBeziers, flattenInit, flattened.
  pose proof (flattenLoop_spec flat tol flat_arity (cmds p) [] [] (d p)
                (mkPoint 0%float 0%float) (x0 p) (y0 p) (length (cmds p)) Hp
                (Nat.le_refl _)) as H.
  simpl in H. unfold Copy. simpl. rewrite H.
  destruct (flattenSpec flat tol (cmds p) (d p) (mkPoint 0%float 0%float)).
  reflexivity.
Qed.

End FlattenTheorems.

(** C9. Given a flattener that returns well-formed polylines,
    [FlattenBeziers] returns a path without curves as it is, and replaces
    a QuadTo with control point (cx,cy) and end point (ex,ey), reached at
    pen position [start], by the flattener's polyline for the cubic
    [start, start + 2/3 (c - start), e + 2/3 (c - e), e]; on every path it
    computes the command-by-command flattening [flattened]. *)
Theorem FlattenBeziers_keeps_lines_elevates_quads
    (flat : Point -> Point -> Point -> Point -> float64 -> float64 -> Path)
    (tol : float64) :
  (forall s c1 c2 e t tl, arityInv (flat s c1 c2 e t tl)) ->
  (forall p, arityInv p -> curveFree (cmds p) = true ->
             FlattenBeziers flat tol p = Ret p)
  /\
  (forall pre suf dpre dsuf cx cy ex ey x y,
      curveFree pre = true -> arity pre = length dpre -> arity suf = length dsuf ->
      let start := mkPoint (fst (prevEnd dpre)) (snd (prevEnd dpre)) in
      let c1 := mkPoint (X start + 2 / 3 * (cx - X start))%float
                        (Y start + 2 / 3 * (cy - Y start))%float in
      let c2 := mkPoint (ex + 2 / 3 * (cx - ex))%float
                        (ey + 2 / 3 * (cy - ey))%float in
      let q := flat start c1 c2 (mkPoint ex ey) 0%float tol in
      let start' := if Nat.eqb (length (d q)) 0 then start else lastPoint (d q) in
      let rest := flattenSpec flat tol suf dsuf start' in
      FlattenBeziers flat tol
        (mkPath (pre ++ QuadToCmd :: suf) (dpre ++ cx :: cy :: ex :: ey :: dsuf) x y)
      = Ret (mkPath (pre ++ cmds q ++ fst rest) (dpre ++ d q ++ snd rest) x y))
  /\
  (forall p, arityInv p -> FlattenBeziers flat tol p = Ret (flattened flat tol p)).
Proof.
  intros Hflat. split; [|split].
  - intros p Hp Hfree. rewrite FlattenBeziers_flattened by assumption.
    unfold flattened. rewrite flattenSpec_curveFree by assumption.
    destruct p; reflexivity.
  - intros pre suf dpre dsuf cx cy ex ey x y Hfree Hpre Hsuf start c1 c2 q start' rest.
    rewrite FlattenBeziers_flattened; [|assumption|].
    + unfold flattened. cbn [cmds d x0 y0].
      rewrite flattenSpec_prefix by assumption.
      cbn [flattenSpec Len nth skipn]. unfold elevated. cbn [X Y].
      rewrite <- (prevEnd_lastPoint pre dpre Hpre).
      fold start. fold c1. fold c2. fold q. fold start'. fold rest.
      destruct rest as [rc rd]. reflexivity.
    + unfold arityInv. cbn [cmds d]. rewrite arity_app, length_app. simpl. lia.
  - intros p Hp. apply FlattenBeziers_flattened; assumption.
Qed.

Lemma chordFlattener_arityInv s c1 c2 e t tl :
  arityInv (chordFlattener s c1 c2 e t tl).
Proof.
  unfold chordFlattener.
  destruct (Equal (X s) (X e) && Equal (Y s) (Y e)); reflexivity.
Qed.

Lemma FlattenBeziers_keeps_lines_elevates_quads_witness :
  (forall s c1 c2 e t tl, arityInv (chordFlattener s c1 c2 e t tl)) /\
  FlattenBeziers chordFlattener 0.5%float
    (mkPath [MoveToCmd; QuadToCmd; LineToCmd] [0; 0; 1; 1; 2; 0; 5; 5]%float
       0%float 0%float)
  = Ret (mkPath [MoveToCmd; LineToCmd; LineToCmd] [0; 0; 2; 0; 5; 5]%float
           0%float 0%float).
Proof.
  split; [exact chordFlattener_arityInv|].
  exact (proj1 (proj2 (FlattenBeziers_keeps_lines_elevates_quads
                         chordFlattener 0.5%float chordFlattener_arityInv))
           [MoveToCmd] [LineToCmd] [0; 0]%float [5; 5]%float
           1%float 1%float 2%float 0%float 0%float 0%float
           eq_refl eq_refl eq_refl).
Defined.

(** C6. For a path that satisfies the buffer invariant, [Split] returns;
    the command sequences of its fragments, concatenated in order, are the
    path's command sequence, and likewise for the coordinates; and every
    fragment is cut at the boundaries: it is not empty, no MoveTo comes
    after its first command and no Close before its last. *)
Theorem Split_rejoin (p : Path) :
  arityInv p ->
  exists ps,
    Split p = Ret ps /\
    concat (map cmds ps) = cmds p /\
    concat (map d ps) = d p /\
    forallb cutAtBoundaries ps = true.
Proof.
  intros Hp.
  destruct (splitLoop_spec p (cmds p) [] [] [] [] (d p) [] false 0%float 0%float
              eq_refl eq_refl eq_refl Hp (conj eq_refl eq_refl))
    as (frags & Hrun & Hcs & Hds & _ & Hcut).
  exists frags. repeat split; assumption.
Qed.

Lemma Split_rejoin_witness :
  let p := (LineTo (Rect (Rect emptyPath 0 0 1 1) 5 5 1 1) 8 8)%float in
  arityInv p /\
  exists ps,
    Split p = Ret ps /\
    concat (map cmds ps) = cmds p /\
    concat (map d ps) = d p /\
    forallb cutAtBoundaries ps = true.
Proof.
  split; [reflexivity|].
  apply (Split_rejoin (LineTo (Rect (Rect emptyPath 0 0 1 1) 5 5 1 1) 8 8)%float).
  reflexivity.
Defined.

Lemma Split_arityInv (p : Path) (ps : list Path) :
  arityInv p -> Split p = Ret ps -> Forall arityInv ps.
Proof.
  intros Hp H.
  destruct (splitLoop_spec p (cmds p) [] [] [] [] (d p) [] false 0%float 0%float
              eq_refl eq_refl eq_refl Hp (conj eq_refl eq_refl))
    as (frags & Hrun & _ & _ & Hinv & _).
  unfold Split in H. simpl in Hrun. rewrite Hrun in H. injection H as <-.
  exact Hinv.
Qed.

(** ** Slices that share an array *)

Section ArrayFacts.

Variable T : Type.
Variable zero : T.
Variable slack : nat -> nat -> nat.

Lemma array_setArray (m : memory T) (a : nat) (v : list T) :
  a < length m -> array (setArray m a v) a = v.
Proof.
  revert a. induction m as [|x m IH]; intros a H; [simpl in H; lia|].
  destruct a; [reflexivity|]. simpl in H. apply IH. lia.
Qed.

Lemma array_in_memory (m : memory T) (a : nat) :
  0 < length (array m a) -> a < length m.
Proof.
  intros H. destruct (Nat.lt_ge_cases a (length m)) as [|Hge]; [assumption|].
  unfold array in H. rewrite nth_overflow in H by exact Hge. simpl in H. lia.
Qed.

Lemma array_app_old (m : memory T) (a : nat) (v : list T) :
  0 < length (array m a) -> array (m ++ [v]) a = array m a.
Proof.
  intros H. unfold array. apply app_nth1. apply array_in_memory. exact H.
Qed.

Lemma array_app_new (m : memory T) (v : list T) :
  array (m ++ [v]) (length m) = v.
Proof. unfold array. rewrite app_nth2, Nat.sub_diag by lia. reflexivity. Qed.

Lemma view_length (m : memory T) (s : sliceH) :
  wfSlice m s -> length (view m s) = s_len s.
Proof.
  intros [H1 H2]. unfold view. rewrite length_firstn, length_skipn. lia.
Qed.

(** The array of a slice: what precedes the slice, what it shows, and what
    follows. *)
Lemma view_decompose (m : memory T) (s : sliceH) :
  wfSlice m s ->
  exists pre post,
    array m (s_arr s) = pre ++ view m s ++ post /\ length pre = s_off s.
Proof.
  intros [H1 H2].
  exists (firstn (s_off s) (array m (s_arr s))),
         (skipn (s_len s) (skipn (s_off s) (array m (s_arr s)))).
  unfold view. rewrite !firstn_skipn. split; [reflexivity|].
  rewrite length_firstn. lia.
Qed.

Lemma skipn_length_app (pre l : list T) (k : nat) :
  skipn (length pre + k) (pre ++ l) = skipn k l.
Proof. induction pre as [|x pre IH]; [reflexivity | exact IH]. Qed.

Lemma firstn_length_app_plus (pre l : list T) (k : nat) :
  firstn (length pre + k) (pre ++ l) = pre ++ firstn k l.
Proof.
  induction pre as [|x pre IH]; [reflexivity|]. simpl. rewrite IH. reflexivity.
Qed.

Lemma view_at (m : memory T) (a : nat) (pre body : list T) (k n c : nat) :
  array m a = pre ++ body ->
  view m (mkSlice a (length pre + k) n c) = firstn n (skipn k body).
Proof.
  intros H. unfold view. cbn [s_arr s_off s_len]. rewrite H, skipn_length_app.
  reflexivity.
Qed.

Lemma view_at0 (m : memory T) (a : nat) (pre body : list T) (n c : nat) :
  array m a = pre ++ body ->
  view m (mkSlice a (length pre) n c) = firstn n body.
Proof.
  intros H. rewrite <- (Nat.add_0_r (length pre)).
  rewrite (view_at m a pre body 0 n c H). reflexivity.
Qed.

Lemma overwrite_at (pre body xs : list T) (k : nat) :
  overwrite (pre ++ body) (length pre + k) xs = pre ++ overwrite body k xs.
Proof.
  unfold overwrite.
  rewrite firstn_length_app_plus, <- Nat.add_assoc, skipn_length_app, <- app_assoc.
  reflexivity.
Qed.

(** [append] gives a slice that shows the old elements and then the new
    ones, and that lies within its array. *)
Lemma appendH_view (m : memory T) (s : sliceH) (xs : list T) :
  wfSlice m s ->
  wfSlice (fst (appendH zero slack m s xs)) (snd (appendH zero slack m s xs)) /\
  view (fst (appendH zero slack m s xs)) (snd (appendH zero slack m s xs))
  = view m s ++ xs.
Proof.
  intros Hwf. pose proof (view_length m s Hwf) as Hlen.
  destruct (view_decompose m s Hwf) as (pre & post & Harr & Hpre).
  destruct Hwf as [H1 H2]. unfold appendH.
  destruct (s_len s + length xs <=? s_cap s) eqn:E; cbn [fst snd].
  - apply Nat.leb_le in E.
    destruct xs as [|x xs].
    + (* nothing to write *)
      assert (Hsame : array (setArray m (s_arr s)
                               (overwrite (array m (s_arr s)) (s_off s + s_len s) []))
                            (s_arr s)
                      = array m (s_arr s)).
      { destruct (Nat.lt_ge_cases (s_arr s) (length m)) as [Hin|Hout].
        - rewrite array_setArray by exact Hin. unfold overwrite.
          cbn [app length]. rewrite Nat.add_0_r. apply firstn_skipn.
        - assert (Hm : forall v, setArray m (s_arr s) v = m).
          { clear -Hout. revert Hout. generalize (s_arr s) as a.
            induction m as [|y m IH]; intros a Hout v; [reflexivity|].
            destruct a; simpl in *; [lia|]. f_equal. apply IH. lia. }
          rewrite Hm. reflexivity. }
      unfold wfSlice, view. cbn [s_arr s_off s_len s_cap length].
      rewrite Hsame, Nat.add_0_r, app_nil_r. repeat split; assumption.
    + assert (Hin : s_arr s < length m).
      { apply array_in_memory. cbn [length] in E. lia. }
      (* the room after the slice *)
      assert (Hroom : exists old post', post = old ++ post' /\
                                         length old = length (x :: xs)).
      { exists (firstn (length (x :: xs)) post), (skipn (length (x :: xs)) post).
        rewrite firstn_skipn. split; [reflexivity|].
        rewrite length_firstn. apply Nat.min_l.
        rewrite Harr, !length_app, Hlen in H2. lia. }
      destruct Hroom as (old & post' & -> & Hold).
      assert (Hnew : array (setArray m (s_arr s)
                              (overwrite (array m (s_arr s)) (s_off s + s_len s) (x :: xs)))
                           (s_arr s)
                     = pre ++ view m s ++ (x :: xs) ++ post').
      { rewrite array_setArray by exact Hin. rewrite Harr, <- Hpre.
        rewrite overwrite_at. f_equal. rewrite <- Hlen.
        rewrite <- (Nat.add_0_r (length (view m s))), overwrite_at.
        f_equal. unfold overwrite. cbn [firstn Nat.add app].
        rewrite <- Hold, <- (Nat.add_0_r (length old)), skipn_length_app.
        reflexivity. }
      split.
      * unfold wfSlice. cbn [s_arr s_off s_len s_cap]. split; [exact E|].
        rewrite Hnew. rewrite Harr in H2.
        rewrite !length_app in *. rewrite Hold in H2. lia.
      * unfold view at 1. cbn [s_arr s_off s_len]. rewrite Hnew, <- Hpre.
        rewrite <- (Nat.add_0_r (length pre)), skipn_length_app.
        cbn [skipn]. rewrite <- Hlen, <- length_app, app_assoc.
        rewrite <- (Nat.add_0_r (length (view m s ++ x :: xs))).
        rewrite firstn_length_app_plus. cbn [firstn]. apply app_nil_r.
  - apply Nat.leb_gt in E. split.
    + unfold wfSlice. cbn [s_arr s_off s_len s_cap]. rewrite array_app_new.
      split; [lia|]. rewrite !length_app, repeat_length, Hlen. lia.
    + unfold view at 1. cbn [s_arr s_off s_len skipn]. rewrite array_app_new.
      rewrite app_assoc, <- Hlen, <- length_app.
      rewrite <- (Nat.add_0_r (length (view m s ++ xs))).
      rewrite firstn_length_app_plus. cbn [firstn]. apply app_nil_r.
Qed.

End ArrayFacts.

Lemma nth_error_setNth {A : Type} (l : list A) (n : nat) (a : A) :
  n < length l -> nth_error (setNth l n a) n = Some a.
Proof.
  revert n. induction l as [|x l IH]; intros n H; [simpl in H; lia|].
  destruct n; [reflexivity|]. simpl in H. apply IH. lia.
Qed.

Lemma nth_error_setNth_other {A : Type} (l : list A) (n k : nat) (a : A) :
  n <> k -> nth_error (setNth l n a) k = nth_error l k.
Proof.
  revert n k. induction l as [|x l IH]; intros n k H; [reflexivity|].
  destruct n, k; try reflexivity; [congruence|]. simpl. apply IH. congruence.
Qed.

Lemma length_setNth {A : Type} (l : list A) (n : nat) (a : A) :
  length (setNth l n a) = length l.
Proof.
  revert n. induction l as [|x l IH]; intros n; [reflexivity|].
  destruct n; simpl; [reflexivity|]. rewrite IH. reflexivity.
Qed.

Lemma bindH_Ret {A B : Type} (m : heapM A) (k : A -> heapM B) (h h' : heap) (a : A) :
  m h = Ret (a, h') -> bindH m k h = k a h'.
Proof. intros H. unfold bindH. rewrite H. reflexivity. Qed.

Section HeapFacts.

Variable slackCmd slackNum : nat -> nat -> nat.

(** The common shape of the builders: one command and its numbers are
    appended to the slices of the receiver. *)
Lemma append_both (h : heap) (p : nat) (P : PathH) (c : PathCmd)
    (nums : list float64) (x y : float64) :
  nth_error (objs h) p = Some P ->
  wfSlice (cmdMem h) (hcmds P) -> wfSlice (numMem h) (hd P) ->
  exists h',
    bindH (appendCmds slackCmd (hcmds P) [c])
      (fun c' => bindH (appendNums slackNum (hd P) nums)
         (fun f => setPath p (mkPathH c' f x y))) h
    = Ret (tt, h') /\
    holds h' p (mkPath (view (cmdMem h) (hcmds P) ++ [c])
                       (view (numMem h) (hd P) ++ nums) x y) /\
    length (objs h') = length (objs h).
Proof.
  intros Hn Hc Hd.
  destruct (appendH_view _ MoveToCmd slackCmd _ _ [c] Hc) as [Wc Vc].
  destruct (appendH_view _ 0%float slackNum _ _ nums Hd) as [Wd Vd].
  unfold bindH, appendCmds, appendNums, setPath.
  destruct (appendH MoveToCmd slackCmd (cmdMem h) (hcmds P) [c]) as [m1 c1].
  cbn [cmdMem numMem objs].
  destruct (appendH 0%float slackNum (numMem h) (hd P) nums) as [m2 f2].
  cbn [fst snd] in *.
  eexists. split; [reflexivity|]. cbn [objs]. split; [|apply length_setNth].
  exists (mkPathH c1 f2 x y). cbn [cmdMem numMem objs hcmds hd hx0 hy0].
  unfold float64 in *. rewrite Vc, Vd.
  split; [apply nth_error_setNth, nth_error_Some; congruence|].
  split; [exact Wc|]. split; [exact Wd|]. reflexivity.
Qed.

Lemma MoveToH_refines (h : heap) (p : nat) (v : Path) (x y : float64) :
  holds h p v ->
  exists h', MoveToH slackCmd slackNum p x y h = Ret (tt, h') /\
             holds h' p (MoveTo v x y) /\ length (objs h') = length (objs h).
Proof.
  intros (P & Hn & Hc & Hd & <-). unfold MoveToH.
  erewrite bindH_Ret by (unfold getPath; rewrite Hn; reflexivity).
  apply (append_both h p P MoveToCmd [x; y] x y Hn Hc Hd).
Qed.

Lemma LineToH_refines (h : heap) (p : nat) (v : Path) (x y : float64) :
  holds h p v ->
  exists h', LineToH slackCmd slackNum p x y h = Ret (tt, h') /\
             holds h' p (LineTo v x y) /\ length (objs h') = length (objs h).
Proof.
  intros (P & Hn & Hc & Hd & <-). unfold LineToH.
  erewrite bindH_Ret by (unfold getPath; rewrite Hn; reflexivity).
  apply (append_both h p P LineToCmd [x; y] (hx0 P) (hy0 P) Hn Hc Hd).
Qed.

Lemma QuadToH_refines (h : heap) (p : nat) (v : Path) (x1 y1 x y : float64) :
  holds h p v ->
  exists h', QuadToH slackCmd slackNum p x1 y1 x y h = Ret (tt, h') /\
             holds h' p (QuadTo v x1 y1 x y) /\ length (objs h') = length (objs h).
Proof.
  intros (P & Hn & Hc & Hd & <-). unfold QuadToH.
  erewrite bindH_Ret by (unfold getPath; rewrite Hn; reflexivity).
  apply (append_both h p P QuadToCmd [x1; y1; x; y] (hx0 P) (hy0 P) Hn Hc Hd).
Qed.

Lemma CubeToH_refines (h : heap) (p : nat) (v : Path) (x1 y1 x2 y2 x y : float64) :
  holds h p v ->
  exists h', CubeToH slackCmd slackNum p x1 y1 x2 y2 x y h = Ret (tt, h') /\
             holds h' p (CubeTo v x1 y1 x2 y2 x y) /\
             length (objs h') = length (objs h).
Proof.
  intros (P & Hn & Hc & Hd & <-). unfold CubeToH.
  erewrite bindH_Ret by (unfold getPath; rewrite Hn; reflexivity).
  apply (append_both h p P CubeToCmd [x1; y1; x2; y2; x; y] (hx0 P) (hy0 P) Hn Hc Hd).
Qed.

Lemma ArcToH_refines (h : heap) (p : nat) (v : Path) (rx ry rot : float64)
    (large sweep : bool) (x y : float64) :
  holds h p v ->
  exists h', ArcToH slackCmd slackNum p rx ry rot large sweep x y h = Ret (tt, h') /\
             holds h' p (ArcTo v rx ry rot large sweep x y) /\
             length (objs h') = length (objs h).
Proof.
  intros (P & Hn & Hc & Hd & <-). unfold ArcToH.
  erewrite bindH_Ret by (unfold getPath; rewrite Hn; reflexivity).
  apply (append_both h p P ArcToCmd
           [rx; ry; rot; if large then 1%float else 0%float;
            if sweep then 1%float else 0%float; x; y] (hx0 P) (hy0 P) Hn Hc Hd).
Qed.

Lemma CloseH_refines (h : heap) (p : nat) (v : Path) :
  holds h p v ->
  exists h', CloseH slackCmd slackNum p h = Ret (tt, h') /\
             holds h' p (Close v) /\ length (objs h') = length (objs h).
Proof.
  intros (P & Hn & Hc & Hd & <-). unfold CloseH.
  erewrite bindH_Ret by (unfold getPath; rewrite Hn; reflexivity).
  apply (append_both h p P CloseCmd [hx0 P; hy0 P] (hx0 P) (hy0 P) Hn Hc Hd).
Qed.

End HeapFacts.

Section SharedFragments.

Variable slackCmd slackNum : nat -> nat -> nat.

(** [Split] and then a QuadTo on the first fragment, from any heap in which
    the one path has the four commands: both appends of QuadTo find room in
    the arrays of [p], after the two commands and four numbers of the first
    fragment, where the second fragment begins. *)
Lemma Split_then_QuadTo (h : heap) (P : PathH) :
  objs h = [P] ->
  wfSlice (cmdMem h) (hcmds P) -> wfSlice (numMem h) (hd P) ->
  view (cmdMem h) (hcmds P) = [MoveToCmd; LineToCmd; MoveToCmd; LineToCmd] ->
  view (numMem h) (hd P) = [0; 0; 1; 1; 2; 2; 3; 3]%float ->
  exists h',
    (ps <- SplitH 0 ;;
     f <- liftH (idx ps 0) ;;
     QuadToH slackCmd slackNum f 9%float 9%float 9%float 9%float ;;
     retH (0, ps))%heap h = Ret ((0, [1; 2]), h') /\
    pathValue h' 2
    = Some (mkPath [QuadToCmd; LineToCmd] [9; 9; 9; 9]%float 2%float 2%float) /\
    pathValue h' 0
    = Some (mkPath [MoveToCmd; LineToCmd; QuadToCmd; LineToCmd]
              [0; 0; 1; 1; 9; 9; 9; 9]%float (hx0 P) (hy0 P)).
Proof.
  intros Ho Wc Wd Vc Vd.
  pose proof (view_length _ _ _ Wc) as Lc. rewrite Vc in Lc.
  pose proof (view_length _ _ _ Wd) as Ld. rewrite Vd in Ld.
  destruct (view_decompose _ _ _ Wc) as (prec & postc & Ac & Oc). rewrite Vc in Ac.
  destruct (view_decompose _ _ _ Wd) as (pred & postd & Ad & Od). rewrite Vd in Ad.
  destruct h as [cm nm os]. cbn [objs cmdMem numMem] in *. subst os.
  destruct P as [[ca co cl cc] [da do dl dc] px py].
  cbn [hcmds hd hx0 hy0 s_arr s_off s_len s_cap] in *.
  destruct Wc as [Wc1 Wc2]. destruct Wd as [Wd1 Wd2].
  cbn [s_arr s_off s_len s_cap length] in *.
  subst cl dl co do.
  assert (Hcc : exists cc', cc = 4 + cc') by (exists (cc - 4); lia).
  assert (Hdc : exists dc', dc = 8 + dc') by (exists (dc - 8); lia).
  destruct Hcc as [cc' ->]. destruct Hdc as [dc' ->].
  assert (Hca : ca < length cm) by (apply array_in_memory; lia).
  assert (Hda : da < length nm) by (apply array_in_memory; lia).
  erewrite (bindH_Ret (SplitH 0)).
  2:{ unfold SplitH. erewrite bindH_Ret by reflexivity. cbv beta.
      unfold bindH. cbn [objs nth_error cmdMem numMem hcmds hd].
      unfold float64 in *. rewrite Vc, Vd. cbn. reflexivity. }
  cbn [seq length app].
  erewrite bindH_Ret by reflexivity.
  unfold QuadToH.
  erewrite bindH_Ret.
  2:{ erewrite bindH_Ret by reflexivity.
      unfold bindH, appendCmds, appendNums, appendH, setPath.
      cbn [hcmds hd s_arr s_off s_len s_cap length Nat.add Nat.leb cmdMem numMem objs].
      reflexivity. }
  unfold retH. eexists. split; [reflexivity|].
  unfold pathValue. cbn [objs setNth nth_error cmdMem numMem hcmds hd hx0 hy0].
  assert (Hc' : array (setArray cm ca
                        (overwrite (array cm ca) (length prec + 0 + 2) [QuadToCmd])) ca
               = prec ++ [MoveToCmd; LineToCmd; QuadToCmd; LineToCmd] ++ postc).
  { rewrite array_setArray by exact Hca.
    rewrite Ac, Nat.add_0_r, overwrite_at. reflexivity. }
  assert (Hd' : array (setArray nm da
                        (overwrite (array nm da) (length pred + 0 + 4)
                           [9; 9; 9; 9]%float)) da
               = pred ++ [0; 0; 1; 1; 9; 9; 9; 9]%float ++ postd).
  { rewrite array_setArray by exact Hda.
    rewrite Ad, Nat.add_0_r, overwrite_at. reflexivity. }
  rewrite !(view_at _ _ _ _ _ _ _ _ Hc'), !(view_at _ _ _ _ _ _ _ _ Hd').
  rewrite !(view_at0 _ _ _ _ _ _ _ Hc'), !(view_at0 _ _ _ _ _ _ _ Hd').
  split; reflexivity.
Qed.

(** C4. The buffer invariant does not hold of every path the builders and
    the algebra produce.  Whatever capacity [append] allocates when it
    grows a slice, after
    [p.MoveTo(0, 0); p.LineTo(1, 1); p.MoveTo(2, 2); p.LineTo(3, 3)],
    [ps := p.Split()] and [ps[0].QuadTo(9, 9, 9, 9)], the fragment [ps[1]]
    has the commands QuadTo, LineTo (arity 6) over the four numbers
    9 9 9 9, and [p] has the commands MoveTo, LineTo, QuadTo, LineTo
    (arity 10) over eight numbers: the fragments of [Split] are slices of
    the arrays of [p], and the builder wrote into them.  [ToSVGPath] then
    panics on [ps[1]]. *)
Theorem Split_fragments_share_buffers :
  exists h,
    splitThenDraw slackCmd slackNum emptyHeap = Ret ((0, [1; 2]), h) /\
    pathValue h 2
    = Some (mkPath [QuadToCmd; LineToCmd] [9; 9; 9; 9]%float 2%float 2%float) /\
    pathValue h 0
    = Some (mkPath [MoveToCmd; LineToCmd; QuadToCmd; LineToCmd]
              [0; 0; 1; 1; 9; 9; 9; 9]%float 2%float 2%float) /\
    ~ arityInv (mkPath [QuadToCmd; LineToCmd] [9; 9; 9; 9]%float 2%float 2%float) /\
    ~ arityInv (mkPath [MoveToCmd; LineToCmd; QuadToCmd; LineToCmd]
                  [0; 0; 1; 1; 9; 9; 9; 9]%float 2%float 2%float) /\
    ToSVGPath (mkPath [QuadToCmd; LineToCmd] [9; 9; 9; 9]%float 2%float 2%float)
    = Panic.
Proof.
  unfold splitThenDraw.
  rewrite (bindH_Ret _ _ emptyHeap _ 0 eq_refl).
  set (h0 := mkHeap [] [] [mkPathH nilSlice nilSlice 0%float 0%float]).
  assert (H0 : holds h0 0 emptyPath).
  { eexists. split; [reflexivity|]. unfold wfSlice. cbn. repeat split; lia. }
  destruct (MoveToH_refines slackCmd slackNum h0 0 _ 0%float 0%float H0)
    as (h1 & E1 & H1 & L1).
  rewrite (bindH_Ret _ _ _ _ _ E1).
  destruct (LineToH_refines slackCmd slackNum h1 0 _ 1%float 1%float H1)
    as (h2 & E2 & H2 & L2).
  rewrite (bindH_Ret _ _ _ _ _ E2).
  destruct (MoveToH_refines slackCmd slackNum h2 0 _ 2%float 2%float H2)
    as (h3 & E3 & H3 & L3).
  rewrite (bindH_Ret _ _ _ _ _ E3).
  destruct (LineToH_refines slackCmd slackNum h3 0 _ 3%float 3%float H3)
    as (h4 & E4 & H4 & L4).
  rewrite (bindH_Ret _ _ _ _ _ E4).
  destruct H4 as (P & Hn & Wc & Wd & Hv).
  assert (Ho : objs h4 = [P]).
  { rewrite L3, L2, L1 in L4. cbn in L4.
    destruct (objs h4) as [|Q [|Q' l]]; try discriminate.
    cbn in Hn. congruence. }
  injection Hv as Vc Vd Vx Vy. cbn in Vc, Vd.
  destruct (Split_then_QuadTo h4 P Ho Wc Wd Vc Vd) as (h & Erun & Hf1 & Hp).
  exists h. rewrite Erun, Hf1, Hp, Vx, Vy.
  repeat split; try reflexivity; unfold arityInv; cbn; lia.
Qed.

End SharedFragments.

(** * Further properties of the code *)

(** * Further properties *)

(** ** The pen position *)

Lemma prevEnd_app (a b : list float64) :
  2 <= length b -> prevEnd (a ++ b) = prevEnd b.
Proof.
  intros H. unfold prevEnd. rewrite length_app.
  replace (1 <? length a + length b) with true by (symmetry; apply Nat.ltb_lt; lia).
  replace (1 <? length b) with true by (symmetry; apply Nat.ltb_lt; lia).
  rewrite !app_nth2 by lia. f_equal; f_equal; lia.
Qed.

(** X1. After a builder call the pen position [Pos] is the end point that
    was given; after [Close] it is the subpath start [Start]; [Rect] and
    [Ellipse] end where they began. *)
Theorem Pos_after_builder (p : Path) (a b c e x y w h : float64) (l s : bool) :
  Pos (MoveTo p x y) = (x, y) /\
  Pos (LineTo p x y) = (x, y) /\
  Pos (QuadTo p a b x y) = (x, y) /\
  Pos (CubeTo p a b c e x y) = (x, y) /\
  Pos (ArcTo p a b c l s x y) = (x, y) /\
  Pos (Close p) = Start p /\
  Pos (Rect p x y w h) = (x, y) /\
  Pos (Ellipse p x y a b) = ((x + a)%float, y).
Proof.
  unfold Pos, Rect, Ellipse, MoveTo, LineTo, QuadTo, CubeTo, ArcTo, Close, Start.
  cbn [d x0 y0].
  repeat split; rewrite prevEnd_app by (simpl; lia); reflexivity.
Qed.

(** ** The start cache *)

Lemma lastMoveTo_app (cs cs' : list PathCmd) :
  forall (ds ds' : list float64) (acc : float64 * float64),
    arity cs = length ds ->
    lastMoveTo (cs ++ cs') (ds ++ ds') acc = lastMoveTo cs' ds' (lastMoveTo cs ds acc).
Proof.
  induction cs as [|c cs IH]; intros ds ds' acc H.
  - simpl in H. symmetry in H. apply length_zero_iff_nil in H. subst ds. reflexivity.
  - destruct (split_args c cs ds H) as (args & dr & -> & Hargs & Hr).
    destruct (firstn_args (Len c) args dr Hargs) as [_ E1].
    destruct (firstn_args (Len c) args (dr ++ ds') Hargs) as [_ E2].
    pose proof (Len_ge_2 c) as Hlen.
    rewrite <- !app_assoc. cbn [app lastMoveTo]. rewrite E1, E2.
    rewrite IH by assumption.
    destruct args as [|a0 [|a1 args]]; simpl in Hargs; try lia.
    reflexivity.
Qed.

Lemma emptyPath_cacheInv : cacheInv emptyPath.
Proof. split; reflexivity. Qed.

Lemma MoveTo_cacheInv p x y : cacheInv p -> cacheInv (MoveTo p x y).
Proof.
  intros [Ha Hs]. split; [auto with arity|].
  unfold Start, lastMoveToOf, MoveTo. cbn [cmds d x0 y0].
  rewrite lastMoveTo_app by exact Ha. reflexivity.
Qed.

Ltac keep_cache :=
  intros [Ha Hs]; split; [auto with arity|];
  unfold Start, lastMoveToOf, LineTo, QuadTo, CubeTo, ArcTo, Close in *;
  cbn [cmds d x0 y0] in *;
  rewrite lastMoveTo_app by exact Ha; exact Hs.

Lemma LineTo_cacheInv p x y : cacheInv p -> cacheInv (LineTo p x y).
Proof. keep_cache. Qed.

Lemma QuadTo_cacheInv p x1 y1 x y : cacheInv p -> cacheInv (QuadTo p x1 y1 x y).
Proof. keep_cache. Qed.

Lemma CubeTo_cacheInv p x1 y1 x2 y2 x y :
  cacheInv p -> cacheInv (CubeTo p x1 y1 x2 y2 x y).
Proof. keep_cache. Qed.

Lemma ArcTo_cacheInv p rx ry rot large sweep x y :
  cacheInv p -> cacheInv (ArcTo p rx ry rot large sweep x y).
Proof. keep_cache. Qed.

Lemma Close_cacheInv p : cacheInv p -> cacheInv (Close p).
Proof. keep_cache. Qed.

Create HintDb cache.

#[local] Hint Resolve emptyPath_cacheInv MoveTo_cacheInv LineTo_cacheInv
  QuadTo_cacheInv CubeTo_cacheInv ArcTo_cacheInv Close_cacheInv : cache.

(** X2. Every builder keeps the start cache right: after [MoveTo],
    [LineTo], [QuadTo], [CubeTo], [ArcTo], [Close], [Rect] or [Ellipse] on a
    path whose [x0, y0] are its last MoveTo, they still are. *)
Theorem builders_cacheInv (p : Path) (a b c e x y : float64) (l s : bool) :
  cacheInv p ->
  cacheInv (MoveTo p x y) /\ cacheInv (LineTo p x y) /\
  cacheInv (QuadTo p a b x y) /\ cacheInv (CubeTo p a b c e x y) /\
  cacheInv (ArcTo p a b c l s x y) /\ cacheInv (Close p) /\
  cacheInv (Rect p x y a b) /\ cacheInv (Ellipse p x y a b).
Proof.
  intros H. unfold Rect, Ellipse.
  repeat match goal with |- _ /\ _ => split end; auto 10 with cache.
Qed.

Lemma builders_cacheInv_witness :
  cacheInv emptyPath /\
  cacheInv (Rect (MoveTo emptyPath 3 4) 0 0 10 20)%float.
Proof.
  split; [exact emptyPath_cacheInv|].
  apply (builders_cacheInv (MoveTo emptyPath 3 4) 10 20 0 0 0 0 false false)%float.
  apply (builders_cacheInv emptyPath 0 0 0 0 3 4 false false emptyPath_cacheInv)%float.
Defined.

Lemma reverseStep_cacheInv p icmd st st' :
  cacheInv (rv_ip st) -> reverseStep p icmd st = Ret st' -> cacheInv (rv_ip st').
Proof.
  unfold reverseStep. destruct st as [i xEnd yEnd xStart yStart closed ip].
  cbn [rv_ip]. intros Hip H.
  destruct (idx (cmds p) icmd) as [cmd| |]; cbn [bind] in H; try discriminate H.
  match type of H with
  | bind ?m _ = _ =>
    destruct m as [[[[[i' xe] ye] cl] ip']| |] eqn:E;
      cbn [bind] in H; try discriminate H
  end.
  injection H as <-. cbn [rv_ip].
  destruct cmd; run_branches E; try discriminate E;
    inversion E; subst; auto with cache.
Qed.

Lemma reverseLoop_cacheInv p n : forall st r,
  cacheInv (rv_ip st) -> reverseLoop p n st = Ret r -> cacheInv r.
Proof.
  induction n as [|n IH]; intros st r Hip H; simpl in H.
  - injection H as <-. destruct (rv_closed st); auto with cache.
  - destruct (reverseStep p n st) as [st'| |] eqn:E; cbn [bind] in H;
      try discriminate H.
    eapply IH; [|exact H]. eapply reverseStep_cacheInv; eassumption.
Qed.

(** X3. Whatever path [Reverse] is given, the path it returns has a right
    start cache: [Start] is its last MoveTo, (0,0) when it has none. *)
Theorem Reverse_cacheInv (p r : Path) : Reverse p = Ret r -> cacheInv r.
Proof.
  unfold Reverse. destruct (Nat.eqb (length (cmds p)) 0).
  - intros H. injection H as <-. exact emptyPath_cacheInv.
  - destruct (prevEnd (d p)) as [xEnd yEnd]. apply reverseLoop_cacheInv.
    cbn [rv_ip].
    match goal with |- context [if ?b then _ else _] => destruct b end;
      auto with cache.
Qed.

Lemma Reverse_cacheInv_witness :
  Reverse (Rect emptyPath 5 5 10 20)%float
  = Ret (mkPath [MoveToCmd; LineToCmd; LineToCmd; LineToCmd; CloseCmd]
           [5; 5; 5; 25; 15; 25; 15; 5; 5; 5]%float 5%float 5%float)
  /\ cacheInv (mkPath [MoveToCmd; LineToCmd; LineToCmd; LineToCmd; CloseCmd]
                [5; 5; 5; 25; 15; 25; 15; 5; 5; 5]%float 5%float 5%float).
Proof.
  split; [vm_compute; reflexivity|].
  apply (Reverse_cacheInv (Rect emptyPath 5 5 10 20)%float).
  vm_compute. reflexivity.
Defined.

(** ** What the parser returns *)

Lemma parseStep_cacheInv (path : list byte) (st st' : parse_state) :
  cacheInv (ps_p st) -> parseStep path st = Ret st' -> cacheInv (ps_p st').
Proof.
  unfold parseStep. destruct st as [i prevCmd cpx cpy p]. cbn [ps_p].
  intros Hp H.
  destruct (idx path (i + skipCommaWhitespace (skipn i path))) as [c| |];
    cbn [bind] in H; try discriminate H.
  destruct (65 <=? byte_val c); destruct (Pos p) as [x y]; cbv beta iota in H;
    repeat match type of H with
           | context [if ?b then _ else _] => destruct b; cbv beta iota in H
           | context [num ?s ?k] => destruct (num s k); cbv beta iota in H
           end;
    injection H as <-; cbn [ps_p]; auto with cache.
Qed.

Lemma parseLoop_cacheInv (path : list byte) (fuel : nat) :
  forall st r, cacheInv (ps_p st) -> parseLoop fuel path st = Ret r -> cacheInv r.
Proof.
  induction fuel as [|fuel IH]; intros st r Hp H; simpl in H;
    destruct (ps_i st <? length path); try discriminate H;
    try (injection H as <-; exact Hp).
  destruct (parseStep path st) as [st'| |] eqn:E; cbn [bind] in H;
    try discriminate H.
  eapply IH; [|exact H]. eapply parseStep_cacheInv; eassumption.
Qed.

(** X4. Whenever [ParseSVGPath] returns, whatever the text, the path it
    returns satisfies the buffer invariant and has a right start cache: the
    parser only ever goes through the builders. *)
Theorem ParseSVGPath_cacheInv (fuel : nat) (s : string) (r : Path) :
  ParseSVGPath fuel s = Ret r -> arityInv r /\ Start r = lastMoveToOf r.
Proof.
  unfold ParseSVGPath. intros H.
  apply (parseLoop_cacheInv _ _ parseInit r emptyPath_cacheInv H).
Qed.

Lemma ParseSVGPath_cacheInv_witness :
  let r := mkPath [MoveToCmd; LineToCmd; MoveToCmd; QuadToCmd; CloseCmd]
             [1; 2; 4; 6; 7; 7; 8; 8; 9; 7; 7; 7]%float 7%float 7%float in
  ParseSVGPath 5 "M1 2l3 4M7 7q1 1 2 0z" = Ret r /\
  (arityInv r /\ Start r = lastMoveToOf r).
Proof.
  split; [vm_compute; reflexivity|].
  apply (ParseSVGPath_cacheInv 5 "M1 2l3 4M7 7q1 1 2 0z"). vm_compute. reflexivity.
Defined.

(** ** Separators, and texts the parser does not survive *)

(** X5. [skipCommaWhitespace] returns the length of the longest prefix made
    of spaces, commas, line feeds, carriage returns and tabs: it never
    exceeds the length of the text, everything before it is a separator and
    the byte at it, if any, is not. *)
Theorem skipCommaWhitespace_longest_prefix (path : list byte) :
  skipCommaWhitespace path <= length path /\
  forallb isSpace (firstn (skipCommaWhitespace path) path) = true /\
  (forall c, nth_error path (skipCommaWhitespace path) = Some c -> isSpace c = false).
Proof.
  induction path as [|b path (Hle & Hpre & Hnext)]; simpl.
  - split; [lia|]. split; [reflexivity|]. intros c H. discriminate H.
  - destruct (isSpace b) eqn:E; simpl.
    + rewrite E, Hpre. split; [lia|]. split; [reflexivity | exact Hnext].
    + split; [lia|]. split; [reflexivity|]. intros c H. congruence.
Qed.

Lemma skipCommaWhitespace_all (seps : list byte) :
  forallb isSpace seps = true -> skipCommaWhitespace seps = length seps.
Proof.
  induction seps as [|b seps IH]; simpl; [reflexivity|].
  intros H. apply andb_true_iff in H as [Hb Hs]. rewrite Hb, IH by exact Hs.
  reflexivity.
Qed.

Lemma skipCommaWhitespace_stop (seps : list byte) (c : byte) (rest : list byte) :
  forallb isSpace seps = true -> isSpace c = false ->
  skipCommaWhitespace (seps ++ c :: rest) = length seps.
Proof.
  induction seps as [|b seps IH]; simpl; intros Hs Hc.
  - rewrite Hc. reflexivity.
  - apply andb_true_iff in Hs as [Hb Hs]. rewrite Hb, IH by assumption.
    reflexivity.
Qed.

(** When only separators remain, the iteration skips them all and reads
    past the end. *)
Lemma parseStep_only_separators (path : list byte) (st : parse_state) :
  ps_i st <= length path ->
  forallb isSpace (skipn (ps_i st) path) = true ->
  parseStep path st = Panic.
Proof.
  destruct st as [i prevCmd cpx cpy p]. cbn [ps_i]. intros Hi Hs.
  unfold parseStep. rewrite skipCommaWhitespace_all by exact Hs.
  rewrite length_skipn. unfold idx.
  replace (nth_error path (i + (length path - i))) with (@None byte)
    by (symmetry; apply nth_error_None; lia).
  reflexivity.
Qed.

(** X6. On a non-empty text made only of separators [ParseSVGPath] panics:
    the first iteration skips to the end of the text and reads the byte
    there. *)
Theorem ParseSVGPath_separators_panic (fuel : nat) (s : string) :
  s <> EmptyString ->
  forallb isSpace (list_ascii_of_string s) = true ->
  ParseSVGPath (S fuel) s = Panic.
Proof.
  intros Hne Hs. unfold ParseSVGPath.
  assert (Hlen : 0 < length (list_ascii_of_string s))
    by (destruct s; [congruence | simpl; lia]).
  apply Nat.ltb_lt in Hlen.
  cbn [parseLoop].
  match goal with
  | |- (if ?b then _ else _) = _ => replace b with true by (symmetry; exact Hlen)
  end.
  rewrite parseStep_only_separators; [reflexivity | simpl; lia | exact Hs].
Qed.

Lemma ParseSVGPath_separators_panic_witness :
  (" ,  "%string <> EmptyString /\
   forallb isSpace (list_ascii_of_string " ,  ") = true) /\
  ParseSVGPath 1 " ,  " = Panic.
Proof.
  split; [split; [discriminate | reflexivity]|].
  apply (ParseSVGPath_separators_panic 0 " ,  "); [discriminate | reflexivity].
Defined.

Lemma parseStep_no_command (path seps rest : list byte) (c : byte) (k : nat) :
  path = seps ++ c :: rest ->
  k + skipCommaWhitespace (skipn k path) = length seps ->
  (65 <=? byte_val c) = false ->
  parseStep path (mkParse k Ascii.zero 0%float 0%float emptyPath)
  = Ret (mkParse (length seps) Ascii.zero 0%float 0%float emptyPath).
Proof.
  intros Hp Hk Hc. unfold parseStep. rewrite Hk.
  unfold idx. rewrite Hp, nth_error_app2, Nat.sub_diag by lia.
  cbn [nth_error bind]. rewrite Hc. reflexivity.
Qed.

(** X7. A text whose first byte after the leading separators is below 'A'
    (a digit, a sign, a dot, any punctuation) makes [ParseSVGPath] loop for
    ever: with no command letter read yet no case applies, and no iteration
    moves past that byte. *)
Theorem ParseSVGPath_no_command_diverges (s : string) (seps rest : list byte)
    (c : byte) (fuel : nat) :
  list_ascii_of_string s = seps ++ c :: rest ->
  forallb isSpace seps = true ->
  isSpace c = false ->
  byte_val c < 65 ->
  ParseSVGPath fuel s = Timeout.
Proof.
  intros Hp Hs Hsp Hc. unfold ParseSVGPath. rewrite Hp.
  set (path := seps ++ c :: rest).
  assert (Hlt : (65 <=? byte_val c) = false) by (apply Nat.leb_gt; exact Hc).
  assert (Hlen : length seps < length path)
    by (subst path; rewrite length_app; simpl; lia).
  assert (Hloop : forall k,
             k + skipCommaWhitespace (skipn k path) = length seps ->
             parseLoop fuel path (mkParse k Ascii.zero 0%float 0%float emptyPath)
             = Timeout).
  { induction fuel as [|fuel IH]; intros k Hk; cbn [parseLoop ps_i];
      replace (k <? length path) with true by (symmetry; apply Nat.ltb_lt; lia);
      [reflexivity|].
    rewrite (parseStep_no_command path seps rest c k eq_refl Hk Hlt).
    cbn [bind]. apply IH.
    subst path. rewrite skipn_app, skipn_all, Nat.sub_diag. cbn [skipn app].
    cbn [skipCommaWhitespace]. rewrite Hsp. lia. }
  apply Hloop. subst path. cbn [skipn Nat.add].
  apply skipCommaWhitespace_stop; assumption.
Qed.

Lemma ParseSVGPath_no_command_diverges_witness :
  (list_ascii_of_string " 10 20L5 5"
   = list_ascii_of_string " " ++ "1"%char :: list_ascii_of_string "0 20L5 5" /\
   forallb isSpace (list_ascii_of_string " ") = true /\
   isSpace "1" = false /\ byte_val "1" < 65) /\
  ParseSVGPath 1000 " 10 20L5 5" = Timeout.
Proof.
  split;
    [split; [reflexivity | split; [reflexivity | split; [reflexivity | vm_compute; lia]]]|].
  apply (ParseSVGPath_no_command_diverges " 10 20L5 5"
           (list_ascii_of_string " ") (list_ascii_of_string "0 20L5 5") "1" 1000);
    [reflexivity | reflexivity | reflexivity | vm_compute; lia].
Defined.

(** ** Translate *)

Lemma skipn_S_app {A : Type} (l : list A) (a : A) (post : list A) :
  skipn (S (length l)) (l ++ a :: post) = post.
Proof. induction l as [|b l IH]; [reflexivity | exact IH]. Qed.

Lemma firstn_length_app {A : Type} (l r : list A) : firstn (length l) (l ++ r) = l.
Proof. induction l as [|b l IH]; simpl; [reflexivity | rewrite IH; reflexivity]. Qed.

Lemma addAt_mid (pre mid : list float64) (a : float64) (post : list float64)
    (v : float64) :
  addAt (pre ++ mid ++ a :: post) (length pre + length mid) v
  = Ret (pre ++ mid ++ (a + v)%float :: post).
Proof.
  unfold addAt. rewrite !app_assoc.
  replace (length pre + length mid) with (length (pre ++ mid))
    by (rewrite length_app; reflexivity).
  rewrite nth_error_app2, Nat.sub_diag by lia. cbn [nth_error].
  rewrite firstn_length_app, skipn_S_app. reflexivity.
Qed.

Ltac addAt_step :=
  match goal with
  | |- context [addAt (?pre ++ ?l) (length ?pre + ?k) ?v] =>
    let mid := eval cbn [firstn] in (firstn k l) in
    let rest := eval cbn [skipn] in (skipn k l) in
    match rest with
    | ?a :: ?post =>
      let H := fresh "H" in
      pose proof (addAt_mid pre mid a post v) as H;
      cbn [app length] in H; unfold float64 in H |- *;
      rewrite H; clear H; cbn [bind]
    end
  end.

Lemma translateLoop_shifted (x y : float64) (cs : list PathCmd) :
  forall (pre ds : list float64),
    arity cs = length ds ->
    translateLoop cs (pre ++ ds) (length pre) x y = Ret (pre ++ shifted cs ds x y).
Proof.
  induction cs as [|c cs IH]; intros pre ds Har; [reflexivity|].
  destruct (split_args c cs ds Har) as (args & ds' & -> & Hargs & Har').
  assert (IH' : forall mid,
             translateLoop cs (pre ++ mid ++ ds') (length pre + length mid) x y
             = Ret (pre ++ mid ++ shifted cs ds' x y)).
  { intros mid. rewrite !app_assoc, <- length_app. apply IH, Har'. }
  cbn [translateLoop].
  destruct c; simpl in Hargs;
    repeat (destruct args as [|? args]; simpl in Hargs; try lia);
    cbn [app]; repeat addAt_step;
    match goal with
    | |- translateLoop cs (pre ++ ?l) (length pre + ?k) x y = _ =>
      let mid := eval cbn [firstn] in (firstn k l) in
      exact (IH' mid)
    end.
Qed.

Lemma translateLoop_shifted_0 (x y : float64) (cs : list PathCmd)
    (ds : list float64) :
  arity cs = length ds -> translateLoop cs ds 0 x y = Ret (shifted cs ds x y).
Proof. intros H. exact (translateLoop_shifted x y cs [] ds H). Qed.

(** X8. On a path that satisfies the buffer invariant [Translate] returns
    the path anchored by a leading MoveTo with every point of every command
    moved by (x, y), the radii, rotation and flags of an arc left alone; and
    it returns it with the start cache of the original, not moved. *)
Theorem Translate_shifted (p : Path) (x y : float64) :
  arityInv p ->
  Translate p x y
  = Ret (mkPath (cmds (anchored p))
           (shifted (cmds (anchored p)) (d (anchored p)) x y) (x0 p) (y0 p)).
Proof.
  destruct p as [cs ds a b]. unfold arityInv. cbn [cmds d x0 y0]. intros Hp.
  unfold Translate, anchored, Copy, isMove. cbn [cmds d x0 y0 app].
  destruct cs as [|c cs].
  - cbn [cmds d x0 y0].
    rewrite (translateLoop_shifted_0 x y [] ds Hp). reflexivity.
  - destruct (PathCmd_eqb c MoveToCmd); cbn [negb cmds d x0 y0].
    + rewrite (translateLoop_shifted_0 x y (c :: cs) ds Hp). reflexivity.
    + rewrite (translateLoop_shifted_0 x y (MoveToCmd :: c :: cs)
                 (0%float :: 0%float :: ds)); [reflexivity|].
      simpl. simpl in Hp. lia.
Qed.

Lemma Translate_shifted_witness :
  let p := (ArcTo (LineTo emptyPath 1 2) 5 6 30 true false 7 8)%float in
  arityInv p /\
  Translate p 10%float 100%float
  = Ret (mkPath [MoveToCmd; LineToCmd; ArcToCmd]
           [10; 100; 11; 102; 5; 6; 30; 1; 0; 17; 108]%float 0%float 0%float).
Proof.
  split; [reflexivity|].
  apply (Translate_shifted (ArcTo (LineTo emptyPath 1 2) 5 6 30 true false 7 8)%float
           10%float 100%float).
  reflexivity.
Defined.

(** ** Reversing a subpath *)

Lemma draw_buffers (p : Path) (s : stroke) :
  cmds (draw p s) = cmds p ++ [stroke_cmd s] /\
  d (draw p s) = d p ++ stroke_coords s /\
  x0 (draw p s) = x0 p /\ y0 (draw p s) = y0 p.
Proof. destruct s; repeat split; reflexivity. Qed.

Lemma fold_draw_buffers (segs : list stroke) :
  forall p,
    cmds (fold_left draw segs p) = cmds p ++ map stroke_cmd segs /\
    d (fold_left draw segs p) = d p ++ flat_map stroke_coords segs /\
    x0 (fold_left draw segs p) = x0 p /\ y0 (fold_left draw segs p) = y0 p.
Proof.
  induction segs as [|s segs IH]; intros p; cbn [fold_left map flat_map].
  - rewrite !app_nil_r. repeat split; reflexivity.
  - destruct (IH (draw p s)) as (Hc & Hd & Hx & Hy).
    destruct (draw_buffers p s) as (Hc' & Hd' & Hx' & Hy').
    rewrite Hc, Hd, Hx, Hy, Hc', Hd', Hx', Hy', <- !app_assoc.
    repeat split; reflexivity.
Qed.

Lemma subpath_buffers (a : float64 * float64) (segs : list stroke) :
  cmds (subpath a segs) = MoveToCmd :: map stroke_cmd segs /\
  d (subpath a segs) = fst a :: snd a :: flat_map stroke_coords segs /\
  x0 (subpath a segs) = fst a /\ y0 (subpath a segs) = snd a.
Proof.
  unfold subpath.
  destruct (fold_draw_buffers segs (MoveTo emptyPath (fst a) (snd a)))
    as (Hc & Hd & Hx & Hy).
  rewrite Hc, Hd, Hx, Hy. repeat split; reflexivity.
Qed.

Lemma stroke_coords_length (s : stroke) : length (stroke_coords s) = Len (stroke_cmd s).
Proof. destruct s; reflexivity. Qed.

Lemma prevEnd_seg_coords (l : list float64) (s : stroke) :
  prevEnd (l ++ stroke_coords s) = stroke_end s.
Proof.
  rewrite prevEnd_app by (rewrite stroke_coords_length; apply Len_ge_2).
  destruct s; reflexivity.
Qed.

Lemma endAfter_snoc (a : float64 * float64) (segs : list stroke) (s : stroke) :
  endAfter a (segs ++ [s]) = stroke_end s.
Proof. unfold endAfter. rewrite fold_left_app. reflexivity. Qed.

(** The pen position recorded before the numbers of the next segment. *)
Lemma prevEnd_front (a : float64 * float64) (front : list stroke) :
  prevEnd (fst a :: snd a :: flat_map stroke_coords front) = endAfter a front.
Proof.
  destruct front as [|s front _] using rev_ind.
  - destruct a; reflexivity.
  - rewrite flat_map_app, endAfter_snoc. cbn [flat_map]. rewrite app_nil_r.
    change (fst a :: snd a :: flat_map stroke_coords front ++ stroke_coords s)
      with ((fst a :: snd a :: flat_map stroke_coords front) ++ stroke_coords s).
    apply prevEnd_seg_coords.
Qed.

Lemma prevEndTo_front (a : float64 * float64) (front : list stroke)
    (rest : list float64) :
  prevEndTo ((fst a :: snd a :: flat_map stroke_coords front) ++ rest)
    (Z.of_nat (offsetAfter front))
  = Ret (endAfter a front).
Proof.
  set (pre := fst a :: snd a :: flat_map stroke_coords front).
  change (offsetAfter front) with (length pre).
  unfold prevEndTo, sliceToZ, slice.
  replace (Z.of_nat (length pre) <? 0)%Z with false by (symmetry; apply Z.ltb_ge; lia).
  rewrite Nat2Z.id.
  replace (length pre <=? length (pre ++ rest))
    with true by (symmetry; apply Nat.leb_le; rewrite length_app; lia).
  cbn [Nat.leb andb skipn bind]. rewrite Nat.sub_0_r, firstn_length_app.
  subst pre. rewrite prevEnd_front. reflexivity.
Qed.

Lemma reversed_snoc (a : float64 * float64) (segs : list stroke) (s : stroke) :
  reversed a (segs ++ [s]) = backwards (endAfter a segs) s :: reversed a segs.
Proof.
  revert a. induction segs as [|s0 segs IH]; intros a; [reflexivity|].
  cbn [app reversed]. rewrite IH. reflexivity.
Qed.

Lemma closedBody_snoc (a : float64 * float64) (segs : list stroke) (s : stroke) :
  segs <> [] ->
  closedBody a (segs ++ [s]) = backwards (endAfter a segs) s :: closedBody a segs.
Proof.
  destruct segs as [|s0 segs]; [congruence|]. intros _.
  destruct s0; cbn [app closedBody];
    try (rewrite <- reversed_snoc; reflexivity).
  rewrite reversed_snoc. reflexivity.
Qed.

Lemma reverseLoop_S (p : Path) (n : nat) (st : rev_state) :
  reverseLoop p (S n) st
  = bind (reverseStep p n st) (fun st' => reverseLoop p n st').
Proof. reflexivity. Qed.

Lemma seg_cmd_not_MoveTo (s : stroke) : PathCmd_eqb (stroke_cmd s) MoveToCmd = false.
Proof. destruct s; reflexivity. Qed.

(** The command before that of the segment after [front] is the opening
    [MoveTo] only when [front] is empty. *)
Lemma cmd_before (front : list stroke) (l : list PathCmd) :
  match nth_error (MoveToCmd :: map stroke_cmd front ++ l) (length front) with
  | Some c => PathCmd_eqb c MoveToCmd
  | None => false
  end
  = match front with [] => true | _ :: _ => false end.
Proof.
  destruct front as [|s front _] using rev_ind; [reflexivity|].
  rewrite length_app. cbn [length]. rewrite Nat.add_1_r. cbn [nth_error].
  rewrite map_app, <- app_assoc, nth_error_app2, length_map, Nat.sub_diag
    by (rewrite length_map; lia).
  cbn [map app nth_error]. rewrite seg_cmd_not_MoveTo.
  destruct front; reflexivity.
Qed.

(** One iteration on the command of the segment [s] that follows [front],
    in a path that holds the subpath from [a]: the reversed path gets [s]
    backwards, unless [s] is the first segment, a line, of a subpath seen to
    be closed. *)
Lemma reverseStep_seg (p : Path) (a : float64 * float64) (front : list stroke)
    (s : stroke) (back : list stroke) (ctail : list PathCmd) (dtail : list float64)
    (xe ye xs ys : float64) (c : bool) (ip : Path) :
  cmds p = MoveToCmd :: map stroke_cmd (front ++ s :: back) ++ ctail ->
  d p = fst a :: snd a :: flat_map stroke_coords (front ++ s :: back) ++ dtail ->
  (c = true -> front = [] -> stroke_cmd s <> LineToCmd) ->
  reverseStep p (S (length front))
    (mkRev (Z.of_nat (offsetAfter (front ++ [s]))) xe ye xs ys c ip)
  = Ret (mkRev (Z.of_nat (offsetAfter front))
           (fst (endAfter a front)) (snd (endAfter a front))
           (fst (endAfter a front)) (snd (endAfter a front))
           c (draw ip (backwards (endAfter a front) s))).
Proof.
  intros Hc Hd Hline.
  unfold reverseStep. rewrite Hc, Hd.
  assert (Hcmd : idx (MoveToCmd :: map stroke_cmd (front ++ s :: back) ++ ctail)
                   (S (length front))
                 = Ret (stroke_cmd s)).
  { unfold idx. cbn [nth_error].
    rewrite map_app, <- app_assoc, nth_error_app2, length_map, Nat.sub_diag
      by (rewrite length_map; lia). reflexivity. }
  rewrite Hcmd. cbn [bind].
  assert (Hprev : match nth_error (MoveToCmd :: map stroke_cmd (front ++ s :: back) ++ ctail)
                          (S (length front) - 1) with
                  | Some c' => PathCmd_eqb c' MoveToCmd
                  | None => false
                  end
                  = match front with [] => true | _ :: _ => false end).
  { replace (S (length front) - 1) with (length front) by lia.
    rewrite map_app, <- app_assoc. apply cmd_before. }
  set (pre := fst a :: snd a :: flat_map stroke_coords front).
  set (rest := flat_map stroke_coords back ++ dtail).
  assert (Hbuf : fst a :: snd a :: flat_map stroke_coords (front ++ s :: back) ++ dtail
                 = pre ++ stroke_coords s ++ rest).
  { subst pre rest. rewrite flat_map_app. cbn [flat_map].
    rewrite <- !app_assoc. reflexivity. }
  rewrite Hbuf.
  assert (Hpre : offsetAfter front = length pre) by reflexivity.
  assert (Hoff : offsetAfter (front ++ [s]) = length pre + Len (stroke_cmd s)).
  { unfold offsetAfter. rewrite flat_map_app, length_app. cbn [flat_map].
    rewrite app_nil_r, stroke_coords_length. subst pre. cbn [length]. lia. }
  assert (Hend : prevEndTo (pre ++ stroke_coords s ++ rest) (Z.of_nat (length pre))
                 = Ret (endAfter a front)).
  { rewrite <- Hpre. apply prevEndTo_front. }
  assert (Hidx : forall k, (0 <= k < Z.of_nat (Len (stroke_cmd s)))%Z ->
            idxZ (pre ++ stroke_coords s ++ rest) (Z.of_nat (length pre) + k)
            = Ret (nth (Z.to_nat k) (stroke_coords s) 0%float)).
  { intros k Hk. rewrite <- (Z2Nat.id k) at 1 by lia.
    rewrite <- Nat2Z.inj_add, idxZ_of_nat.
    apply idx_app_args. rewrite stroke_coords_length. lia. }
  rewrite Hoff, Hpre.
  destruct (endAfter a front) as [fx fy] eqn:Efrom.
  destruct s; cbn [stroke_cmd Len backwards draw fst snd] in *;
    match goal with
    | |- context [(Z.of_nat (length pre + ?n) - ?m)%Z] =>
      replace (Z.of_nat (length pre + n) - m)%Z with (Z.of_nat (length pre)) by lia
    end;
    repeat match goal with
           | |- context [idxZ _ (Z.of_nat (length pre) + ?k)%Z] =>
             rewrite (Hidx k) by (cbn; lia)
           end;
    cbn [bind];
    rewrite ?Hprev, ?Hend;
    try (cbn [bind Z.to_nat Pos.to_nat Pos.iter_op Nat.add nth stroke_coords];
         reflexivity).
  - (* LineTo *)
    cbn [Nat.eqb orb].
    destruct c; cbn [andb]; [|reflexivity].
    destruct front as [|s0 front]; [exfalso; apply Hline; reflexivity|].
    reflexivity.
  - (* ArcTo: the flags are read back from their numbers *)
    cbn [bind Z.to_nat Pos.to_nat Pos.iter_op Nat.add nth stroke_coords].
    destruct large, sweep; reflexivity.
Qed.

(** The iterations over the segments [front] of the subpath from [a] and
    its opening [MoveTo], which ends the loop: with [c] the subpath has been
    seen to be closed. *)
Lemma reverseLoop_subpath (p : Path) (a : float64 * float64) (front : list stroke) :
  forall (back : list stroke) (ctail : list PathCmd) (dtail : list float64)
         (xe ye xs ys : float64) (c : bool) (ip : Path),
    cmds p = MoveToCmd :: map stroke_cmd (front ++ back) ++ ctail ->
    d p = fst a :: snd a :: flat_map stroke_coords (front ++ back) ++ dtail ->
    reverseLoop p (S (length front))
      (mkRev (Z.of_nat (offsetAfter front)) xe ye xs ys c ip)
    = Ret (if c then Close (fold_left draw (closedBody a front) ip)
           else fold_left draw (reversed a front) ip).
Proof.
  induction front as [|s front IH] using rev_ind;
    intros back ctail dtail xe ye xs ys c ip Hc Hd.
  - cbn [app length] in *. rewrite reverseLoop_S. unfold reverseStep.
    rewrite Hc, Hd. destruct c; reflexivity.
  - rewrite <- app_assoc in Hc, Hd. cbn [app] in Hc, Hd.
    rewrite length_app. cbn [length]. rewrite Nat.add_1_r, reverseLoop_S.
    destruct (Bool.bool_dec (c && match front with [] => true | _ :: _ => false end
                               && PathCmd_eqb (stroke_cmd s) LineToCmd) true) as [E|E].
    + (* the first segment, a line, of a closed subpath: [Close] *)
      destruct c; [|discriminate]. destruct front; [|discriminate].
      destruct s; try discriminate. cbn [app length] in *.
      assert (Hstep : reverseStep p 1
                        (mkRev (Z.of_nat (offsetAfter [SLine x y])) xe ye xs ys true ip)
                      = Ret (mkRev (Z.of_nat (offsetAfter [])) xe ye xe ye false
                               (Close ip))).
      { unfold reverseStep. rewrite Hc. reflexivity. }
      rewrite Hstep. cbn [bind].
      rewrite (IH (SLine x y :: back) ctail dtail xe ye xe ye false (Close ip) Hc Hd).
      reflexivity.
    + rewrite (reverseStep_seg p a front s back ctail dtail xe ye xs ys c ip Hc Hd).
      * cbn [bind]. rewrite (IH (s :: back) ctail dtail _ _ _ _ c _ Hc Hd).
        destruct c; [|rewrite reversed_snoc; reflexivity].
        destruct front as [|s0 front].
        -- destruct s; try reflexivity. exfalso. apply E. reflexivity.
        -- rewrite closedBody_snoc by discriminate. reflexivity.
      * intros -> ->. intros El. apply E. rewrite El. reflexivity.
Qed.

Lemma atOrigin_MoveTo (pt : float64 * float64) (ip : Path) :
  atOrigin pt = false ->
  (if negb (Equal (fst pt) 0%float) || negb (Equal (snd pt) 0%float)
   then MoveTo ip (fst pt) (snd pt) else ip)
  = MoveTo ip (fst pt) (snd pt).
Proof.
  unfold atOrigin. intros H.
  destruct (Equal (fst pt) 0%float), (Equal (snd pt) 0%float);
    simpl in *; congruence.
Qed.

Lemma Reverse_open_subpath (a : float64 * float64) (segs : list stroke) :
  atOrigin (endAfter a segs) = false ->
  Reverse (subpath a segs) = Ret (subpath (endAfter a segs) (reversed a segs)).
Proof.
  intros Ho. destruct (subpath_buffers a segs) as (Hc & Hd & _).
  unfold Reverse. rewrite Hc, Hd. cbn [length Nat.eqb].
  rewrite prevEnd_front. destruct (endAfter a segs) as [ex ey] eqn:Ee.
  pose proof (atOrigin_MoveTo (ex, ey) emptyPath Ho) as Hm. cbn [fst snd] in Hm.
  rewrite Hm, length_map.
  change (Z.of_nat (S (S (length (flat_map stroke_coords segs)))))
    with (Z.of_nat (offsetAfter segs)).
  rewrite (reverseLoop_subpath (subpath a segs) a segs [] [] []);
    rewrite ?app_nil_r; try assumption.
  reflexivity.
Qed.

(** X9. [Reverse] of an open subpath, [MoveTo(a)] followed by LineTo,
    QuadTo, CubeTo and ArcTo calls, whose end point it does not take to be
    the origin: the subpath that starts at that end point and draws the
    segments last first, each backwards (cubic control points swapped, arc
    sweep flag flipped), ending at [a]. *)
Theorem Reverse_subpath (a : float64 * float64) (segs : list stroke) :
  atOrigin (endAfter a segs) = false ->
  Reverse (subpath a segs) = Ret (subpath (endAfter a segs) (reversed a segs)).
Proof. apply Reverse_open_subpath. Qed.

Lemma Reverse_subpath_witness :
  let a := (1, 2)%float in
  let segs := [SLine 0 0; SCube 1 1 2 2 3 3; SArc 5 6 30 true false 7 8;
               SQuad 4 4 9 9]%float in
  atOrigin (endAfter a segs) = false /\
  Reverse (subpath a segs)
  = Ret (subpath (9, 9)%float
           [SQuad 4 4 7 8; SArc 5 6 30 true true 3 3; SCube 2 2 1 1 0 0;
            SLine 1 2]%float).
Proof.
  split; [reflexivity|].
  apply (Reverse_subpath (1, 2)%float
           [SLine 0 0; SCube 1 1 2 2 3 3; SArc 5 6 30 true false 7 8;
            SQuad 4 4 9 9]%float).
  reflexivity.
Defined.

Lemma endAfter_reversed (a : float64 * float64) (segs : list stroke) :
  segs <> [] -> endAfter (endAfter a segs) (reversed a segs) = a.
Proof.
  destruct segs as [|s segs]; [congruence|]. intros _.
  cbn [reversed]. rewrite endAfter_snoc. destruct s, a; reflexivity.
Qed.

Lemma backwards_backwards (a : float64 * float64) (s : stroke) :
  backwards (stroke_end s) (backwards a s) = s.
Proof. destruct s; cbn; rewrite ?negb_involutive; reflexivity. Qed.

Lemma reversed_reversed (segs : list stroke) :
  forall a, reversed (endAfter a segs) (reversed a segs) = segs.
Proof.
  induction segs as [|s segs IH]; intros a; [reflexivity|].
  cbn [reversed]. rewrite reversed_snoc.
  change (endAfter a (s :: segs)) with (endAfter (stroke_end s) segs).
  rewrite IH. f_equal.
  destruct segs as [|s' segs].
  - cbn [reversed endAfter fold_left]. apply backwards_backwards.
  - rewrite endAfter_reversed by discriminate. apply backwards_backwards.
Qed.

(** X10. On an open subpath neither end of which [Reverse] takes to be the
    origin, reversing twice gives the subpath back, as the same [Path]
    value. *)
Theorem Reverse_subpath_involutive (a : float64 * float64) (segs : list stroke) :
  atOrigin a = false ->
  atOrigin (endAfter a segs) = false ->
  (r <- Reverse (subpath a segs) ;; Reverse r)%go = Ret (subpath a segs).
Proof.
  intros Ha He. rewrite Reverse_open_subpath by exact He. cbn [bind].
  destruct segs as [|s segs].
  - cbn [reversed endAfter fold_left] in *. apply Reverse_open_subpath. exact Ha.
  - rewrite Reverse_open_subpath; rewrite endAfter_reversed by discriminate;
      [|exact Ha].
    rewrite reversed_reversed. destruct a; reflexivity.
Qed.

Lemma Reverse_subpath_involutive_witness :
  let a := (1, 2)%float in
  let segs := [SLine 0 0; SCube 1 1 2 2 3 3; SArc 5 6 30 true false 7 8;
               SQuad 4 4 9 9]%float in
  (atOrigin a = false /\ atOrigin (endAfter a segs) = false) /\
  (r <- Reverse (subpath a segs) ;; Reverse r)%go = Ret (subpath a segs).
Proof.
  split; [split; reflexivity|].
  apply (Reverse_subpath_involutive (1, 2)%float
           [SLine 0 0; SCube 1 1 2 2 3 3; SArc 5 6 30 true false 7 8;
            SQuad 4 4 9 9]%float); reflexivity.
Defined.

(** X11. [Reverse] of a closed subpath, [MoveTo(a)], drawing calls and
    [Close], whose start it does not take to be the origin: a closed subpath
    from the same start [a], which first retraces the closing edge (a line
    to the old end point, unless the two coincide) and then draws the
    segments last first, each backwards; a first segment that was a line is
    not drawn, the new [Close] stands for it. *)
Theorem Reverse_closed_subpath (a : float64 * float64) (segs : list stroke) :
  atOrigin a = false ->
  Reverse (Close (subpath a segs))
  = Ret (Close (subpath a (closingEdge a (endAfter a segs) ++ closedBody a segs))).
Proof.
  intros Ha. destruct (subpath_buffers a segs) as (Hc & Hd & Hx & Hy).
  set (p := Close (subpath a segs)).
  assert (Hc' : cmds p = MoveToCmd :: map stroke_cmd (segs ++ []) ++ [CloseCmd]).
  { subst p. cbn [Close cmds]. rewrite Hc, app_nil_r. reflexivity. }
  assert (Hd' : d p = fst a :: snd a :: flat_map stroke_coords (segs ++ []) ++ [fst a; snd a]).
  { subst p. cbn [Close d]. rewrite Hd, Hx, Hy, app_nil_r. reflexivity. }
  assert (Hd'' : d p = (fst a :: snd a :: flat_map stroke_coords segs) ++ [fst a; snd a]).
  { rewrite Hd', app_nil_r. reflexivity. }
  assert (Hlc : length (cmds p) = S (S (length segs))).
  { rewrite Hc'. cbn [length]. rewrite length_app, length_map, app_nil_r.
    cbn [length]. lia. }
  assert (Hld : Z.of_nat (length (d p)) = (Z.of_nat (offsetAfter segs) + 2)%Z).
  { rewrite Hd'', length_app. unfold offsetAfter. cbn [length]. lia. }
  assert (Hpe : prevEnd (d p) = a).
  { rewrite Hd'', prevEnd_app by (cbn; lia). destruct a; reflexivity. }
  assert (Hidx : idx (cmds p) (S (length segs)) = Ret CloseCmd).
  { rewrite Hc', app_nil_r. unfold idx. cbn [nth_error].
    rewrite nth_error_app2, length_map, Nat.sub_diag by (rewrite length_map; lia).
    reflexivity. }
  assert (Hpend : prevEndTo (d p) (Z.of_nat (offsetAfter segs)) = Ret (endAfter a segs)).
  { rewrite Hd''. apply prevEndTo_front. }
  destruct a as [ax ay]. cbn [fst snd] in *.
  destruct (endAfter (ax, ay) segs) as [ex ey] eqn:Ee.
  unfold Reverse. rewrite Hlc, Hpe. cbn [Nat.eqb]. cbv beta iota zeta.
  pose proof (atOrigin_MoveTo (ax, ay) emptyPath Ha) as Hm. cbn [fst snd] in Hm.
  rewrite Hm, reverseLoop_S.
  assert (Hstep :
    reverseStep p (S (length segs))
      (mkRev (Z.of_nat (length (d p))) ax ay ax ay false (MoveTo emptyPath ax ay))
    = Ret (mkRev (Z.of_nat (offsetAfter segs)) ex ey ex ey true
             (fold_left draw (closingEdge (ax, ay) (ex, ey)) (MoveTo emptyPath ax ay)))).
  { unfold reverseStep. rewrite Hidx. cbn [bind]. rewrite Hld.
    replace (Z.of_nat (offsetAfter segs) + 2 - 2)%Z with (Z.of_nat (offsetAfter segs))
      by lia.
    rewrite Hpend. cbn [bind]. unfold closingEdge. cbn [fst snd].
    destruct (Equal ax ex), (Equal ay ey); reflexivity. }
  rewrite Hstep. cbn [bind].
  rewrite (reverseLoop_subpath p (ax, ay) segs [] [CloseCmd] [ax; ay] _ _ _ _ true _
             Hc' Hd').
  unfold subpath. rewrite fold_left_app. reflexivity.
Qed.

Lemma Reverse_closed_subpath_witness :
  let a := (5, 5)%float in
  let segs := [SLine 10 5; SQuad 12 8 10 10; SLine 5 10]%float in
  atOrigin a = false /\
  Reverse (Close (subpath a segs))
  = Ret (Close (subpath a [SLine 5 10; SLine 10 10; SQuad 12 8 10 5]%float)).
Proof.
  split; [reflexivity|].
  apply (Reverse_closed_subpath (5, 5)%float
           [SLine 10 5; SQuad 12 8 10 10; SLine 5 10]%float).
  reflexivity.
Defined.

(** ** Serialization never fails on a well-formed path *)

Lemma string_app_nil_r (s : string) : (s ++ "")%string = s.
Proof. induction s as [|c s IH]; simpl; [reflexivity | rewrite IH; reflexivity]. Qed.

Lemma string_app_assoc (a b c : string) :
  ((a ++ b) ++ c)%string = (a ++ b ++ c)%string.
Proof. induction a as [|x a IH]; simpl; [reflexivity | rewrite IH; reflexivity]. Qed.

(** One iteration on a command whose numbers are there: it returns, its
    output extends the builder, and a MoveTo writes an [M] first. *)
Lemma svgStep_returns (p : Path) (pre args rest : list float64) (cmd : PathCmd)
    (svg : string) (x y : float64) :
  d p = pre ++ args ++ rest ->
  length args = Len cmd ->
  exists out x' y',
    svgStep p (svg, length pre, x, y) cmd
    = Ret ((svg ++ out)%string, length pre + Len cmd, x', y') /\
    (cmd = MoveToCmd -> exists t, out = String "M" t).
Proof.
  intros Hd Hargs. unfold svgStep.
  assert (Hidx : forall k, k < Len cmd ->
            idx (d p) (length pre + k) = Ret (nth k args 0%float)).
  { intros k Hk. rewrite Hd. apply idx_app_args. lia. }
  destruct cmd; simpl Len in *;
    rewrite ?Hidx by lia; cbn [bind];
    try (eexists _, _, _; split; [reflexivity | intros; try discriminate;
                                   eexists; reflexivity]).
  (* LineTo *)
  repeat match goal with
         | |- context [if ?b then _ else _] => destruct b
         end;
    eexists _, _, _;
    (split; [first [reflexivity | rewrite string_app_nil_r; reflexivity]
            | discriminate]).
Qed.

Lemma svgLoop_returns (p : Path) (cs : list PathCmd) :
  forall (pre ds : list float64) (svg : string) (x y : float64),
    d p = pre ++ ds ->
    arity cs = length ds ->
    exists out i' x' y',
      svgLoop p (svg, length pre, x, y) cs = Ret ((svg ++ out)%string, i', x', y').
Proof.
  induction cs as [|c cs IH]; intros pre ds svg x y Hd Har.
  - exists EmptyString, (length pre), x, y. simpl. rewrite string_app_nil_r.
    reflexivity.
  - destruct (split_args c cs ds Har) as (args & ds' & -> & Hargs & Har').
    destruct (svgStep_returns p pre args ds' c svg x y Hd Hargs)
      as (out & x' & y' & Hstep & _).
    cbn [svgLoop]. rewrite Hstep. cbn [bind].
    destruct (IH (pre ++ args) ds' (svg ++ out)%string x' y') as (out' & i' & x'' & y'' & Hrun).
    { rewrite Hd, app_assoc. reflexivity. }
    { exact Har'. }
    rewrite length_app, Hargs in Hrun. rewrite Hrun.
    exists (out ++ out')%string, i', x'', y''. rewrite string_app_assoc. reflexivity.
Qed.

(** X12. On a path that satisfies the buffer invariant [ToSVGPath] returns
    (no index is out of range), and for a path with at least one command
    the text starts with an [M]: the path's own leading MoveTo or the
    implicit [M0 0]. *)
Theorem ToSVGPath_returns_moveto_first (p : Path) :
  arityInv p ->
  exists svg,
    ToSVGPath p = Ret svg /\
    (cmds p <> [] -> exists t, svg = String "M" t).
Proof.
  unfold arityInv, ToSVGPath. intros Hp.
  destruct (cmds p) as [|c cs] eqn:Ec.
  - exists EmptyString. split; [reflexivity | congruence].
  - destruct (split_args c cs (d p) Hp) as (args & ds' & Hd & Hargs & Har').
    destruct (svgStep_returns p [] args ds' c
                (if negb (PathCmd_eqb c MoveToCmd) then "M0 0"%string else EmptyString)
                0%float 0%float Hd Hargs)
      as (out & x' & y' & Hstep & HM).
    destruct (svgLoop_returns p cs args ds'
                ((if negb (PathCmd_eqb c MoveToCmd) then "M0 0" else "") ++ out)%string
                x' y' Hd Har')
      as (out' & i' & x'' & y'' & Hrun).
    cbv beta iota zeta. cbn [svgLoop]. cbn [length] in Hstep.
    unfold svg_state, float64 in *. rewrite Hstep. cbn [bind Nat.add].
    rewrite Hargs in Hrun. rewrite Hrun. cbn [bind].
    eexists. split; [reflexivity|]. intros _.
    destruct c; cbn [PathCmd_eqb negb];
      try (eexists; reflexivity).
    destruct (HM eq_refl) as [t ->]. eexists; reflexivity.
Qed.

Lemma ToSVGPath_returns_moveto_first_witness :
  let p := (QuadTo (LineTo emptyPath 1 2) 3 4 5 6)%float in
  (arityInv p /\ cmds p <> []) /\
  exists svg, ToSVGPath p = Ret svg /\ (cmds p <> [] -> exists t, svg = String "M" t).
Proof.
  split; [split; [reflexivity | discriminate]|].
  apply (ToSVGPath_returns_moveto_first (QuadTo (LineTo emptyPath 1 2) 3 4 5 6)%float).
  reflexivity.
Defined.

(** X13. On paths that satisfy the buffer invariant neither [Reverse] nor
    [Append] goes out of range: both return. *)
Theorem Reverse_Append_return (p q : Path) :
  arityInv p -> arityInv q ->
  (exists r, Reverse p = Ret r) /\ (exists r, Append p q = Ret r).
Proof.
  intros Hp Hq. split; [apply Reverse_returns | apply Append_returns]; assumption.
Qed.

Lemma Reverse_Append_return_witness :
  let p := (Close (ArcTo (MoveTo emptyPath 1 2) 3 4 0 true false 5 6))%float in
  let q := (LineTo (MoveTo emptyPath 1 2) 7 8)%float in
  (arityInv p /\ arityInv q) /\
  (exists r, Reverse p = Ret r) /\ (exists r, Append p q = Ret r).
Proof.
  split; [split; reflexivity|].
  apply (Reverse_Append_return
           (Close (ArcTo (MoveTo emptyPath 1 2) 3 4 0 true false 5 6))%float
           (LineTo (MoveTo emptyPath 1 2) 7 8)%float); reflexivity.
Defined.

(** ** More on flattening *)

(** X14. The loop of [FlattenBeziers] ends whatever the flattener returns:
    an iteration that returns leaves exactly one command fewer to look at,
    so the number of commands of the path is fuel enough and the outcome is
    never [Timeout]. *)
Theorem FlattenBeziers_terminates
    (flat : Point -> Point -> Point -> Point -> float64 -> float64 -> Path)
    (tol : float64) :
  (forall st st',
      flattenStep flat tol st = Ret st' ->
      (Z.of_nat (length (cmds (fs_p st'))) - fs_icmd st'
       = Z.of_nat (length (cmds (fs_p st))) - fs_icmd st - 1)%Z) /\
  (forall p, FlattenBeziers flat tol p <> Timeout).
Proof.
  split.
  - intros st st' H. apply (flattenStep_remaining flat tol st st' H).
  - apply FlattenBeziers_no_timeout.
Qed.

Section FlattenedLines.

Variable flat : Point -> Point -> Point -> Point -> float64 -> float64 -> Path.

Variable tol : float64.

Hypothesis flat_lines :
  forall s c1 c2 e t tl, curveFree (cmds (flat s c1 c2 e t tl)) = true.

Lemma curveFree_app (a b : list PathCmd) :
  curveFree (a ++ b) = curveFree a && curveFree b.
Proof. apply forallb_app. Qed.

Lemma flattenSpec_no_curves (cs : list PathCmd) :
  forall (ds : list float64) (start : Point),
    curveFree (fst (flattenSpec flat tol cs ds start)) = true.
Proof.
  induction cs as [|c cs IH]; intros ds start; [reflexivity|].
  cbn [flattenSpec].
  destruct c;
    match goal with
    | |- context [flattenSpec flat tol cs ?a ?b] =>
      specialize (IH a b); destruct (flattenSpec flat tol cs a b) as [rc rd]
    end;
    cbn [fst] in *;
    first [ rewrite curveFree_app; unfold elevated; rewrite flat_lines; exact IH
          | simpl; exact IH ].
Qed.

Hypothesis flat_arity :
  forall s c1 c2 e t tl, arityInv (flat s c1 c2 e t tl).

Lemma FlattenBeziers_result (p : Path) :
  arityInv p ->
  FlattenBeziers flat tol p = Ret (flattened flat tol p) /\
  arityInv (flattened flat tol p) /\
  curveFree (cmds (flattened flat tol p)) = true.
Proof.
  intros Hp.
  pose proof (FlattenBeziers_flattened flat tol flat_arity p Hp) as H.
  split; [exact H|]. split.
  - exact (flattenLoop_arityInv flat tol flat_arity (length (cmds p)) (flattenInit p)
             _ Hp H).
  - unfold flattened.
    pose proof (flattenSpec_no_curves (cmds p) (d p) (mkPoint 0%float 0%float)) as Hc.
    destruct (flattenSpec flat tol (cmds p) (d p) (mkPoint 0%float 0%float)).
    exact Hc.
Qed.

End FlattenedLines.

(** X15. With a flattener that returns well-formed polylines (LineTo
    commands only), [FlattenBeziers] of a path that satisfies the buffer
    invariant returns a path with no QuadTo and no CubeTo left, which again
    satisfies the invariant. *)
Theorem FlattenBeziers_leaves_no_curve
    (flat : Point -> Point -> Point -> Point -> float64 -> float64 -> Path)
    (tol : float64) (p : Path) :
  (forall s c1 c2 e t tl, arityInv (flat s c1 c2 e t tl)) ->
  (forall s c1 c2 e t tl, curveFree (cmds (flat s c1 c2 e t tl)) = true) ->
  arityInv p ->
  exists r,
    FlattenBeziers flat tol p = Ret r /\ arityInv r /\ curveFree (cmds r) = true.
Proof.
  intros Ha Hl Hp. exists (flattened flat tol p).
  apply FlattenBeziers_result; assumption.
Qed.

Lemma chordFlattener_lines s c1 c2 e t tl :
  curveFree (cmds (chordFlattener s c1 c2 e t tl)) = true.
Proof.
  unfold chordFlattener.
  destruct (Equal (X s) (X e) && Equal (Y s) (Y e)); reflexivity.
Qed.

Lemma FlattenBeziers_leaves_no_curve_witness :
  let p := (CubeTo (QuadTo (MoveTo emptyPath 0 0) 1 1 2 0) 3 1 4 1 5 0)%float in
  ((forall s c1 c2 e t tl, arityInv (chordFlattener s c1 c2 e t tl)) /\
   (forall s c1 c2 e t tl, curveFree (cmds (chordFlattener s c1 c2 e t tl)) = true) /\
   arityInv p) /\
  exists r,
    FlattenBeziers chordFlattener 0.5%float p = Ret r /\
    arityInv r /\ curveFree (cmds r) = true.
Proof.
  split; [split; [exact chordFlattener_arityInv
                 | split; [exact chordFlattener_lines | reflexivity]]|].
  apply (FlattenBeziers_leaves_no_curve chordFlattener 0.5%float
           (CubeTo (QuadTo (MoveTo emptyPath 0 0) 1 1 2 0) 3 1 4 1 5 0)%float
           chordFlattener_arityInv chordFlattener_lines).
  reflexivity.
Defined.

(** X16. Flattening is idempotent: with such a flattener, flattening the
    result of [FlattenBeziers] again returns it unchanged. *)
Theorem FlattenBeziers_idempotent
    (flat : Point -> Point -> Point -> Point -> float64 -> float64 -> Path)
    (tol tol' : float64) (p : Path) :
  (forall s c1 c2 e t tl, arityInv (flat s c1 c2 e t tl)) ->
  (forall s c1 c2 e t tl, curveFree (cmds (flat s c1 c2 e t tl)) = true) ->
  arityInv p ->
  (r <- FlattenBeziers flat tol p ;; FlattenBeziers flat tol' r)%go
  = FlattenBeziers flat tol p.
Proof.
  intros Ha Hl Hp.
  destruct (FlattenBeziers_result flat tol Hl Ha p Hp) as (Hrun & Hinv & Hfree).
  rewrite Hrun. cbn [bind].
  rewrite (FlattenBeziers_flattened flat tol' Ha _ Hinv).
  unfold flattened at 1.
  rewrite flattenSpec_curveFree by assumption.
  destruct (flattened flat tol p); reflexivity.
Qed.

Lemma FlattenBeziers_idempotent_witness :
  let p := (CubeTo (QuadTo (MoveTo emptyPath 0 0) 1 1 2 0) 3 1 4 1 5 0)%float in
  ((forall s c1 c2 e t tl, arityInv (chordFlattener s c1 c2 e t tl)) /\
   (forall s c1 c2 e t tl, curveFree (cmds (chordFlattener s c1 c2 e t tl)) = true) /\
   arityInv p) /\
  (r <- FlattenBeziers chordFlattener 0.5%float p ;;
   FlattenBeziers chordFlattener 0.25%float r)%go
  = FlattenBeziers chordFlattener 0.5%float p.
Proof.
  split; [split; [exact chordFlattener_arityInv
                 | split; [exact chordFlattener_lines | reflexivity]]|].
  apply (FlattenBeziers_idempotent chordFlattener 0.5%float 0.25%float
           (CubeTo (QuadTo (MoveTo emptyPath 0 0) 1 1 2 0) 3 1 4 1 5 0)%float
           chordFlattener_arityInv chordFlattener_lines).
  reflexivity.
Defined.

(** ** Splitting a fragment again *)

Lemma removelast_snoc_cons {A : Type} (a : list A) (c : A) (b : list A) :
  b <> [] -> removelast (a ++ c :: b) = a ++ c :: removelast b.
Proof.
  intros Hb. rewrite removelast_app by discriminate.
  destruct b; [congruence | reflexivity].
Qed.

Lemma splitLoop_single (p : Path) (rest : list PathCmd) :
  forall (cur : list PathCmd) (dcur drest : list float64) (closed : bool)
         (x y : float64),
    cmds p = cur ++ rest ->
    d p = dcur ++ drest ->
    arity cur = length dcur ->
    arity rest = length drest ->
    cmds p <> [] ->
    forallb (fun c => negb (isMove c)) (tl (cmds p)) = true ->
    forallb (fun c => negb (isClose c)) (removelast (cmds p)) = true ->
    (closed = true -> rest = []) ->
    exists x' y',
      splitLoop p rest [] closed 0 (length dcur) 0 (length cur) x y
      = Ret [mkPath (cmds p) (d p) x' y'].
Proof.
  induction rest as [|c rest IH];
    intros cur dcur drest closed x y Hc Hd Hcur Hrest Hne Hmove Hclose Hclosed.
  - simpl in Hrest. symmetry in Hrest. apply length_zero_iff_nil in Hrest. subst drest.
    rewrite app_nil_r in Hc, Hd.
    assert (Hpos : 0 < length dcur).
    { destruct cur as [|c0 cur]; [congruence|]. simpl in Hcur.
      pose proof (Len_ge_2 c0). lia. }
    cbn [splitLoop]. apply Nat.ltb_lt in Hpos. rewrite Hpos.
    assert (Hs1 : slice (cmds p) 0 (length cur) = Ret (cmds p)).
    { rewrite Hc at 1. rewrite <- (app_nil_r cur) at 1. rewrite slice_prefix.
      rewrite Hc. reflexivity. }
    assert (Hs2 : slice (d p) 0 (length dcur) = Ret (d p)).
    { rewrite Hd at 1. rewrite <- (app_nil_r dcur) at 1. rewrite slice_prefix.
      rewrite Hd. reflexivity. }
    rewrite Hs1, Hs2. cbn [bind app]. eexists _, _. reflexivity.
  - destruct (split_args c rest drest Hrest) as (args & ds' & -> & Hargs & Hrest').
    assert (Hopen : closed = false).
    { destruct closed; [|reflexivity]. discriminate (Hclosed eq_refl). }
    subst closed.
    assert (Hcond : (0 <? length dcur) && PathCmd_eqb c MoveToCmd = false).
    { destruct cur as [|c0 cur].
      - simpl in Hcur. rewrite <- Hcur. reflexivity.
      - rewrite Hc in Hmove. cbn [app tl] in Hmove.
        rewrite forallb_app in Hmove. apply andb_true_iff in Hmove as [_ Hm].
        cbn [forallb] in Hm. apply andb_true_iff in Hm as [Hm _].
        unfold isMove in Hm. apply negb_true_iff in Hm. rewrite Hm.
        apply andb_false_r. }
    assert (Hidx : forall k, k < Len c ->
              idx (d p) (length dcur + k) = Ret (nth k args 0%float)).
    { intros k Hk. rewrite Hd. apply idx_app_args. lia. }
    destruct (IH (cur ++ [c]) (dcur ++ args) ds' (isClose c)
                (if isMove c then nth 0 args 0%float else x)
                (if isMove c then nth 1 args 0%float else y))
      as (x' & y' & Hrun).
    { rewrite Hc, <- app_assoc. reflexivity. }
    { rewrite Hd, <- app_assoc. reflexivity. }
    { rewrite arity_app, length_app. simpl. lia. }
    { exact Hrest'. }
    { exact Hne. }
    { exact Hmove. }
    { exact Hclose. }
    { intros Hcl. destruct rest as [|c' rest]; [reflexivity|]. exfalso.
      rewrite Hc, removelast_snoc_cons in Hclose by discriminate.
      rewrite forallb_app in Hclose. apply andb_true_iff in Hclose as [_ Hcl'].
      cbn [forallb] in Hcl'. apply andb_true_iff in Hcl' as [Hcl' _].
      rewrite Hcl in Hcl'. discriminate Hcl'. }
    exists x', y'. rewrite <- Hrun.
    rewrite !length_app, Hargs. cbn [length].
    cbn [splitLoop]. rewrite Hcond. cbn [orb bind].
    pose proof (Hidx 0) as H0. pose proof (Hidx 1) as H1.
    rewrite Nat.add_0_r in H0.
    destruct c; simpl Len in *; simpl isMove; simpl isClose; cbv iota;
      try rewrite Nat.add_0_r;
      try (rewrite H0, H1 by lia; cbn [bind]);
      rewrite ?Nat.add_1_r; reflexivity.
Qed.

Lemma Split_single (f : Path) :
  arityInv f -> cutAtBoundaries f = true ->
  exists x y, Split f = Ret [mkPath (cmds f) (d f) x y].
Proof.
  intros Hf Hcut. unfold cutAtBoundaries in Hcut.
  apply andb_true_iff in Hcut as [Hcut Hclose].
  apply andb_true_iff in Hcut as [Hne Hmove].
  apply (splitLoop_single f (cmds f) [] [] (d f) false 0%float 0%float);
    try reflexivity; try assumption.
  - intros E. rewrite E in Hne. discriminate Hne.
  - discriminate.
Qed.

(** X17. Splitting is stable: a fragment returned by [Split] (on a path
    that satisfies the buffer invariant), split again, gives one fragment,
    with the same commands and coordinates. *)
Theorem Split_fragment_splits_into_itself (p f : Path) (ps : list Path) :
  arityInv p -> Split p = Ret ps -> In f ps ->
  exists x y, Split f = Ret [mkPath (cmds f) (d f) x y].
Proof.
  intros Hp Hs Hin.
  destruct (splitLoop_spec p (cmds p) [] [] [] [] (d p) [] false 0%float 0%float
              eq_refl eq_refl eq_refl Hp (conj eq_refl eq_refl))
    as (frags & Hrun & _ & _ & Hinv & Hcut).
  unfold Split in Hs. simpl in Hrun. rewrite Hrun in Hs. injection Hs as <-.
  apply Split_single.
  - apply (proj1 (Forall_forall _ _) Hinv f Hin).
  - apply (proj1 (forallb_forall _ _) Hcut f Hin).
Qed.

Lemma Split_fragment_splits_into_itself_witness :
  let p := (LineTo (Rect (MoveTo emptyPath 9 9) 5 5 1 1) 8 8)%float in
  let f := mkPath [LineToCmd] [8; 8]%float 5%float 5%float in
  (arityInv p /\
   Split p = Ret [mkPath [MoveToCmd] [9; 9]%float 9%float 9%float;
                  mkPath [MoveToCmd; LineToCmd; LineToCmd; LineToCmd; CloseCmd]
                    [5; 5; 6; 5; 6; 6; 5; 6; 5; 5]%float 5%float 5%float;
                  f] /\
   In f [mkPath [MoveToCmd] [9; 9]%float 9%float 9%float;
         mkPath [MoveToCmd; LineToCmd; LineToCmd; LineToCmd; CloseCmd]
           [5; 5; 6; 5; 6; 6; 5; 6; 5; 5]%float 5%float 5%float;
         f]) /\
  exists x y, Split f = Ret [mkPath (cmds f) (d f) x y].
Proof.
  split; [split; [reflexivity | split; [vm_compute; reflexivity
                                       | right; right; left; reflexivity]]|].
  apply (Split_fragment_splits_into_itself
           (LineTo (Rect (MoveTo emptyPath 9 9) 5 5 1 1) 8 8)%float
           (mkPath [LineToCmd] [8; 8]%float 5%float 5%float)
           [mkPath [MoveToCmd] [9; 9]%float 9%float 9%float;
            mkPath [MoveToCmd; LineToCmd; LineToCmd; LineToCmd; CloseCmd]
              [5; 5; 6; 5; 6; 6; 5; 6; 5; 5]%float 5%float 5%float;
            mkPath [LineToCmd] [8; 8]%float 5%float 5%float]);
    [reflexivity | vm_compute; reflexivity | right; right; left; reflexivity].
Defined.

(** ** What Append keeps *)




(** ** The heap operations against the operations on values *)

Section ResliceFacts.

Variable T : Type.

(** Within the length of a slice, [s[i:j]] shows what [slice] computes from
    the elements of [s]. *)
Lemma reslice_view (m : memory T) (s : sliceH) (i j : nat) (l : list T) :
  wfSlice m s -> slice (view m s) i j = Ret l ->
  exists s', reslice s i j = Ret s' /\ view m s' = l /\ wfSlice m s'.
Proof.
  intros Hwf H. pose proof (view_length _ m s Hwf) as Hlen.
  destruct Hwf as [H1 H2]. unfold slice in H.
  destruct ((i <=? j) && (j <=? length (view m s))) eqn:E; [|discriminate].
  apply andb_prop in E. destruct E as [Ei Ej].
  apply Nat.leb_le in Ei. apply Nat.leb_le in Ej. rewrite Hlen in Ej.
  injection H as <-. unfold reslice.
  replace ((i <=? j) && (j <=? s_cap s)) with true
    by (symmetry; apply andb_true_intro; split; apply Nat.leb_le; lia).
  eexists. split; [reflexivity|]. split.
  - unfold view. cbn [s_arr s_off s_len].
    rewrite skipn_firstn_comm, firstn_firstn, skipn_skipn.
    rewrite Nat.min_l by lia. rewrite (Nat.add_comm i). reflexivity.
  - unfold wfSlice. cbn [s_arr s_off s_len s_cap]. lia.
Qed.

End ResliceFacts.

Section SplitRefinement.

Variable cm : memory PathCmd.
Variable nm : memory float64.
Variable P : PathH.
Hypothesis Wc : wfSlice cm (hcmds P).
Hypothesis Wd : wfSlice nm (hd P).

(** The loop of [Split] on the heap goes through the same states as on the
    value of the path, and its fragments show the fragments computed on the
    value. *)
Lemma splitLoopH_refines (rest : list PathCmd) :
  forall (psH : list PathH) (closed : bool) (i j icmd jcmd : nat)
         (x0 y0 : float64) (frags : list Path),
    splitLoop (valueOf cm nm P) rest (map (valueOf cm nm) psH)
      closed i j icmd jcmd x0 y0 = Ret frags ->
    exists fragsH,
      splitLoopH P (view nm (hd P)) rest psH closed i j icmd jcmd x0 y0
      = Ret fragsH /\
      map (valueOf cm nm) fragsH = frags.
Proof.
  induction rest as [|cmd rest IH]; intros psH closed i j icmd jcmd x0 y0 frags H.
  - cbn [splitLoop splitLoopH] in *.
    destruct (i <? j); [|injection H as <-; eexists; split; reflexivity].
    cbn [valueOf cmds d] in H.
    destruct (slice (view cm (hcmds P)) icmd jcmd) as [c| |] eqn:Ec; try discriminate.
    destruct (slice (view nm (hd P)) i j) as [f| |] eqn:Ef; try discriminate.
    cbn [bind] in H. injection H as <-.
    destruct (reslice_view _ _ _ _ _ _ Wc Ec) as (sc & -> & Vc & _).
    destruct (reslice_view _ _ _ _ _ _ Wd Ef) as (sd & -> & Vd & _).
    cbn [bind]. eexists. split; [reflexivity|].
    rewrite map_app. cbn [map]. unfold valueOf at 2. cbn [hcmds hd hx0 hy0].
    rewrite Vc, Vd. reflexivity.
  - cbn [splitLoop splitLoopH] in *.
    assert (Hcut :
      forall r,
        (if (i <? j) && PathCmd_eqb cmd MoveToCmd || closed
         then (c <- slice (cmds (valueOf cm nm P)) icmd jcmd ;;
               f <- slice (d (valueOf cm nm P)) i j ;;
               Ret (map (valueOf cm nm) psH ++ [mkPath c f x0 y0], jcmd, j, false))%go
         else Ret (map (valueOf cm nm) psH, icmd, i, closed)) = Ret r ->
        exists psH' icmd' i' closed',
          (if (i <? j) && PathCmd_eqb cmd MoveToCmd || closed
           then (c <- reslice (hcmds P) icmd jcmd ;;
                 f <- reslice (hd P) i j ;;
                 Ret (psH ++ [mkPathH c f x0 y0], jcmd, j, false))%go
           else Ret (psH, icmd, i, closed)) = Ret (psH', icmd', i', closed') /\
          r = (map (valueOf cm nm) psH', icmd', i', closed')).
    { intros r Hr.
      destruct ((i <? j) && PathCmd_eqb cmd MoveToCmd || closed).
      - cbn [valueOf cmds d] in Hr.
        destruct (slice (view cm (hcmds P)) icmd jcmd) as [c| |] eqn:Ec; try discriminate.
        destruct (slice (view nm (hd P)) i j) as [f| |] eqn:Ef; try discriminate.
        cbn [bind] in Hr. injection Hr as <-.
        destruct (reslice_view _ _ _ _ _ _ Wc Ec) as (sc & -> & Vc & _).
        destruct (reslice_view _ _ _ _ _ _ Wd Ef) as (sd & -> & Vd & _).
        cbn [bind]. do 4 eexists. split; [reflexivity|].
        rewrite map_app. cbn [map]. unfold valueOf at 3. cbn [hcmds hd hx0 hy0].
        rewrite Vc, Vd. reflexivity.
      - injection Hr as <-. do 4 eexists. split; reflexivity. }
    match type of H with
    | bind ?m _ = _ => destruct m as [[[[ps1 icmd1] i1] closed1]| |] eqn:Em;
                       try discriminate
    end.
    destruct (Hcut _ eq_refl) as (psH' & icmd' & i' & closed' & -> & Er).
    injection Er as -> -> -> ->.
    cbn [bind] in *. cbn [valueOf d] in H.
    destruct cmd; try (apply IH; exact H).
    destruct (idx (view nm (hd P)) (j + 0)) as [x0'| |]; try discriminate.
    destruct (idx (view nm (hd P)) (j + 1)) as [y0'| |]; try discriminate.
    cbn [bind] in *. apply IH. exact H.
Qed.

End SplitRefinement.

(** X19. On the heap each builder gives the path of its receiver the value
    that the builder on values computes, whatever capacity [append]
    allocates and whether or not it writes in place, and the slices of the
    receiver stay within their arrays. *)
Theorem builders_refine (slackCmd slackNum : nat -> nat -> nat) (h : heap)
    (p : nat) (v : Path) (a b c e x y : float64) (l s : bool) :
  holds h p v ->
  (exists h', MoveToH slackCmd slackNum p x y h = Ret (tt, h') /\
              holds h' p (MoveTo v x y)) /\
  (exists h', LineToH slackCmd slackNum p x y h = Ret (tt, h') /\
              holds h' p (LineTo v x y)) /\
  (exists h', QuadToH slackCmd slackNum p a b x y h = Ret (tt, h') /\
              holds h' p (QuadTo v a b x y)) /\
  (exists h', CubeToH slackCmd slackNum p a b c e x y h = Ret (tt, h') /\
              holds h' p (CubeTo v a b c e x y)) /\
  (exists h', ArcToH slackCmd slackNum p a b c l s x y h = Ret (tt, h') /\
              holds h' p (ArcTo v a b c l s x y)) /\
  (exists h', CloseH slackCmd slackNum p h = Ret (tt, h') /\
              holds h' p (Close v)).
Proof.
  intros H.
  destruct (MoveToH_refines slackCmd slackNum h p v x y H) as (h1 & E1 & H1 & _).
  destruct (LineToH_refines slackCmd slackNum h p v x y H) as (h2 & E2 & H2 & _).
  destruct (QuadToH_refines slackCmd slackNum h p v a b x y H) as (h3 & E3 & H3 & _).
  destruct (CubeToH_refines slackCmd slackNum h p v a b c e x y H)
    as (h4 & E4 & H4 & _).
  destruct (ArcToH_refines slackCmd slackNum h p v a b c l s x y H)
    as (h5 & E5 & H5 & _).
  destruct (CloseH_refines slackCmd slackNum h p v H) as (h6 & E6 & H6 & _).
  repeat split; eexists; split; eassumption.
Qed.

Lemma builders_refine_witness :
  let h := mkHeap [[MoveToCmd; MoveToCmd]] [[3; 4; 0; 0]%float]
             [mkPathH (mkSlice 0 0 1 2) (mkSlice 0 0 2 4) 3%float 4%float] in
  let v := mkPath [MoveToCmd] [3; 4]%float 3%float 4%float in
  holds h 0 v /\
  exists h', LineToH (fun _ _ => 0) (fun _ n => n) 0 1%float 2%float h = Ret (tt, h') /\
             holds h' 0 (LineTo v 1%float 2%float).
Proof.
  assert (H : holds (mkHeap [[MoveToCmd; MoveToCmd]] [[3; 4; 0; 0]%float]
                       [mkPathH (mkSlice 0 0 1 2) (mkSlice 0 0 2 4) 3%float 4%float])
                0 (mkPath [MoveToCmd] [3; 4]%float 3%float 4%float)).
  { eexists. split; [reflexivity|]. unfold wfSlice. cbn. repeat split; lia. }
  split; [exact H|].
  exact (proj1 (proj2 (builders_refine (fun _ _ => 0) (fun _ n => n) _ 0 _
                         0%float 0%float 0%float 0%float 1%float 2%float
                         false false H))).
Defined.

(** X20. [Split] on the heap allocates no array and writes to none: it
    returns pointers to new structs whose slices show, at the return, the
    fragments that [Split] computes on the value of the path, and it leaves
    the value of every other path as it was. *)
Theorem SplitH_fragments (h : heap) (p : nat) (v : Path) (frags : list Path) :
  holds h p v -> Split v = Ret frags ->
  exists h',
    SplitH p h = Ret (seq (length (objs h)) (length frags), h') /\
    cmdMem h' = cmdMem h /\ numMem h' = numMem h /\
    (forall q w, pathValue h q = Some w -> pathValue h' q = Some w) /\
    (forall k, k < length frags ->
               pathValue h' (length (objs h) + k) = nth_error frags k).
Proof.
  intros (P & Hn & Wc & Wd & Hv) HS.
  change (valueOf (cmdMem h) (numMem h) P = v) in Hv. subst v.
  unfold Split in HS.
  destruct (splitLoopH_refines (cmdMem h) (numMem h) P Wc Wd _ [] _ _ _ _ _ _ _ _ HS)
    as (fragsH & EH & Hmap).
  unfold SplitH. erewrite bindH_Ret by (unfold getPath; rewrite Hn; reflexivity).
  unfold bindH, liftH. cbn [valueOf cmds] in EH. rewrite EH.
  rewrite <- Hmap, length_map.
  eexists. split; [reflexivity|]. cbn [cmdMem numMem objs].
  split; [reflexivity|]. split; [reflexivity|]. split.
  - intros q w Hq. unfold pathValue in *. cbn [cmdMem numMem objs].
    destruct (nth_error (objs h) q) as [Q|] eqn:EQ; [|discriminate].
    rewrite nth_error_app1 by (apply nth_error_Some; congruence).
    rewrite EQ. exact Hq.
  - intros k Hk. unfold pathValue. cbn [cmdMem numMem objs].
    rewrite nth_error_app2 by lia.
    replace (length (objs h) + k - length (objs h)) with k by lia.
    rewrite nth_error_map. destruct (nth_error fragsH k); reflexivity.
Qed.

Lemma SplitH_fragments_witness :
  let h := mkHeap [[MoveToCmd; LineToCmd; MoveToCmd; LineToCmd]]
             [[0; 0; 1; 1; 2; 2; 3; 3]%float]
             [mkPathH (mkSlice 0 0 4 4) (mkSlice 0 0 8 8) 2%float 2%float] in
  let v := mkPath [MoveToCmd; LineToCmd; MoveToCmd; LineToCmd]
             [0; 0; 1; 1; 2; 2; 3; 3]%float 2%float 2%float in
  let frags := [mkPath [MoveToCmd; LineToCmd] [0; 0; 1; 1]%float 0%float 0%float;
                mkPath [MoveToCmd; LineToCmd] [2; 2; 3; 3]%float 2%float 2%float] in
  (holds h 0 v /\ Split v = Ret frags) /\
  exists h',
    SplitH 0 h = Ret ([1; 2], h') /\
    cmdMem h' = cmdMem h /\ numMem h' = numMem h /\
    (forall q w, pathValue h q = Some w -> pathValue h' q = Some w) /\
    (forall k, k < 2 -> pathValue h' (1 + k) = nth_error frags k).
Proof.
  assert (H : holds (mkHeap [[MoveToCmd; LineToCmd; MoveToCmd; LineToCmd]]
                       [[0; 0; 1; 1; 2; 2; 3; 3]%float]
                       [mkPathH (mkSlice 0 0 4 4) (mkSlice 0 0 8 8) 2%float 2%float])
                0 (mkPath [MoveToCmd; LineToCmd; MoveToCmd; LineToCmd]
                     [0; 0; 1; 1; 2; 2; 3; 3]%float 2%float 2%float)).
  { eexists. split; [reflexivity|]. unfold wfSlice. cbn. repeat split; lia. }
  split; [split; [exact H | reflexivity]|].
  exact (SplitH_fragments _ 0 _ _ H eq_refl).
Defined.

(** ** A copy has arrays of its own *)

Section FrameFacts.

Variable T : Type.
Variable zero : T.
Variable slack : nat -> nat -> nat.

Lemma array_setArray_other (m : memory T) (a b : nat) (v : list T) :
  a <> b -> array (setArray m a v) b = array m b.
Proof.
  revert a b. induction m as [|x m IH]; intros a b H; [reflexivity|].
  destruct a, b; try reflexivity; [congruence|].
  apply (IH a b). congruence.
Qed.

Lemma length_setArray (m : memory T) (a : nat) (v : list T) :
  length (setArray m a v) = length m.
Proof.
  revert a. induction m as [|x m IH]; intros a; [reflexivity|].
  destruct a; simpl; [reflexivity|]. rewrite IH. reflexivity.
Qed.

Lemma array_setArray_self (m : memory T) (a b : nat) :
  array (setArray m a (array m a)) b = array m b.
Proof.
  destruct (Nat.eq_dec a b) as [<-|Hab]; [|apply array_setArray_other; exact Hab].
  destruct (Nat.lt_ge_cases a (length m)) as [Hin|Hout].
  - apply array_setArray. exact Hin.
  - unfold array at 1 3. rewrite !nth_overflow; rewrite ?length_setArray; trivial.
Qed.

(** [append] on a slice that cannot write to the first [n] arrays leaves
    them as they are, and so is the slice it returns. *)
Lemma appendH_frame (m : memory T) (s : sliceH) (xs : list T) (n : nat) :
  n <= length m -> (n <= s_arr s \/ s_cap s = 0) ->
  (n <= length (fst (appendH zero slack m s xs)) /\
   forall a, a < n -> array (fst (appendH zero slack m s xs)) a = array m a) /\
  (n <= s_arr (snd (appendH zero slack m s xs)) \/
   s_cap (snd (appendH zero slack m s xs)) = 0).
Proof.
  intros Hn Hp. unfold appendH.
  destruct (s_len s + length xs <=? s_cap s) eqn:E; cbn [fst snd s_arr s_cap].
  - apply Nat.leb_le in E. rewrite length_setArray.
    split; [split; [exact Hn|] | exact Hp].
    intros a Ha. destruct Hp as [Hp|Hp].
    + apply array_setArray_other. lia.
    + assert (Hx : xs = []) by (destruct xs; [reflexivity | simpl in E; lia]).
      subst xs. unfold overwrite. cbn [app length].
      rewrite Nat.add_0_r, firstn_skipn. apply array_setArray_self.
  - rewrite length_app. cbn [length].
    split; [split; [lia|] | left; exact Hn].
    intros a Ha. unfold array. apply app_nth1. lia.
Qed.

End FrameFacts.

Lemma view_nilSlice {T : Type} (m : memory T) : view m nilSlice = [].
Proof. reflexivity. Qed.

Lemma wfSlice_nilSlice {T : Type} (m : memory T) : wfSlice m nilSlice.
Proof. unfold wfSlice. cbn. lia. Qed.

(** A slice within its array shows the same elements in a memory that has
    the arrays of [m]. *)
Lemma view_stable {T : Type} (m m' : memory T) (s : sliceH) :
  length m <= length m' ->
  (forall a, a < length m -> array m' a = array m a) ->
  wfSlice m s -> wfSlice m' s /\ view m' s = view m s.
Proof.
  intros Hl Ha [H1 H2].
  destruct (Nat.lt_ge_cases (s_arr s) (length m)) as [Hin|Hout].
  - unfold wfSlice, view. rewrite (Ha _ Hin). repeat split; trivial.
  - assert (Hnil : array m (s_arr s) = []).
    { unfold array. apply nth_overflow. exact Hout. }
    rewrite Hnil in H2. cbn [length] in H2.
    assert (Hlen : s_len s = 0) by lia.
    unfold wfSlice, view. rewrite Hlen. cbn [firstn]. repeat split; lia.
Qed.

Lemma stable_holds (h h' : heap) (r : nat) (w : Path) :
  stable h h' -> holds h r w -> holds h' r w.
Proof.
  intros ((Lc & Ac) & (Ld & Ad) & Ho) (P & Hn & Wc & Wd & Hv).
  destruct (view_stable _ _ _ Lc Ac Wc) as [Wc' Vc].
  destruct (view_stable _ _ _ Ld Ad Wd) as [Wd' Vd].
  exists P. rewrite Vc, Vd.
  split; [rewrite Ho; [exact Hn|]; apply nth_error_Some; congruence|].
  split; [exact Wc'|]. split; [exact Wd'|]. exact Hv.
Qed.

Section CopyFacts.

Variable slackCmd slackNum : nat -> nat -> nat.

(** The builders on a path apart from [h0]: the value of the receiver as
    [append_both] has it, in arrays that are still not those of [h0]. *)
Lemma append_both_apart (h0 h : heap) (q : nat) (P : PathH) (c : PathCmd)
    (nums : list float64) (x y : float64) :
  stable h0 h -> length (objs h0) <= q ->
  nth_error (objs h) q = Some P -> privateTo h0 P ->
  wfSlice (cmdMem h) (hcmds P) -> wfSlice (numMem h) (hd P) ->
  exists h',
    bindH (appendCmds slackCmd (hcmds P) [c])
      (fun c' => bindH (appendNums slackNum (hd P) nums)
         (fun f => setPath q (mkPathH c' f x y))) h
    = Ret (tt, h') /\
    stable h0 h' /\
    holdsApart h0 h' q (mkPath (view (cmdMem h) (hcmds P) ++ [c])
                               (view (numMem h) (hd P) ++ nums) x y).
Proof.
  intros ((Lc & Ac) & (Ld & Ad) & Ho) Hq Hn [Pc Pd] Wc Wd.
  destruct (appendH_view _ MoveToCmd slackCmd _ _ [c] Wc) as [Wc' Vc].
  destruct (appendH_view _ 0%float slackNum _ _ nums Wd) as [Wd' Vd].
  destruct (appendH_frame _ MoveToCmd slackCmd _ _ [c] _ Lc Pc) as [[Lc' Ac'] Pc'].
  destruct (appendH_frame _ 0%float slackNum _ _ nums _ Ld Pd) as [[Ld' Ad'] Pd'].
  unfold bindH, appendCmds, appendNums, setPath.
  destruct (appendH MoveToCmd slackCmd (cmdMem h) (hcmds P) [c]) as [m1 c1].
  cbn [cmdMem numMem objs].
  destruct (appendH 0%float slackNum (numMem h) (hd P) nums) as [m2 f2].
  cbn [fst snd] in *.
  eexists. split; [reflexivity|]. unfold stable. cbn [objs cmdMem numMem]. split.
  - split; [split; [exact Lc'|] | split; [split; [exact Ld'|]|]].
    + intros a Ha. rewrite Ac' by exact Ha. apply Ac. exact Ha.
    + intros a Ha. rewrite Ad' by exact Ha. apply Ad. exact Ha.
    + intros r Hr. rewrite nth_error_setNth_other by lia. apply Ho. exact Hr.
  - split; [exact Hq|]. exists (mkPathH c1 f2 x y).
    unfold valueOf, privateTo. cbn [cmdMem numMem objs hcmds hd hx0 hy0].
    unfold float64 in *. rewrite Vc, Vd.
    split; [apply nth_error_setNth, nth_error_Some; congruence|].
    split; [split; assumption|].
    split; [exact Wc'|]. split; [exact Wd'|]. reflexivity.
Qed.

Lemma drawH_apart (h0 h : heap) (q : nat) (v : Path) (s : stroke) :
  stable h0 h -> holdsApart h0 h q v ->
  exists h', drawH slackCmd slackNum q s h = Ret (tt, h') /\
             stable h0 h' /\ holdsApart h0 h' q (draw v s).
Proof.
  intros Hs (Hq & P & Hn & Hp & Wc & Wd & <-).
  destruct s; cbn [drawH draw];
    unfold LineToH, QuadToH, CubeToH, ArcToH;
    (erewrite bindH_Ret by (unfold getPath; rewrite Hn; reflexivity));
    apply (append_both_apart h0 h q P _ _ _ _ Hs Hq Hn Hp Wc Wd).
Qed.

Lemma drawAllH_apart (ss : list stroke) :
  forall (h0 h : heap) (q : nat) (v : Path),
    stable h0 h -> holdsApart h0 h q v ->
    exists h', drawAllH slackCmd slackNum q ss h = Ret (tt, h') /\
               stable h0 h' /\ holdsApart h0 h' q (fold_left draw ss v).
Proof.
  induction ss as [|s ss IH]; intros h0 h q v Hs Hv.
  - exists h. split; [reflexivity|]. split; assumption.
  - destruct (drawH_apart h0 h q v s Hs Hv) as (h1 & E1 & Hs1 & Hv1).
    destruct (IH h0 h1 q (draw v s) Hs1 Hv1) as (h2 & E2 & Hs2 & Hv2).
    exists h2. cbn [drawAllH fold_left].
    rewrite (bindH_Ret _ _ _ _ _ E1). split; [exact E2|]. split; assumption.
Qed.

Lemma holdsApart_holds (h0 h : heap) (q : nat) (v : Path) :
  holdsApart h0 h q v -> holds h q v.
Proof.
  intros (_ & P & Hn & _ & Wc & Wd & Hv). exists P.
  split; [exact Hn|]. split; [exact Wc|]. split; [exact Wd|]. exact Hv.
Qed.

Lemma CopyH_apart (h : heap) (p : nat) (v : Path) :
  holds h p v ->
  exists h1,
    CopyH slackCmd slackNum p h = Ret (length (objs h), h1) /\
    stable h h1 /\ holdsApart h h1 (length (objs h)) (Copy v).
Proof.
  intros (P & Hn & Wc & Wd & <-).
  set (cs := view (cmdMem h) (hcmds P)). set (ds := view (numMem h) (hd P)).
  destruct (appendH_view _ MoveToCmd slackCmd (cmdMem h) nilSlice cs
              (wfSlice_nilSlice _)) as [Wc' Vc].
  destruct (appendH_view _ 0%float slackNum (numMem h) nilSlice ds
              (wfSlice_nilSlice _)) as [Wd' Vd].
  destruct (appendH_frame _ MoveToCmd slackCmd (cmdMem h) nilSlice cs _
              (Nat.le_refl _) (or_intror eq_refl)) as [[Lc' Ac'] Pc'].
  destruct (appendH_frame _ 0%float slackNum (numMem h) nilSlice ds _
              (Nat.le_refl _) (or_intror eq_refl)) as [[Ld' Ad'] Pd'].
  unfold CopyH. erewrite bindH_Ret by (unfold getPath; rewrite Hn; reflexivity).
  unfold bindH, appendCmds, appendNums, newPath. fold cs.
  destruct (appendH MoveToCmd slackCmd (cmdMem h) nilSlice cs) as [m1 c1].
  cbn [cmdMem numMem objs]. fold ds.
  destruct (appendH 0%float slackNum (numMem h) nilSlice ds) as [m2 f2].
  cbn [fst snd cmdMem numMem objs] in *.
  eexists. split; [reflexivity|]. unfold stable. cbn [objs cmdMem numMem]. split.
  - split; [split; assumption | split; [split; assumption|]].
    intros r Hr. apply nth_error_app1. exact Hr.
  - split; [apply Nat.le_refl|]. exists (mkPathH c1 f2 (hx0 P) (hy0 P)).
    unfold valueOf, privateTo, Copy.
    cbn [cmdMem numMem objs hcmds hd hx0 hy0 cmds d x0 y0].
    unfold float64 in *. rewrite Vc, Vd.
    split; [rewrite nth_error_app2, Nat.sub_diag by lia; reflexivity|].
    split; [split; assumption|].
    split; [exact Wc'|]. split; [exact Wd'|]. reflexivity.
Qed.

End CopyFacts.

(** X21. [Copy] gives the copy arrays of its own: the copy has the value of
    the original, and whatever is then drawn on the copy, with any growth
    policy of [append], the copy has the value that the builders compute
    and every path that existed before the copy keeps its value. *)
Theorem CopyH_private (slackCmd slackNum : nat -> nat -> nat) (h : heap)
    (p : nat) (v : Path) (ss : list stroke) :
  holds h p v ->
  exists q h1 h2,
    CopyH slackCmd slackNum p h = Ret (q, h1) /\
    holds h1 q (Copy v) /\
    drawAllH slackCmd slackNum q ss h1 = Ret (tt, h2) /\
    holds h2 q (fold_left draw ss (Copy v)) /\
    (forall r w, holds h r w -> holds h1 r w /\ holds h2 r w).
Proof.
  intros H.
  destruct (CopyH_apart slackCmd slackNum h p v H) as (h1 & E1 & Hs1 & Hv1).
  destruct (drawAllH_apart slackCmd slackNum ss h h1 _ _ Hs1 Hv1)
    as (h2 & E2 & Hs2 & Hv2).
  exists (length (objs h)), h1, h2.
  split; [exact E1|]. split; [eapply holdsApart_holds; exact Hv1|].
  split; [exact E2|]. split; [eapply holdsApart_holds; exact Hv2|].
  intros r w Hr. split; eapply stable_holds; eassumption.
Qed.

Lemma CopyH_private_witness :
  let h := mkHeap [[MoveToCmd; LineToCmd; MoveToCmd; LineToCmd]]
             [[0; 0; 1; 1; 2; 2; 3; 3]%float]
             [mkPathH (mkSlice 0 0 4 4) (mkSlice 0 0 8 8) 2%float 2%float;
              mkPathH (mkSlice 0 0 2 4) (mkSlice 0 0 4 8) 0%float 0%float;
              mkPathH (mkSlice 0 2 2 2) (mkSlice 0 4 4 4) 2%float 2%float] in
  let f0 := mkPath [MoveToCmd; LineToCmd] [0; 0; 1; 1]%float 0%float 0%float in
  let f1 := mkPath [MoveToCmd; LineToCmd] [2; 2; 3; 3]%float 2%float 2%float in
  (holds h 1 f0 /\ holds h 2 f1) /\
  exists q h1 h2,
    CopyH (fun _ _ => 0) (fun _ n => n) 1 h = Ret (q, h1) /\
    drawAllH (fun _ _ => 0) (fun _ n => n) q [SQuad 9 9 9 9]%float h1 = Ret (tt, h2) /\
    holds h2 q (QuadTo f0 9 9 9 9)%float /\
    holds h2 2 f1.
Proof.
  set (h := mkHeap [[MoveToCmd; LineToCmd; MoveToCmd; LineToCmd]]
             [[0; 0; 1; 1; 2; 2; 3; 3]%float]
             [mkPathH (mkSlice 0 0 4 4) (mkSlice 0 0 8 8) 2%float 2%float;
              mkPathH (mkSlice 0 0 2 4) (mkSlice 0 0 4 8) 0%float 0%float;
              mkPathH (mkSlice 0 2 2 2) (mkSlice 0 4 4 4) 2%float 2%float]).
  assert (H0 : holds h 1 (mkPath [MoveToCmd; LineToCmd] [0; 0; 1; 1]%float
                             0%float 0%float)).
  { eexists. split; [reflexivity|]. unfold wfSlice. cbn. repeat split; lia. }
  assert (H1 : holds h 2 (mkPath [MoveToCmd; LineToCmd] [2; 2; 3; 3]%float
                             2%float 2%float)).
  { eexists. split; [reflexivity|]. unfold wfSlice. cbn. repeat split; lia. }
  split; [split; assumption|].
  destruct (CopyH_private (fun _ _ => 0) (fun _ n => n) h 1 _
              [SQuad 9 9 9 9]%float H0) as (q & h1 & h2 & E1 & _ & E2 & Hq & Hr).
  exists q, h1, h2. split; [exact E1|]. split; [exact E2|].
  split; [exact Hq|]. apply (Hr 2 _ H1).
Defined.

(** ** The buffer invariant, one call at a time *)

(** X22. On paths taken as values every operation of the algebra keeps the
    buffer invariant: from paths that satisfy it, [Copy], [Append] (for the
    receiver and for the argument it re-slices), [Translate], [Split] (for
    every fragment), [Reverse] and [FlattenBeziers] (for the result and for
    the path of every intermediate state of its loop, given a flattener
    that returns well-formed paths) give paths that satisfy it.  This is
    about the path a call returns; what the call does to the paths that
    share its arrays is not seen on values. *)
Theorem operations_keep_arityInv
    (flat : Point -> Point -> Point -> Point -> float64 -> float64 -> Path)
    (tol : float64) (p q : Path) (x y : float64) :
  (forall s c1 c2 e t tl, arityInv (flat s c1 c2 e t tl)) ->
  arityInv p -> arityInv q ->
  arityInv (Copy p) /\
  (forall p' q', Append p q = Ret (p', q') -> arityInv p' /\ arityInv q') /\
  (forall p', Translate p x y = Ret p' -> arityInv p') /\
  (forall ps, Split p = Ret ps -> Forall arityInv ps) /\
  (forall p', Reverse p = Ret p' -> arityInv p') /\
  (forall st, flattenReach flat tol (flattenInit p) st -> arityInv (fs_p st)) /\
  (forall p', FlattenBeziers flat tol p = Ret p' -> arityInv p').
Proof.
  intros Hflat Hp Hq.
  split; [apply Copy_arityInv; exact Hp|].
  split; [intros p' q' HA; exact (Append_arityInv p q p' q' Hp Hq HA)|].
  split; [intros p' HT; exact (Translate_arityInv p x y p' Hp HT)|].
  split; [intros ps HS; exact (Split_arityInv p ps Hp HS)|].
  split; [intros p' HR; exact (Reverse_arityInv p p' HR)|].
  split.
  - intros st Hst. eapply flattenReach_arityInv; [exact Hflat | | eassumption].
    apply Copy_arityInv. exact Hp.
  - intros p' HF. eapply flattenLoop_arityInv; [exact Hflat | | eassumption].
    apply Copy_arityInv. exact Hp.
Qed.

Lemma operations_keep_arityInv_witness :
  let p := Close (QuadTo (MoveTo emptyPath 0 0) 1 1 2 0)%float in
  let q := (LineTo (MoveTo emptyPath 0 0) 5 5)%float in
  ((forall s c1 c2 e t tl, arityInv (chordFlattener s c1 c2 e t tl)) /\
   arityInv p /\ arityInv q) /\
  arityInv (mkPath [MoveToCmd; LineToCmd; CloseCmd] [0; 0; 2; 0; 0; 0]%float
              0%float 0%float).
Proof.
  assert (Hp : arityInv (Close (QuadTo (MoveTo emptyPath 0 0) 1 1 2 0)%float))
    by reflexivity.
  assert (Hq : arityInv ((LineTo (MoveTo emptyPath 0 0) 5 5)%float)) by reflexivity.
  split; [split; [exact chordFlattener_arityInv | split; assumption]|].
  apply (proj2 (proj2 (proj2 (proj2 (proj2 (proj2
           (operations_keep_arityInv chordFlattener 0.5%float _ _ 0%float 0%float
              chordFlattener_arityInv Hp Hq))))))).
  vm_compute. reflexivity.
Defined.
